(** * SimpleCross: a shallow embedding of the order-matching engine

    The C++ program keeps a book of resting limit orders per symbol and
    side, crosses incoming orders against it, and writes its results to
    standard output.  This file embeds [SimpleCross] and its helpers as
    Rocq functions and states the properties of the engine over them.

    Of the two revisions of the program, the one embedded here is the
    one that has [_cancelOrder], [_validateOrderId] and the fill records;
    [action] ends the same way in both.

    Conventions of the embedding:
    - a call either returns, throws a C++ exception that nothing catches
      (the process terminates), or has undefined behaviour; see [outcome],
      which also marks the few inputs of [std::stod] left out here;
    - [std::map] is a list of pairs kept in ascending key order, so that
      forward and reverse iteration are the list and its reversal;
    - [uint32_t] and [uint16_t] are [Z] with the wrap-around written out;
    - a [Price] is the [double] denoting a decimal with five fractional
      digits (the 7.5 format of the input), held as the integer number of
      hundred-thousandths; on such values the comparisons of the source
      are the comparisons of these integers.  The module [NaNPrice] embeds
      the engine a second time over prices that may be a NaN, which
      [std::stod] reads from the text [nan]. *)

From Stdlib Require Import ZArith String Ascii DecimalString Lia.
From Stdlib Require OrderedTypeEx.
From stdpp Require Import base option list sorting strings gmap.

Open Scope string_scope.
Open Scope list_scope.
Open Scope Z_scope.

(** ** Outcomes *)

Inductive exception : Type :=
| invalid_argument (what : string)
| out_of_range (what : string).

(** [Throws e]: an exception leaves the call; nothing in the program
    catches one, so the process terminates.  [Undefined]: the call has
    undefined behaviour.  [Unmodelled]: the input leaves the part of the
    C++ library that this file describes, and nothing is said about it. *)
Inductive outcome (A : Type) : Type :=
| Returns (a : A)
| Throws (e : exception)
| Undefined
| Unmodelled.

Arguments Returns {A} a.
Arguments Throws {A} e.
Arguments Undefined {A}.
Arguments Unmodelled {A}.

#[global] Instance outcome_ret : MRet outcome := fun _ a => Returns a.
#[global] Instance outcome_bind : MBind outcome := fun _ _ f m =>
  match m with
  | Returns a => f a
  | Throws e => Throws e
  | Undefined => Undefined
  | Unmodelled => Unmodelled
  end.

(** ** [std::map] as an ascending list of pairs *)

Class Less (K : Type) := less : K → K → bool.

#[global] Instance Z_less : Less Z := Z.ltb.
#[global] Instance string_less : Less string := String.ltb.

(** What [std::map] asks of its comparison: a strict order under which
    two keys that are not ordered are the same key. *)
Class StrictLess (K : Type) `{Less K} : Prop := {
  less_irrefl : ∀ a : K, less a a = false;
  less_trans : ∀ a b c : K, less a b = true → less b c = true → less a c = true;
  less_total : ∀ a b : K, less a b = false → less b a = false → a = b
}.

Module StdMap.
Section ops.
Context {K V : Type} `{Less K}.

(** Keys are compared with [std::less] alone: two keys are the same key
    when neither is less than the other. *)
Definition same_key (a b : K) : bool := negb (less a b) && negb (less b a).

Fixpoint find (k : K) (m : list (K * V)) : option V :=
  match m with
  | [] => None
  | (k', v) :: m' => if same_key k k' then Some v else find k m'
  end.

(** [m.insert({k, v})]: nothing happens when the key is present. *)
Fixpoint insert (k : K) (v : V) (m : list (K * V)) : list (K * V) :=
  match m with
  | [] => [(k, v)]
  | (k', v') :: m' =>
      if less k k' then (k, v) :: m
      else if less k' k then (k', v') :: insert k v m'
      else m
  end.

(** [m[k] = v], also the write through a reference obtained from
    [m[k]]: the entry is created when the key is absent. *)
Fixpoint assign (k : K) (v : V) (m : list (K * V)) : list (K * V) :=
  match m with
  | [] => [(k, v)]
  | (k', v') :: m' =>
      if less k k' then (k, v) :: m
      else if less k' k then (k', v') :: assign k v m'
      else (k', v) :: m'
  end.

(** [m.erase(k)] *)
Fixpoint erase (k : K) (m : list (K * V)) : list (K * V) :=
  match m with
  | [] => []
  | (k', v) :: m' =>
      if same_key k k' then erase k m' else (k', v) :: erase k m'
  end.

(** The value read through [m[k]], [d] being the value-initialised one
    that [operator[]] creates for an absent key. *)
Definition at_default (k : K) (d : V) (m : list (K * V)) : V :=
  default d (find k m).

Definition keys (m : list (K * V)) : list K := m.*1.
End ops.
End StdMap.

(** ** Type definitions of the program *)

Inductive Side : Type := BUY | SELL.

Abbreviation OrderId := Z (only parsing).
Abbreviation Symbol := string (only parsing).
Abbreviation Quantity := Z (only parsing).
Abbreviation Price := Z (only parsing).

Record Order : Type := mkOrder {
  oid : OrderId;
  symbol : Symbol;
  side : Side;
  qty : Quantity;
  px : Price
}.

Abbreviation OrderQueue := (list Order) (only parsing).
Abbreviation PriceLevels := (list (Z * list Order)) (only parsing).

Record Sides : Type := mkSides {
  bids : PriceLevels;
  asks : PriceLevels
}.

Abbreviation OrderBook := (list (string * Sides)) (only parsing).
Abbreviation OrderCache := (gmap Z Order) (only parsing).

Record Fill : Type := mkFill {
  fill_oid : OrderId;
  fill_symbol : Symbol;
  fill_qty : Quantity;
  fill_px : Price
}.

Abbreviation results_t := (list string) (only parsing).

(** The two data members of [class SimpleCross]; [debug] is [false] and
    never assigned, so the [_log] calls print nothing and are left out. *)
Record SimpleCross : Type := mkSimpleCross {
  orderBook : OrderBook;
  orderCache : OrderCache
}.

Definition empty_Sides : Sides := mkSides [] [].
Definition initial : SimpleCross := mkSimpleCross [] ∅.

Definition set_qty (o : Order) (q : Quantity) : Order :=
  mkOrder (oid o) (symbol o) (side o) q (px o).

Definition uint16 (z : Z) : Z := z mod 65536.
Definition uint32 (z : Z) : Z := z mod 4294967296.

(** ** The library functions the program calls *)

Definition isspace (c : ascii) : bool :=
  let n := N_of_ascii c in ((n =? 32) || ((9 <=? n) && (n <=? 13)))%N.

Definition isdigit (c : ascii) : bool :=
  let n := N_of_ascii c in ((48 <=? n) && (n <=? 57))%N.

Definition digit_value (c : ascii) : Z := Z.of_N (N_of_ascii c) - 48.

Fixpoint skip_space (s : string) : string :=
  match s with
  | String c s' => if isspace c then skip_space s' else s
  | EmptyString => s
  end.

Definition read_sign (s : string) : bool * string :=
  match s with
  | String "-" s' => (true, s')
  | String "+" s' => (false, s')
  | _ => (false, s)
  end.

(** Reads a run of decimal digits: its value, its length, and what follows. *)
Fixpoint read_digits (s : string) (acc : Z) (n : nat) : Z * nat * string :=
  match s with
  | String c s' =>
      if isdigit c then read_digits s' (10 * acc + digit_value c) (S n)
      else (acc, n, s)
  | EmptyString => (acc, n, s)
  end.

(** [std::stoi(str)]: leading white space, a sign, decimal digits; what
    follows the digits is ignored. *)
Definition stoi (str : string) : outcome Z :=
  let '(neg, s1) := read_sign (skip_space str) in
  let '(v, n, _) := read_digits s1 0 0 in
  match n with
  | O => Throws (invalid_argument "stoi")
  | _ =>
      let r := if neg : bool then - v else v in
      if (r <? -2147483648) || (2147483647 <? r)
      then Throws (out_of_range "stoi")
      else Returns r
  end.

(** Digits after the decimal point, in hundred-thousandths: [unit] is the
    weight of the next digit, 10000 at the point. *)
Fixpoint read_fraction (s : string) (unit acc : Z) (n : nat)
    : Z * nat * string :=
  match s with
  | String c s' =>
      if isdigit c
      then read_fraction s' (unit / 10) (acc + digit_value c * unit) (S n)
      else (acc, n, s)
  | EmptyString => (acc, n, s)
  end.

(** The first character is one of [chars]. *)
Definition starts_with_any (chars : list ascii) (s : string) : bool :=
  match s with
  | String c _ => bool_decide (c ∈ chars)
  | EmptyString => false
  end.

(** [std::stod(str)] on plain decimal notation: white space, a sign,
    digits, a point, digits.  With at most ten integer and five fractional
    digits the [double] it returns is the one this file holds as a number
    of hundred-thousandths; the 7.5 format of the input lies well inside.
    Longer numbers, minus zero, and the exponent, hexadecimal, infinity
    and NaN notations of [strtod], are left [Unmodelled]; the NaN
    notation is read by [NaNPrice.stod] below. *)
Definition stod (str : string) : outcome Price :=
  let '(neg, s1) := read_sign (skip_space str) in
  let '(ip, n1, s2) := read_digits s1 0 0 in
  let '(fp, n2, s3) :=
    match s2 with
    | String "." s' => read_fraction s' 10000 0 0
    | _ => (0, O, s2)
    end in
  match (n1 + n2)%nat with
  | O =>
      if starts_with_any ["i"; "I"; "n"; "N"]%char s1 then Unmodelled
      else Throws (invalid_argument "stod")
  | _ =>
      let v := ip * 100000 + fp in
      if starts_with_any ["e"; "E"; "x"; "X"]%char s3
         || bool_decide (10 < n1)%nat || bool_decide (5 < n2)%nat
         || (neg && (v =? 0))
      then Unmodelled
      else Returns (if neg : bool then - v else v)
  end.

(** [std::to_string] of an integer. *)
Definition to_string (z : Z) : string := NilZero.string_of_int (Z.to_int z).

(** [std::to_string] of a [double] prints with ["%f"], that is with six
    fractional digits: the five of the price and a zero.  This is what is
    printed for prices below 2^33, the 7.5 format among them; from there
    on the [double] nearest to the decimal can print another sixth
    digit, which this definition does not follow. *)
Definition to_string_double (p : Price) : string :=
  let a := Z.abs p in
  (if p <? 0 then "-" else "")
  +:+ to_string (a / 100000) +:+ "."
  +:+ match to_string (100000 + a mod 100000) with
      | String _ ds => ds
      | EmptyString => EmptyString
      end
  +:+ "0".

Definition char_string (c : ascii) : string := String c EmptyString.

(** ** The matching engine *)

Definition side_char (s : Side) : ascii :=
  match s with BUY => "B"%char | SELL => "S"%char end.

(** [static_cast] of a character to [Action] or to [Side].  Neither
    enumeration fixes its underlying type and both have their enumerators
    below 128, so their values range over 0..127; converting a character
    outside that range is undefined. *)
Definition enum_cast (c : ascii) : outcome ascii :=
  if (N_of_ascii c <? 128)%N then Returns c else Undefined.

(** The constructor of [Order]: the side arrives as a character cast to
    the enumeration, and anything but ['B'] and ['S'] is refused. *)
Definition Order_ctor (_oid : OrderId) (_symbol : Symbol) (_side : ascii)
    (_qty : Quantity) (_px : Price) : outcome Order :=
  if Ascii.eqb _side "B" then Returns (mkOrder _oid _symbol BUY _qty _px)
  else if Ascii.eqb _side "S" then Returns (mkOrder _oid _symbol SELL _qty _px)
  else Throws (invalid_argument "Invalid Order Side").

Definition levels_of (s : Side) (sides : Sides) : PriceLevels :=
  match s with BUY => bids sides | SELL => asks sides end.

Definition with_levels (s : Side) (lv : PriceLevels) (sides : Sides) : Sides :=
  match s with
  | BUY => mkSides lv (asks sides)
  | SELL => mkSides (bids sides) lv
  end.

(** [_validateOrderId]: scans the cache for the identifier. *)
Definition _validateOrderId (orderId : OrderId) (cache : OrderCache)
    : outcome unit :=
  match cache !! orderId with
  | Some _ => Throws (invalid_argument "Invalid Order ID")
  | None => Returns ()
  end.

(** [orderCache.insert(...)], which leaves a present key alone. *)
Definition cache_insert (o : Order) (cache : OrderCache) : OrderCache :=
  match cache !! oid o with
  | Some _ => cache
  | None => <[oid o := o]> cache
  end.

Definition _placeOrderNewSymbol (order : Order) (ob : OrderBook) : OrderBook :=
  let orderQueue := [order] in
  let bidPxLevels :=
    match side order with
    | BUY => StdMap.insert (px order) orderQueue []
    | SELL => []
    end in
  let askPxLevels :=
    match side order with
    | BUY => []
    | SELL => StdMap.insert (px order) orderQueue []
    end in
  StdMap.insert (symbol order) (mkSides bidPxLevels askPxLevels) ob.

(** The loop over one price level's queue, shared verbatim by [_fillBid]
    and [_fillAsk].  It walks the queue from the front, updates the
    incoming [order] and each resting order in place, appends one [Fill]
    per crossing, counts the resting orders left with no shares, and
    stops as soon as the incoming order has none. *)
Fixpoint cross_queue (order : Order) (queue : OrderQueue)
    (fills : list Fill) (ordersToPop : nat)
    : Order * OrderQueue * list Fill * nat :=
  match queue with
  | [] => (order, [], fills, ordersToPop)
  | restingOrder :: queue' =>
      let sharesExecuted := Z.min (qty restingOrder) (qty order) in
      let order := set_qty order (uint16 (qty order - sharesExecuted)) in
      let restingOrder :=
        set_qty restingOrder (uint16 (qty restingOrder - sharesExecuted)) in
      let fills :=
        if 0 <? sharesExecuted
        then fills ++ [mkFill (oid restingOrder) (symbol restingOrder)
                              sharesExecuted (px restingOrder)]
        else fills in
      let ordersToPop :=
        if qty restingOrder =? 0 then S ordersToPop else ordersToPop in
      if qty order =? 0 then (order, restingOrder :: queue', fills, ordersToPop)
      else
        let '(o, q, f, n) := cross_queue order queue' fills ordersToPop in
        (o, restingOrder :: q, f, n)
  end.

(** [queue.pop_back()]; the loops never call it on an empty queue. *)
Definition pop_back (queue : OrderQueue) : OrderQueue :=
  take (length queue - 1) queue.

(** [ordersToPop] calls of [pop_back]. *)
Definition pop_back_n (n : nat) (queue : OrderQueue) : OrderQueue :=
  Nat.iter n pop_back queue.

(** The loop over the price levels, in the order the caller iterates
    them; [marketable] is the test of the level's price against the
    order's.  The body is the same in [_fillBid] and [_fillAsk].  The
    levels come back with their queues as the loop leaves them, next to
    the prices noted in [pxLevelsToDrop]. *)
Fixpoint cross_levels (marketable : Price → bool) (levels : PriceLevels)
    (order : Order) (fills : list Fill) (pxLevelsToDrop : list Price)
    : Order * PriceLevels * list Fill * list Price :=
  match levels with
  | [] => (order, [], fills, pxLevelsToDrop)
  | (price, queue) :: levels' =>
      let '(order, queue, fills) :=
        if marketable price
        then
          let '(o, q, f, ordersToPop) := cross_queue order queue fills 0 in
          (o, pop_back_n ordersToPop q, f)
        else (order, queue, fills) in
      let pxLevelsToDrop :=
        match queue with
        | [] => pxLevelsToDrop ++ [price]
        | _ => pxLevelsToDrop
        end in
      if qty order =? 0
      then (order, (price, queue) :: levels', fills, pxLevelsToDrop)
      else
        let '(o, ls, f, d) :=
          cross_levels marketable levels' order fills pxLevelsToDrop in
        (o, (price, queue) :: ls, f, d)
  end.

Definition erase_levels (drop : list Price) (levels : PriceLevels)
    : PriceLevels :=
  foldl (fun m p => StdMap.erase p m) levels drop.

(** [_fillBid]: the range-for takes each level as
    [std::pair<Price, OrderQueue>], a copy, so the queues the loop
    changes are those of the copies; the book itself only loses the
    levels noted in [pxLevelsToDrop]. *)
Definition _fillBid (order : Order) (ob : OrderBook)
    : Order * list Fill * OrderBook :=
  let sides := StdMap.at_default (symbol order) empty_Sides ob in
  let askPxLevels := asks sides in
  let '(order', _, fills, pxLevelsToDrop) :=
    cross_levels (fun askPrice => askPrice <=? px order)
                 askPxLevels order [] [] in
  let askPxLevels := erase_levels pxLevelsToDrop askPxLevels in
  (order', fills,
   StdMap.assign (symbol order) (mkSides (bids sides) askPxLevels) ob).

(** [_fillAsk]: iterates the bid levels from [rbegin()], through
    references into the book, so the queues change in place. *)
Definition _fillAsk (order : Order) (ob : OrderBook)
    : Order * list Fill * OrderBook :=
  let sides := StdMap.at_default (symbol order) empty_Sides ob in
  let bidPxLevels := bids sides in
  let '(order', levels, fills, pxLevelsToDrop) :=
    cross_levels (fun bidPrice => px order <=? bidPrice)
                 (reverse bidPxLevels) order [] [] in
  let bidPxLevels := erase_levels pxLevelsToDrop (reverse levels) in
  (order', fills,
   StdMap.assign (symbol order) (mkSides bidPxLevels (asks sides)) ob).

Definition _fillOrder (order : Order) (ob : OrderBook)
    : Order * list Fill * OrderBook :=
  match side order with
  | BUY => _fillBid order ob
  | SELL => _fillAsk order ob
  end.

Definition _placeOrderExistingSymbol (order : Order) (ob : OrderBook)
    : Order * list Fill * OrderBook :=
  let '(order, fills, ob) := _fillOrder order ob in
  if qty order =? 0 then (order, fills, ob)
  else
    let sides := StdMap.at_default (symbol order) empty_Sides ob in
    let pxLevels := levels_of (side order) sides in
    let pxLevels :=
      match StdMap.find (px order) pxLevels with
      | None => StdMap.insert (px order) [order] pxLevels
      | Some orderQueue =>
          StdMap.assign (px order) (orderQueue ++ [order]) pxLevels
      end in
    (order, fills,
     StdMap.assign (symbol order) (with_levels (side order) pxLevels sides) ob).

(** [_placeOrder]: [order] is passed by reference, and the copy that
    enters the cache carries the quantity left after matching. *)
Definition _placeOrder (order : Order) (sc : SimpleCross)
    : outcome (list Fill * SimpleCross) :=
  _ ← _validateOrderId (oid order) (orderCache sc);
  let '(order, fills, ob) :=
    match StdMap.find (symbol order) (orderBook sc) with
    | None => (order, [], _placeOrderNewSymbol order (orderBook sc))
    | Some _ => _placeOrderExistingSymbol order (orderBook sc)
    end in
  let cache :=
    if qty order =? 0 then orderCache sc
    else cache_insert order (orderCache sc) in
  Returns (fills, mkSimpleCross ob cache).

(** The search loop of [_cancelOrder]: the queue without its first order
    of that identifier, or [None] when the iterator reaches [end()]. *)
Fixpoint erase_oid (o : OrderId) (queue : OrderQueue) : option OrderQueue :=
  match queue with
  | [] => None
  | order :: queue' =>
      if oid order =? o then Some queue'
      else cons order <$> erase_oid o queue'
  end.

(** [_cancelOrder]: the cache is consulted, never pruned.  When the
    order is not in the queue that its cached price names, the loop ends
    at [end()] and [orderQueue.erase(end())] is undefined behaviour. *)
Definition _cancelOrder (o : OrderId) (sc : SimpleCross)
    : outcome (bool * SimpleCross) :=
  match orderCache sc !! o with
  | None => Returns (false, sc)
  | Some order =>
      let sides := StdMap.at_default (symbol order) empty_Sides (orderBook sc) in
      let pxLevels := levels_of (side order) sides in
      let orderQueue := StdMap.at_default (px order) [] pxLevels in
      match erase_oid o orderQueue with
      | None => Undefined
      | Some orderQueue =>
          let pxLevels :=
            match orderQueue with
            | [] => StdMap.erase (px order) pxLevels
            | _ => StdMap.assign (px order) orderQueue pxLevels
            end in
          Returns (true,
            mkSimpleCross
              (StdMap.assign (symbol order)
                 (with_levels (side order) pxLevels sides) (orderBook sc))
              (orderCache sc))
      end
  end.

(** ** Printing *)

Definition _printFills (fills : list Fill) : list string :=
  (fun fill =>
     "F " +:+ to_string (fill_oid fill) +:+ " "
     +:+ fill_symbol fill +:+ " "
     +:+ to_string (fill_qty fill) +:+ " "
     +:+ to_string_double (fill_px fill)) <$> fills.

Definition _printCancel (o : OrderId) (cancelled : bool) : list string :=
  if cancelled then ["X " +:+ to_string o]
  else ["E " +:+ to_string o +:+ " Order ID not on book"].

(** What one line of the book listing shows: the symbol and the side
    under which the loops reach the order, the price of its level, and the
    order itself. *)
Record Listed : Type := mkListed {
  l_symbol : Symbol;
  l_side : Side;
  l_price : Price;
  l_order : Order
}.

Definition book_line (l : Listed) : string :=
  "P " +:+ to_string (oid (l_order l)) +:+ " "
  +:+ l_symbol l +:+ " "
  +:+ char_string (side_char (l_side l)) +:+ " "
  +:+ to_string (qty (l_order l)) +:+ " "
  +:+ to_string_double (l_price l).

(** The loop over one side: levels from [rbegin()], each queue from its
    front. *)
Definition side_listing (sym : Symbol) (s : Side) (levels : PriceLevels)
    : list Listed :=
  '(price, queue) ← reverse levels; mkListed sym s price <$> queue.

(** The loop over the symbols: the asks of a symbol, then its bids. *)
Definition listing (ob : OrderBook) : list Listed :=
  '(sym, sides) ← ob;
  side_listing sym SELL (asks sides) ++ side_listing sym BUY (bids sides).

Definition _printSortedBook (ob : OrderBook) : list string :=
  match ob with
  | [] => ["Book empty!"]
  | _ => book_line <$> listing ob
  end.

(** ** The dispatcher *)

Fixpoint splitLine_from (line : string) (item : string) : list string :=
  match line with
  | EmptyString => [item]
  | String c rest =>
      if Ascii.eqb c " "
      then item :: match rest with
                   | EmptyString => []
                   | _ => splitLine_from rest ""
                   end
      else splitLine_from rest (item +:+ char_string c)
  end.

(** [_splitLine]: [std::getline] yields an item per delimiter and one for
    a non-empty remainder; an exhausted stream yields none. *)
Definition _splitLine (line : string) : list string :=
  match line with
  | EmptyString => []
  | _ => splitLine_from line ""
  end.

(** [instructions[i]]: indexing past the end of the vector is undefined. *)
Definition index (instructions : list string) (i : nat) : outcome string :=
  match instructions !! i with
  | Some s => Returns s
  | None => Undefined
  end.

(** [s.front()], undefined on an empty string. *)
Definition front (s : string) : outcome ascii :=
  match s with
  | String c _ => Returns c
  | EmptyString => Undefined
  end.

(** [s[0]], which is the terminating null character of an empty string. *)
Definition char0 (s : string) : ascii :=
  match s with
  | String c _ => c
  | EmptyString => Ascii.zero
  end.

(** What a call of [action] leaves behind: the list it returns, the lines
    it wrote to standard output, and the engine. *)
Record Done : Type := mkDone {
  returned : results_t;
  printed : list string;
  state : SimpleCross
}.

(** The statement [Order order = Order(...)] of [action].  C++ leaves
    the order in which the arguments of the constructor are evaluated to
    the compiler; [g++], which the makefile names, evaluates them from the
    last to the first, and so does this definition: the price, the
    quantity, the side, the symbol, the identifier. *)
Definition make_order (instructions : list string) : outcome Order :=
  i5 ← index instructions 5;
  p ← stod i5;
  i4 ← index instructions 4;
  q ← stoi i4;
  i3 ← index instructions 3;
  c ← front i3;
  s ← enum_cast c;
  i2 ← index instructions 2;
  i1 ← index instructions 1;
  o ← stoi i1;
  Order_ctor (uint32 o) i2 s (uint16 q) p.

(** [SimpleCross::action] *)
Definition action (line : string) (sc : SimpleCross) : outcome Done :=
  let instructions := _splitLine line in
  i0 ← index instructions 0;
  act ← enum_cast (char0 i0);
  if Ascii.eqb act "O" then
    order ← make_order instructions;
    '(fills, sc') ← _placeOrder order sc;
    Returns (mkDone [] (_printFills fills) sc')
  else if Ascii.eqb act "X" then
    i1 ← index instructions 1;
    o ← stoi i1;
    '(cancelled, sc') ← _cancelOrder (uint32 o) sc;
    Returns (mkDone [] (_printCancel (uint32 o) cancelled) sc')
  else if Ascii.eqb act "P" then
    Returns (mkDone [] (_printSortedBook (orderBook sc)) sc)
  else
    Returns (mkDone [] [] sc).

(** The loop of [main]: each line goes through [action], whose returned
    list is printed after whatever the call printed itself. *)
Fixpoint run (lines : list string) (sc : SimpleCross) (out : list string)
    : outcome (list string * SimpleCross) :=
  match lines with
  | [] => Returns (out, sc)
  | line :: lines' =>
      d ← action line sc;
      run lines' (state d) (out ++ printed d ++ returned d)
  end.



(** What the line [line] answers when it follows the lines [before] from
    the start of the program: the list [action] returns, and what the call
    prints. *)
Definition answer (before : list string) (line : string)
    : outcome (results_t * list string) :=
  '(_, sc) ← run before initial [];
  d ← action line sc;
  Returns (returned d, printed d).

(** The order that a line places, when it is a well-formed place line. *)
Definition placed_order (line : string) : option Order :=
  let instructions := _splitLine line in
  match index instructions 0 ≫= (λ i0, enum_cast (char0 i0)) with
  | Returns act =>
      if Ascii.eqb act "O" then
        match make_order instructions with
        | Returns order => Some order
        | _ => None
        end
      else None
  | _ => None
  end.

(** The orders placed by a sequence of lines, in the order of the lines. *)
Definition placed (lines : list string) : list Order :=
  omap placed_order lines.

(** Everything printed by the lines [lines], and the book they leave. *)
Definition transcript (lines : list string)
    : outcome (list string * OrderBook) :=
  '(out, sc) ← run lines initial [];
  Returns (out, orderBook sc).

(** The example session of the header comment, up to the duplicate order. *)
Definition session : list string :=
  [ "O 10000 IBM B 10 100.00000";
    "O 10001 IBM B 10 99.00000";
    "O 10002 IBM S 5 101.00000";
    "O 10003 IBM S 5 100.00000";
    "O 10004 IBM S 5 100.00000";
    "X 10002";
    "O 10005 IBM B 10 99.00000";
    "O 10006 IBM B 10 100.00000";
    "O 10007 IBM S 10 101.00000";
    "O 10008 IBM S 10 102.00000" ].

(** ** The properties of the book *)

(** No bid level is priced at or above an ask level of the same symbol. *)
Definition no_cross_sides (sides : Sides) : Prop :=
  ∀ pb pa : Price,
    pb ∈ StdMap.keys (bids sides) → pa ∈ StdMap.keys (asks sides) → pb < pa.

Definition no_cross (ob : OrderBook) : Prop :=
  Forall (λ e, no_cross_sides e.2) ob.

(** No level of the opposite side is priced where [order] could trade
    with it. *)
Definition unmarketable (order : Order) (sides : Sides) : Prop :=
  match side order with
  | BUY => ∀ pa, pa ∈ StdMap.keys (asks sides) → px order < pa
  | SELL => ∀ pb, pb ∈ StdMap.keys (bids sides) → pb < px order
  end.

(** The highest and the lowest price among the levels of a side. *)
Definition max_price (levels : PriceLevels) : option Price :=
  foldr (λ p acc, Some (from_option (Z.max p) p acc)) None (StdMap.keys levels).

Definition min_price (levels : PriceLevels) : option Price :=
  foldr (λ p acc, Some (from_option (Z.min p) p acc)) None (StdMap.keys levels).

(** The listing as the specification words it, to compare with
    [listing]: asks from the highest price, then bids from the highest
    price, and within each level the most recently accepted order first. *)
Definition side_listing_as_specified (sym : Symbol) (s : Side)
    (levels : PriceLevels) : list Listed :=
  '(price, queue) ← reverse levels; mkListed sym s price <$> reverse queue.

Definition listing_as_specified (ob : OrderBook) : list Listed :=
  '(sym, sides) ← ob;
  side_listing_as_specified sym SELL (asks sides)
  ++ side_listing_as_specified sym BUY (bids sides).

(** Lines come in descending price order. *)
Definition price_desc (a b : Listed) : Prop := l_price b ≤ l_price a.

#[global] Instance Side_eq_dec : EqDecision Side.
Proof. solve_decision. Defined.

(** An order as it was placed, whatever quantity it has left. *)
Definition as_placed (o : Order) : Order := set_qty o 0.

(** The buy orders of [history] for one symbol and one price. *)
Definition bids_at (sym : Symbol) (p : Price) (history : list Order)
    : list Order :=
  filter (λ o, symbol o = sym ∧ side o = BUY ∧ px o = p) history.

(** Each level of [after] is a level of [before] that may have lost
    orders, the others keeping their places. *)
Definition levels_shrink (before after : PriceLevels) : Prop :=
  ∀ p q', (p, q') ∈ after →
    ∃ q, (p, q) ∈ before ∧ (as_placed <$> q') `sublist_of` (as_placed <$> q).

(** Every bid queue holds orders of [history] placed for its symbol and
    its price, in the order in which [history] has them. *)
Definition bids_in_order (history : list Order) (sym : Symbol) (sides : Sides)
    : Prop :=
  ∀ p q, (p, q) ∈ bids sides →
    (as_placed <$> q) `sublist_of` (as_placed <$> bids_at sym p history).

Definition arrival_ordered (history : list Order) (ob : OrderBook) : Prop :=
  ∀ sym sides, (sym, sides) ∈ ob → bids_in_order history sym sides.

(** The representation invariant of [std::map]: keys strictly ascending. *)
Definition sorted_map {K V : Type} `{Less K} (m : list (K * V)) : Prop :=
  StronglySorted (λ a b, less a b = true) (StdMap.keys m).

Definition sorted_sides (sides : Sides) : Prop :=
  sorted_map (bids sides) ∧ sorted_map (asks sides).

Definition sorted_book (ob : OrderBook) : Prop :=
  sorted_map ob ∧ Forall (λ e, sorted_sides e.2) ob.

(** ** What holds of the engine after any run *)

(** The fields of an order as the casts of [action] leave them. *)
Definition in_range (o : Order) : Prop := 0 ≤ qty o < 65536.

Definition well_formed (o : Order) : Prop :=
  0 ≤ oid o < 4294967296 ∧ in_range o.

(** The orders of [history] for one symbol, one side and one price. *)
Definition orders_at (sym : Symbol) (s : Side) (p : Price)
    (history : list Order) : list Order :=
  filter (λ o, symbol o = sym ∧ side o = s ∧ px o = p) history.

(** A queue of the book under symbol [sym], side [s] and price [p]: it is
    not empty, it holds orders placed for that symbol, side and price in
    the order [history] has them, and their quantities fit 16 bits. *)
Definition queue_ok (history : list Order) (sym : Symbol) (s : Side)
    (p : Price) (q : OrderQueue) : Prop :=
  q ≠ [] ∧
  (as_placed <$> q) `sublist_of` (as_placed <$> orders_at sym s p history) ∧
  Forall in_range q.

Definition levels_ok (history : list Order) (sym : Symbol) (s : Side)
    (levels : PriceLevels) : Prop :=
  ∀ p q, (p, q) ∈ levels → queue_ok history sym s p q.

Definition sides_ok (history : list Order) (sym : Symbol) (sides : Sides)
    : Prop :=
  ∀ s, levels_ok history sym s (levels_of s sides).

Definition book_ok (history : list Order) (ob : OrderBook) : Prop :=
  ∀ sym sides, (sym, sides) ∈ ob → sides_ok history sym sides.

(** Every entry of the cache sits under its own identifier, is an order of
    [history] and holds the quantity, not zero, that the order had left
    when it came to rest. *)
Definition cache_ok (history : list Order) (cache : OrderCache) : Prop :=
  ∀ k o, cache !! k = Some o →
    oid o = k ∧ qty o ≠ 0 ∧ in_range o ∧
    as_placed o ∈ (as_placed <$> history).

(** The engine after the orders of [history] have been placed. *)
Definition engine_ok (history : list Order) (sc : SimpleCross) : Prop :=
  sorted_book (orderBook sc) ∧
  book_ok history (orderBook sc) ∧
  cache_ok history (orderCache sc) ∧
  (∀ o, o ∈ history → symbol o ∈ StdMap.keys (orderBook sc)) ∧
  (history = [] → sc = initial).

(** The shares of a list of fills. *)
Definition total_filled (fills : list Fill) : Z :=
  foldr (λ f acc, fill_qty f + acc) 0 fills.

(** The open shares of a queue. *)
Definition open_shares (queue : OrderQueue) : Z :=
  foldr (λ o acc, qty o + acc) 0 queue.

(** What identifies a fill, and the resting order it names. *)
Definition fill_key (f : Fill) : OrderId * Symbol * Price :=
  (fill_oid f, fill_symbol f, fill_px f).

Definition order_key (o : Order) : OrderId * Symbol * Price :=
  (oid o, symbol o, px o).

(** The queues of the levels that pass the test [mk], one after the other
    as the loop over the levels visits them. *)
Definition visited (mk : Price → bool) (levels : PriceLevels) : list Order :=
  concat (filter (λ l, mk l.1 = true) levels).*2.

(** The resting orders an incoming order can trade with, in the order in
    which [_fillBid] and [_fillAsk] reach them: asks from the lowest price
    up to the order's, bids from the highest price down to it, each queue
    from its front. *)
Definition in_reach (order : Order) (sides : Sides) : list Order :=
  match side order with
  | BUY => visited (λ askPrice, askPrice <=? px order) (asks sides)
  | SELL => visited (λ bidPrice, px order <=? bidPrice) (reverse (bids sides))
  end.

(** The queue under a symbol, a side and a price; empty when there is no
    such level. *)
Definition queue_at (sym : Symbol) (s : Side) (p : Price) (ob : OrderBook)
    : OrderQueue :=
  StdMap.at_default p [] (levels_of s (StdMap.at_default sym empty_Sides ob)).

(** A token of [_splitLine] is cut at every space. *)
Fixpoint has_space (s : string) : bool :=
  match s with
  | String c s' => Ascii.eqb c " " || has_space s'
  | EmptyString => false
  end.

Fixpoint ends_with_space (s : string) : bool :=
  match s with
  | EmptyString => false
  | String c EmptyString => Ascii.eqb c " "
  | String _ s' => ends_with_space s'
  end.

(** The first two characters of a result line. *)
Definition result_tag (line : string) : string :=
  match line with
  | String c (String d _) => String c (String d EmptyString)
  | _ => line
  end.

(** ** A sample session

    Three bids for one symbol, two of them at the same price, and a sell
    order that takes the first two entirely and a part of the third. *)

Definition sample_lines : list string :=
  [ "O 1 IBM B 10 100.00000";
    "O 2 IBM B 5 100.00000";
    "O 3 IBM B 7 99.00000" ].

Definition sample_bid1 : Order := mkOrder 1 "IBM" BUY 10 10000000.
Definition sample_bid2 : Order := mkOrder 2 "IBM" BUY 5 10000000.
Definition sample_bid3 : Order := mkOrder 3 "IBM" BUY 7 9900000.

Definition sample_cache : OrderCache :=
  <[3 := sample_bid3]> (<[2 := sample_bid2]> (<[1 := sample_bid1]> ∅)).

Definition sample_state : SimpleCross :=
  mkSimpleCross
    [("IBM", mkSides [(9900000, [sample_bid3]);
                      (10000000, [sample_bid1; sample_bid2])] [])]
    sample_cache.

Definition sample_sell : Order := mkOrder 4 "IBM" SELL 20 9900000.

Definition sample_fills : list Fill :=
  [ mkFill 1 "IBM" 10 10000000;
    mkFill 2 "IBM" 5 10000000;
    mkFill 3 "IBM" 5 9900000 ].

Definition sample_state_sold : SimpleCross :=
  mkSimpleCross
    [("IBM", mkSides [(9900000, [set_qty sample_bid3 2])] [])]
    sample_cache.

(** ** Prices that are not numbers

    [std::stod] also accepts the text [nan], and [action] builds the order
    all the same.  A NaN compares false with every value, itself included,
    which the integers that hold the prices above cannot express.  This
    module embeds the engine once more, function by function as above,
    over prices that are a decimal or a NaN; everything that does not
    touch a price is shared with the embedding above, and the two agree
    wherever the one above returns (lemma [run_widen]).

    Under [std::less<double>] a NaN is equivalent to every key: the tree
    search of [find] and of [operator[]] then ends on the first node of
    the map, [insert] finds the key present in any map that is not empty,
    and [erase] removes every node.  The list operations of [StdMap] do
    the same with [double_lt] for the comparison. *)

Module NaNPrice.

Inductive double : Type :=
| Finite (hundred_thousandths : Z)
| NaN (negative : bool).

(** [a < b] and [a <= b] on [double]: false as soon as one side is a NaN. *)
Definition double_lt (a b : double) : bool :=
  match a, b with
  | Finite x, Finite y => x <? y
  | _, _ => false
  end.

Definition double_le (a b : double) : bool :=
  match a, b with
  | Finite x, Finite y => x <=? y
  | _, _ => false
  end.

#[global] Instance double_less : Less double := double_lt.

Abbreviation Price := double (only parsing).

Record Order : Type := mkOrder {
  oid : OrderId;
  symbol : Symbol;
  side : Side;
  qty : Quantity;
  px : Price
}.

Abbreviation OrderQueue := (list Order) (only parsing).
Abbreviation PriceLevels := (list (double * list Order)) (only parsing).

Record Sides : Type := mkSides {
  bids : PriceLevels;
  asks : PriceLevels
}.

Abbreviation OrderBook := (list (string * Sides)) (only parsing).
Abbreviation OrderCache := (gmap Z Order) (only parsing).

Record Fill : Type := mkFill {
  fill_oid : OrderId;
  fill_symbol : Symbol;
  fill_qty : Quantity;
  fill_px : Price
}.

Record SimpleCross : Type := mkSimpleCross {
  orderBook : OrderBook;
  orderCache : OrderCache
}.

Definition empty_Sides : Sides := mkSides [] [].
Definition initial : SimpleCross := mkSimpleCross [] ∅.

Definition set_qty (o : Order) (q : Quantity) : Order :=
  mkOrder (oid o) (symbol o) (side o) q (px o).

(** The text [nan], in any case, after the sign: what [strtod] reads as a
    NaN, whatever follows. *)
Definition nan_literal (s : string) : bool :=
  match s with
  | String a (String b (String c _)) =>
      bool_decide (a ∈ ["n"; "N"]%char) && bool_decide (b ∈ ["a"; "A"]%char)
      && bool_decide (c ∈ ["n"; "N"]%char)
  | _ => false
  end.

(** [std::stod(str)]: the plain decimal notation as above, and [nan]; a
    minus sign before [nan] sets the sign of the NaN. *)
Definition stod (str : string) : outcome Price :=
  let '(neg, s1) := read_sign (skip_space str) in
  let '(ip, n1, s2) := read_digits s1 0 0 in
  let '(fp, n2, s3) :=
    match s2 with
    | String "." s' => read_fraction s' 10000 0 0
    | _ => (0, O, s2)
    end in
  match (n1 + n2)%nat with
  | O =>
      if nan_literal s1 then Returns (NaN neg)
      else if starts_with_any ["i"; "I"; "n"; "N"]%char s1 then Unmodelled
      else Throws (invalid_argument "stod")
  | _ =>
      let v := ip * 100000 + fp in
      if starts_with_any ["e"; "E"; "x"; "X"]%char s3
         || bool_decide (10 < n1)%nat || bool_decide (5 < n2)%nat
         || (neg && (v =? 0))
      then Unmodelled
      else Returns (Finite (if neg : bool then - v else v))
  end.

(** [std::to_string] of a [double]: ["%f"] prints a NaN as [nan], with its
    sign. *)
Definition to_string_double (p : Price) : string :=
  match p with
  | Finite v => to_string_double v
  | NaN negative => if negative then "-nan" else "nan"
  end.

Definition Order_ctor (_oid : OrderId) (_symbol : Symbol) (_side : ascii)
    (_qty : Quantity) (_px : Price) : outcome Order :=
  if Ascii.eqb _side "B" then Returns (mkOrder _oid _symbol BUY _qty _px)
  else if Ascii.eqb _side "S" then Returns (mkOrder _oid _symbol SELL _qty _px)
  else Throws (invalid_argument "Invalid Order Side").

Definition levels_of (s : Side) (sides : Sides) : PriceLevels :=
  match s with BUY => bids sides | SELL => asks sides end.

Definition with_levels (s : Side) (lv : PriceLevels) (sides : Sides) : Sides :=
  match s with
  | BUY => mkSides lv (asks sides)
  | SELL => mkSides (bids sides) lv
  end.

Definition _validateOrderId (orderId : OrderId) (cache : OrderCache)
    : outcome unit :=
  match cache !! orderId with
  | Some _ => Throws (invalid_argument "Invalid Order ID")
  | None => Returns ()
  end.

Definition cache_insert (o : Order) (cache : OrderCache) : OrderCache :=
  match cache !! oid o with
  | Some _ => cache
  | None => <[oid o := o]> cache
  end.

Definition _placeOrderNewSymbol (order : Order) (ob : OrderBook) : OrderBook :=
  let orderQueue := [order] in
  let bidPxLevels :=
    match side order with
    | BUY => StdMap.insert (px order) orderQueue []
    | SELL => []
    end in
  let askPxLevels :=
    match side order with
    | BUY => []
    | SELL => StdMap.insert (px order) orderQueue []
    end in
  StdMap.insert (symbol order) (mkSides bidPxLevels askPxLevels) ob.

Fixpoint cross_queue (order : Order) (queue : OrderQueue)
    (fills : list Fill) (ordersToPop : nat)
    : Order * OrderQueue * list Fill * nat :=
  match queue with
  | [] => (order, [], fills, ordersToPop)
  | restingOrder :: queue' =>
      let sharesExecuted := Z.min (qty restingOrder) (qty order) in
      let order := set_qty order (uint16 (qty order - sharesExecuted)) in
      let restingOrder :=
        set_qty restingOrder (uint16 (qty restingOrder - sharesExecuted)) in
      let fills :=
        if 0 <? sharesExecuted
        then fills ++ [mkFill (oid restingOrder) (symbol restingOrder)
                              sharesExecuted (px restingOrder)]
        else fills in
      let ordersToPop :=
        if qty restingOrder =? 0 then S ordersToPop else ordersToPop in
      if qty order =? 0 then (order, restingOrder :: queue', fills, ordersToPop)
      else
        let '(o, q, f, n) := cross_queue order queue' fills ordersToPop in
        (o, restingOrder :: q, f, n)
  end.

Definition pop_back (queue : OrderQueue) : OrderQueue :=
  take (length queue - 1) queue.

Definition pop_back_n (n : nat) (queue : OrderQueue) : OrderQueue :=
  Nat.iter n pop_back queue.

Fixpoint cross_levels (marketable : Price → bool) (levels : PriceLevels)
    (order : Order) (fills : list Fill) (pxLevelsToDrop : list Price)
    : Order * PriceLevels * list Fill * list Price :=
  match levels with
  | [] => (order, [], fills, pxLevelsToDrop)
  | (price, queue) :: levels' =>
      let '(order, queue, fills) :=
        if marketable price
        then
          let '(o, q, f, ordersToPop) := cross_queue order queue fills 0 in
          (o, pop_back_n ordersToPop q, f)
        else (order, queue, fills) in
      let pxLevelsToDrop :=
        match queue with
        | [] => pxLevelsToDrop ++ [price]
        | _ => pxLevelsToDrop
        end in
      if qty order =? 0
      then (order, (price, queue) :: levels', fills, pxLevelsToDrop)
      else
        let '(o, ls, f, d) :=
          cross_levels marketable levels' order fills pxLevelsToDrop in
        (o, (price, queue) :: ls, f, d)
  end.

Definition erase_levels (drop : list Price) (levels : PriceLevels)
    : PriceLevels :=
  foldl (fun m p => StdMap.erase p m) levels drop.

(** [if (order.px >= askPrice)] *)
Definition _fillBid (order : Order) (ob : OrderBook)
    : Order * list Fill * OrderBook :=
  let sides := StdMap.at_default (symbol order) empty_Sides ob in
  let askPxLevels := asks sides in
  let '(order', _, fills, pxLevelsToDrop) :=
    cross_levels (fun askPrice => double_le askPrice (px order))
                 askPxLevels order [] [] in
  let askPxLevels := erase_levels pxLevelsToDrop askPxLevels in
  (order', fills,
   StdMap.assign (symbol order) (mkSides (bids sides) askPxLevels) ob).

(** [if (order.px <= bidPrice)] *)
Definition _fillAsk (order : Order) (ob : OrderBook)
    : Order * list Fill * OrderBook :=
  let sides := StdMap.at_default (symbol order) empty_Sides ob in
  let bidPxLevels := bids sides in
  let '(order', levels, fills, pxLevelsToDrop) :=
    cross_levels (fun bidPrice => double_le (px order) bidPrice)
                 (reverse bidPxLevels) order [] [] in
  let bidPxLevels := erase_levels pxLevelsToDrop (reverse levels) in
  (order', fills,
   StdMap.assign (symbol order) (mkSides bidPxLevels (asks sides)) ob).

Definition _fillOrder (order : Order) (ob : OrderBook)
    : Order * list Fill * OrderBook :=
  match side order with
  | BUY => _fillBid order ob
  | SELL => _fillAsk order ob
  end.

Definition _placeOrderExistingSymbol (order : Order) (ob : OrderBook)
    : Order * list Fill * OrderBook :=
  let '(order, fills, ob) := _fillOrder order ob in
  if qty order =? 0 then (order, fills, ob)
  else
    let sides := StdMap.at_default (symbol order) empty_Sides ob in
    let pxLevels := levels_of (side order) sides in
    let pxLevels :=
      match StdMap.find (px order) pxLevels with
      | None => StdMap.insert (px order) [order] pxLevels
      | Some orderQueue =>
          StdMap.assign (px order) (orderQueue ++ [order]) pxLevels
      end in
    (order, fills,
     StdMap.assign (symbol order) (with_levels (side order) pxLevels sides) ob).

Definition _placeOrder (order : Order) (sc : SimpleCross)
    : outcome (list Fill * SimpleCross) :=
  _ ← _validateOrderId (oid order) (orderCache sc);
  let '(order, fills, ob) :=
    match StdMap.find (symbol order) (orderBook sc) with
    | None => (order, [], _placeOrderNewSymbol order (orderBook sc))
    | Some _ => _placeOrderExistingSymbol order (orderBook sc)
    end in
  let cache :=
    if qty order =? 0 then orderCache sc
    else cache_insert order (orderCache sc) in
  Returns (fills, mkSimpleCross ob cache).

Fixpoint erase_oid (o : OrderId) (queue : OrderQueue) : option OrderQueue :=
  match queue with
  | [] => None
  | order :: queue' =>
      if oid order =? o then Some queue'
      else cons order <$> erase_oid o queue'
  end.

Definition _cancelOrder (o : OrderId) (sc : SimpleCross)
    : outcome (bool * SimpleCross) :=
  match orderCache sc !! o with
  | None => Returns (false, sc)
  | Some order =>
      let sides := StdMap.at_default (symbol order) empty_Sides (orderBook sc) in
      let pxLevels := levels_of (side order) sides in
      let orderQueue := StdMap.at_default (px order) [] pxLevels in
      match erase_oid o orderQueue with
      | None => Undefined
      | Some orderQueue =>
          let pxLevels :=
            match orderQueue with
            | [] => StdMap.erase (px order) pxLevels
            | _ => StdMap.assign (px order) orderQueue pxLevels
            end in
          Returns (true,
            mkSimpleCross
              (StdMap.assign (symbol order)
                 (with_levels (side order) pxLevels sides) (orderBook sc))
              (orderCache sc))
      end
  end.

Definition _printFills (fills : list Fill) : list string :=
  (fun fill =>
     "F " +:+ to_string (fill_oid fill) +:+ " "
     +:+ fill_symbol fill +:+ " "
     +:+ to_string (fill_qty fill) +:+ " "
     +:+ to_string_double (fill_px fill)) <$> fills.

Record Listed : Type := mkListed {
  l_symbol : Symbol;
  l_side : Side;
  l_price : Price;
  l_order : Order
}.

Definition book_line (l : Listed) : string :=
  "P " +:+ to_string (oid (l_order l)) +:+ " "
  +:+ l_symbol l +:+ " "
  +:+ char_string (side_char (l_side l)) +:+ " "
  +:+ to_string (qty (l_order l)) +:+ " "
  +:+ to_string_double (l_price l).

Definition side_listing (sym : Symbol) (s : Side) (levels : PriceLevels)
    : list Listed :=
  '(price, queue) ← reverse levels; mkListed sym s price <$> queue.

Definition listing (ob : OrderBook) : list Listed :=
  '(sym, sides) ← ob;
  side_listing sym SELL (asks sides) ++ side_listing sym BUY (bids sides).

Definition _printSortedBook (ob : OrderBook) : list string :=
  match ob with
  | [] => ["Book empty!"]
  | _ => book_line <$> listing ob
  end.

Record Done : Type := mkDone {
  returned : results_t;
  printed : list string;
  state : SimpleCross
}.

Definition make_order (instructions : list string) : outcome Order :=
  i5 ← index instructions 5;
  p ← stod i5;
  i4 ← index instructions 4;
  q ← stoi i4;
  i3 ← index instructions 3;
  c ← front i3;
  s ← enum_cast c;
  i2 ← index instructions 2;
  i1 ← index instructions 1;
  o ← stoi i1;
  Order_ctor (uint32 o) i2 s (uint16 q) p.

Definition action (line : string) (sc : SimpleCross) : outcome Done :=
  let instructions := _splitLine line in
  i0 ← index instructions 0;
  act ← enum_cast (char0 i0);
  if Ascii.eqb act "O" then
    order ← make_order instructions;
    '(fills, sc') ← _placeOrder order sc;
    Returns (mkDone [] (_printFills fills) sc')
  else if Ascii.eqb act "X" then
    i1 ← index instructions 1;
    o ← stoi i1;
    '(cancelled, sc') ← _cancelOrder (uint32 o) sc;
    Returns (mkDone [] (_printCancel (uint32 o) cancelled) sc')
  else if Ascii.eqb act "P" then
    Returns (mkDone [] (_printSortedBook (orderBook sc)) sc)
  else
    Returns (mkDone [] [] sc).

Fixpoint run (lines : list string) (sc : SimpleCross) (out : list string)
    : outcome (list string * SimpleCross) :=
  match lines with
  | [] => Returns (out, sc)
  | line :: lines' =>
      d ← action line sc;
      run lines' (state d) (out ++ printed d ++ returned d)
  end.

End NaNPrice.

(** The decimal prices among the doubles: an order, a book and an engine
    of the embedding above, seen in [NaNPrice]. *)
Definition widen_order (o : Order) : NaNPrice.Order :=
  NaNPrice.mkOrder (oid o) (symbol o) (side o) (qty o) (NaNPrice.Finite (px o)).

Definition widen_fill (f : Fill) : NaNPrice.Fill :=
  NaNPrice.mkFill (fill_oid f) (fill_symbol f) (fill_qty f)
                  (NaNPrice.Finite (fill_px f)).

Definition widen_levels (levels : PriceLevels)
    : list (NaNPrice.double * list NaNPrice.Order) :=
  prod_map NaNPrice.Finite (fmap (M := list) widen_order) <$> levels.

Definition widen_sides (sides : Sides) : NaNPrice.Sides :=
  NaNPrice.mkSides (widen_levels (bids sides)) (widen_levels (asks sides)).

Definition widen_book (ob : OrderBook) : list (string * NaNPrice.Sides) :=
  prod_map id widen_sides <$> ob.

Definition widen (sc : SimpleCross) : NaNPrice.SimpleCross :=
  NaNPrice.mkSimpleCross (widen_book (orderBook sc))
                         (widen_order <$> orderCache sc).

(** * Proofs *)

(** ** Laws of [std::less] on the two key types *)

#[global] Instance Z_strict : StrictLess Z.
Proof.
  split; unfold less, Z_less; intros; lia.
Qed.

Lemma string_ltb_lt (a b : string) :
  String.ltb a b = true ↔ OrderedTypeEx.String_as_OT.lt a b.
Proof.
  rewrite <- OrderedTypeEx.String_as_OT.cmp_lt.
  unfold String.ltb, OrderedTypeEx.String_as_OT.cmp.
  destruct (String.compare a b); split; congruence.
Qed.

#[global] Instance string_strict : StrictLess string.
Proof.
  split; unfold less, string_less.
  - intros a. destruct (String.ltb a a) eqn:E; [|done].
    apply string_ltb_lt in E.
    by apply OrderedTypeEx.String_as_OT.lt_not_eq in E.
  - intros a b c ?%string_ltb_lt ?%string_ltb_lt. apply string_ltb_lt.
    by eapply OrderedTypeEx.String_as_OT.lt_trans.
  - intros a b. unfold String.ltb. rewrite (String.compare_antisym b a).
    destruct (String.compare a b) eqn:E; simpl; try done.
    intros _ _. by apply String.compare_eq_iff.
Qed.

(** ** Facts about the map operations *)

Section map_facts.
Context {K V : Type} `{StrictLess K}.
Implicit Types (k : K) (v : V) (m : list (K * V)).

Lemma same_key_refl k : StdMap.same_key k k = true.
Proof. unfold StdMap.same_key. by rewrite less_irrefl. Qed.

Lemma same_key_eq k k' : StdMap.same_key k k' = true → k = k'.
Proof.
  unfold StdMap.same_key. intros [? ?]%andb_prop.
  apply less_total; by apply negb_true_iff.
Qed.

Lemma find_elem_of k v m : StdMap.find k m = Some v → (k, v) ∈ m.
Proof.
  induction m as [|[k' v'] m IH]; simpl; [done|].
  destruct (StdMap.same_key k k') eqn:E.
  - intros [= ->]. apply same_key_eq in E as ->. left.
  - intros ?. right. auto.
Qed.

Lemma find_assign k v m : StdMap.find k (StdMap.assign k v m) = Some v.
Proof.
  induction m as [|[k' v'] m IH]; simpl.
  - by rewrite same_key_refl.
  - destruct (less k k') eqn:E1; simpl.
    + by rewrite same_key_refl.
    + destruct (less k' k) eqn:E2; simpl; unfold StdMap.same_key;
        rewrite E1, E2; simpl; [apply IH | done].
Qed.

Lemma elem_of_assign k v m e :
  e ∈ StdMap.assign k v m → e = (k, v) ∨ e ∈ m.
Proof.
  induction m as [|[k' v'] m IH]; simpl.
  - intros ?%list_elem_of_singleton. by left.
  - destruct (less k k') eqn:E1.
    + intros [->|?]%elem_of_cons; [by left | by right].
    + destruct (less k' k) eqn:E2.
      * intros [->|Hin]%elem_of_cons; [right; left|].
        destruct (IH Hin) as [?|?]; [by left | right; by right].
      * assert (k = k') as <- by by apply less_total.
        intros [->|?]%elem_of_cons; [by left | right; by right].
Qed.

Lemma elem_of_insert k v m e :
  e ∈ StdMap.insert k v m → e = (k, v) ∨ e ∈ m.
Proof.
  induction m as [|[k' v'] m IH]; simpl.
  - intros ?%list_elem_of_singleton. by left.
  - destruct (less k k') eqn:E1.
    + intros [->|?]%elem_of_cons; [by left | by right].
    + destruct (less k' k) eqn:E2; [|by right].
      intros [->|Hin]%elem_of_cons; [right; left|].
      destruct (IH Hin) as [?|?]; [by left | right; by right].
Qed.

Lemma elem_of_erase k m e : e ∈ StdMap.erase k m → e ∈ m ∧ e.1 ≠ k.
Proof.
  induction m as [|[k' v'] m IH]; simpl; [by intros ?%elem_of_nil|].
  destruct (StdMap.same_key k k') eqn:E.
  - intros [? ?]%IH. split; [by right | done].
  - intros [->|[? ?]%IH]%elem_of_cons.
    + split; [left|]. simpl. intros ->. by rewrite same_key_refl in E.
    + split; [by right | done].
Qed.
End map_facts.

Lemma elem_of_erase_levels (drop : list Price) (levels : PriceLevels) e :
  e ∈ erase_levels drop levels → e ∈ levels ∧ e.1 ∉ drop.
Proof.
  unfold erase_levels. revert levels.
  induction drop as [|p drop IH]; simpl; intros levels He.
  - split; [done | apply not_elem_of_nil].
  - apply IH in He as [[? ?]%elem_of_erase ?].
    split; [done|]. intros [?|?]%elem_of_cons; congruence.
Qed.

(** ** The crossing loops *)

Lemma pop_back_n_take (n : nat) (queue : OrderQueue) :
  pop_back_n n queue = take (length queue - n) queue.
Proof.
  unfold pop_back_n. induction n as [|n IH]; simpl.
  - by rewrite Nat.sub_0_r, firstn_all.
  - rewrite IH. unfold pop_back. rewrite length_take, take_take. f_equal. lia.
Qed.

Lemma pop_back_n_all (queue : OrderQueue) :
  pop_back_n (length queue) queue = [].
Proof. by rewrite pop_back_n_take, Nat.sub_diag. Qed.

(** The loops change nothing of the incoming order but its quantity. *)
Lemma cross_queue_order order queue fills n o q f n' :
  cross_queue order queue fills n = (o, q, f, n') →
  o = set_qty order (qty o).
Proof.
  revert order fills n o q f n'.
  induction queue as [|r queue IH]; simpl; intros order fills n o q f n'.
  - intros [= <- _ _ _]. by destruct order.
  - destruct (uint16 (qty order - _) =? 0) eqn:E.
    + intros [= <- _ _ _]. done.
    + destruct (cross_queue _ queue _ _) as [[[o1 q1] f1] n1] eqn:Hrec.
      intros [= <- _ _ _]. by apply IH in Hrec.
Qed.

(** An incoming order that leaves a queue with shares left has taken every
    resting order of the queue down to zero. *)
Lemma cross_queue_exhausts order queue fills n o q f n' :
  cross_queue order queue fills n = (o, q, f, n') →
  qty o ≠ 0 →
  n' = (n + length queue)%nat ∧ length q = length queue.
Proof.
  revert order fills n o q f n'.
  induction queue as [|r queue IH]; simpl; intros order fills n o q f n'.
  - intros [= <- <- _ <-] _. split; [lia | done].
  - destruct (uint16 (qty order - _) =? 0) eqn:E.
    + intros [= <- _ _ _] Hne. simpl in *. lia.
    + destruct (cross_queue _ queue _ _) as [[[o1 q1] f1] n1] eqn:Hrec.
      intros [= <- <- _ <-] Hne.
      apply IH in Hrec as [-> Hlen]; [|done].
      simpl in E. apply Z.eqb_neq in E.
      assert (Z.min (qty r) (qty order) = qty r) as Hmin.
      { destruct (Z.min_spec (qty r) (qty order)) as [[_ ?]|[_ Hm]]; [done|].
        rewrite Hm, Z.sub_diag in E. done. }
      simpl. rewrite Hmin, Z.sub_diag, Hlen. simpl. split; [lia | done].
Qed.

Lemma cross_levels_order mk levels order fills d o ls f d' :
  cross_levels mk levels order fills d = (o, ls, f, d') →
  o = set_qty order (qty o).
Proof.
  revert order fills d o ls f d'.
  induction levels as [|[p q] levels IH]; simpl; intros order fills d o ls f d'.
  - intros [= <- _ _ _]. by destruct order.
  - destruct (mk p).
    + destruct (cross_queue order q fills 0) as [[[o1 q1] f1] n1] eqn:Hq.
      apply cross_queue_order in Hq.
      destruct (qty o1 =? 0).
      * intros [= <- _ _ _]. done.
      * destruct (cross_levels mk levels o1 _ _) as [[[o2 l2] f2] d2] eqn:Hrec.
        intros [= <- _ _ _]. apply IH in Hrec. rewrite Hrec, Hq. done.
    + destruct (qty order =? 0).
      * intros [= <- _ _ _]. by destruct order.
      * destruct (cross_levels mk levels order _ _) as [[[o2 l2] f2] d2] eqn:Hrec.
        intros [= <- _ _ _]. by apply IH in Hrec.
Qed.

(** The levels come back under the same prices, in the same order. *)
Lemma cross_levels_keys mk levels order fills d o ls f d' :
  cross_levels mk levels order fills d = (o, ls, f, d') →
  StdMap.keys ls = StdMap.keys levels.
Proof.
  revert order fills d o ls f d'.
  induction levels as [|[p q] levels IH]; simpl; intros order fills d o ls f d'.
  - by intros [= _ <- _ _].
  - destruct (if mk p then _ else _) as [[o1 q1] f1].
    destruct (qty o1 =? 0).
    + by intros [= _ <- _ _].
    + destruct (cross_levels mk levels o1 _ _) as [[[o2 l2] f2] d2] eqn:Hrec.
      intros [= _ <- _ _]. unfold StdMap.keys in *. simpl. f_equal.
      by eapply IH.
Qed.

Lemma cross_levels_drop_mono mk levels order fills d o ls f d' :
  cross_levels mk levels order fills d = (o, ls, f, d') →
  ∀ p, p ∈ d → p ∈ d'.
Proof.
  revert order fills d o ls f d'.
  induction levels as [|[p q] levels IH]; simpl; intros order fills d o ls f d'.
  - by intros [= _ _ _ <-].
  - destruct (if mk p then _ else _) as [[o1 q1] f1].
    destruct (qty o1 =? 0).
    + intros [= _ _ _ <-] p' ?. destruct q1; [apply elem_of_app; by left | done].
    + destruct (cross_levels mk levels o1 _ _) as [[[o2 l2] f2] d2] eqn:Hrec.
      intros [= _ _ _ <-] p' ?. eapply IH; [done|].
      destruct q1; [apply elem_of_app; by left | done].
Qed.

(** An incoming order that leaves the loop with shares left has emptied
    every marketable level, and each of them is noted for removal. *)
Lemma cross_levels_exhausts mk levels order fills d o ls f d' :
  cross_levels mk levels order fills d = (o, ls, f, d') →
  qty o ≠ 0 →
  ∀ p, p ∈ StdMap.keys levels → mk p = true → p ∈ d'.
Proof.
  revert order fills d o ls f d'.
  induction levels as [|[p q] levels IH]; simpl; intros order fills d o ls f d'.
  - intros _ _ p []%elem_of_nil.
  - destruct (mk p) eqn:Hmk.
    + destruct (cross_queue order q fills 0) as [[[o1 q1] f1] n1] eqn:Hq.
      destruct (qty o1 =? 0) eqn:E.
      * intros [= <- _ _ _] Hne. apply Z.eqb_eq in E. done.
      * destruct (cross_levels mk levels o1 _ _) as [[[o2 l2] f2] d2] eqn:Hrec.
        intros [= <- _ _ <-] Hne p' Hin Hp'.
        apply Z.eqb_neq in E.
        apply cross_queue_exhausts in Hq as [-> Hlen]; [|done].
        simpl in *. rewrite <- Hlen, pop_back_n_all in Hrec.
        unfold StdMap.keys in Hin. simpl in Hin.
        apply elem_of_cons in Hin as [->|Hin].
        -- eapply cross_levels_drop_mono; [done|].
           apply elem_of_app. right. left.
        -- eapply IH; done.
    + destruct (qty order =? 0) eqn:E.
      * intros [= <- _ _ _] Hne. apply Z.eqb_eq in E. done.
      * destruct (cross_levels mk levels order _ _) as [[[o2 l2] f2] d2] eqn:Hrec.
        intros [= <- _ _ <-] Hne p' Hin Hp'.
        unfold StdMap.keys in Hin. simpl in Hin.
        apply elem_of_cons in Hin as [->|Hin]; [congruence|].
        eapply IH; done.
Qed.

(** ** The book never holds a crossable pair *)

Section values.
Context {K V : Type} `{StrictLess K} (Q : V → Prop).

Lemma Forall_assign k v (m : list (K * V)) :
  Forall (λ e, Q e.2) m → Q v → Forall (λ e, Q e.2) (StdMap.assign k v m).
Proof.
  rewrite !Forall_forall. intros Hm Hv e [->|?]%elem_of_assign; auto.
Qed.

Lemma Forall_insert k v (m : list (K * V)) :
  Forall (λ e, Q e.2) m → Q v → Forall (λ e, Q e.2) (StdMap.insert k v m).
Proof.
  rewrite !Forall_forall. intros Hm Hv e [->|?]%elem_of_insert; auto.
Qed.

Lemma at_default_values k d (m : list (K * V)) :
  Forall (λ e, Q e.2) m → Q d → Q (StdMap.at_default k d m).
Proof.
  rewrite Forall_forall. intros Hm Hd. unfold StdMap.at_default.
  destruct (StdMap.find k m) as [v|] eqn:E; simpl; [|done].
  apply find_elem_of in E. by apply (Hm (k, v)).
Qed.
End values.

Lemma no_cross_empty_Sides : no_cross_sides empty_Sides.
Proof. intros pb pa []%elem_of_nil. Qed.

Lemma keys_erase_levels (drop : list Price) (levels : PriceLevels) p :
  p ∈ StdMap.keys (erase_levels drop levels) →
  p ∈ StdMap.keys levels ∧ p ∉ drop.
Proof.
  unfold StdMap.keys. intros ([p' q] & -> & [? ?]%elem_of_erase_levels)%list_elem_of_fmap.
  split; [|done]. apply list_elem_of_fmap. by exists (p', q).
Qed.

Lemma keys_assign_levels p q (levels : PriceLevels) p' :
  p' ∈ StdMap.keys (StdMap.assign p q levels) → p' = p ∨ p' ∈ StdMap.keys levels.
Proof.
  unfold StdMap.keys. intros (e & -> & [->|?]%elem_of_assign)%list_elem_of_fmap.
  - by left.
  - right. apply list_elem_of_fmap. by exists e.
Qed.

Lemma keys_insert_levels p q (levels : PriceLevels) p' :
  p' ∈ StdMap.keys (StdMap.insert p q levels) → p' = p ∨ p' ∈ StdMap.keys levels.
Proof.
  unfold StdMap.keys. intros (e & -> & [->|?]%elem_of_insert)%list_elem_of_fmap.
  - by left.
  - right. apply list_elem_of_fmap. by exists e.
Qed.

Lemma keys_erase_one p (levels : PriceLevels) p' :
  p' ∈ StdMap.keys (StdMap.erase p levels) → p' ∈ StdMap.keys levels.
Proof.
  unfold StdMap.keys. intros (e & -> & [? _]%elem_of_erase)%list_elem_of_fmap.
  apply list_elem_of_fmap. by exists e.
Qed.

Lemma keys_reverse (levels : PriceLevels) p :
  p ∈ StdMap.keys (reverse levels) ↔ p ∈ StdMap.keys levels.
Proof. unfold StdMap.keys. rewrite fmap_reverse. apply elem_of_reverse. Qed.

(** What [_fillOrder] leaves: the entry of the order's symbol, rewritten,
    still free of crossable pairs; and when the incoming order has shares
    left, no level of the opposite side that it could trade with. *)
Lemma fillOrder_spec order ob o f ob' :
  _fillOrder order ob = (o, f, ob') →
  no_cross ob →
  o = set_qty order (qty o) ∧
  ∃ sides',
    ob' = StdMap.assign (symbol order) sides' ob ∧
    no_cross_sides sides' ∧
    (qty o ≠ 0 → unmarketable order sides').
Proof.
  intros Hfill Hob.
  pose proof (at_default_values no_cross_sides (symbol order) empty_Sides ob
                Hob no_cross_empty_Sides) as Hsides.
  unfold _fillOrder, unmarketable in *. destruct (side order).
  - unfold _fillBid in Hfill.
    destruct (cross_levels _ _ order [] []) as [[[o1 ls] f1] d] eqn:Hloop.
    injection Hfill as <- <- <-.
    split; [by eapply cross_levels_order|].
    eexists. split; [done|]. split.
    + intros pb pa Hb [Ha _]%keys_erase_levels. by apply Hsides.
    + intros Hne pa [Ha Hd]%keys_erase_levels. simpl in *.
      destruct (decide (px order < pa)) as [|Hge]; [done|]. exfalso. apply Hd.
      eapply cross_levels_exhausts; [done..|]. apply Z.leb_le. lia.
  - unfold _fillAsk in Hfill.
    destruct (cross_levels _ _ order [] []) as [[[o1 ls] f1] d] eqn:Hloop.
    injection Hfill as <- <- <-.
    split; [by eapply cross_levels_order|].
    pose proof (cross_levels_keys _ _ _ _ _ _ _ _ _ Hloop) as Hkeys.
    set (sides := StdMap.at_default (symbol order) empty_Sides ob) in *.
    assert (∀ pb, pb ∈ StdMap.keys (erase_levels d (reverse ls)) →
                  pb ∈ StdMap.keys (bids sides) ∧ pb ∉ d) as Hin.
    { intros pb [Hb Hd]%keys_erase_levels. split; [|done].
      rewrite keys_reverse, Hkeys, keys_reverse in Hb. done. }
    eexists. split; [done|]. split.
    + intros pb pa [Hb _]%Hin Ha. by apply Hsides.
    + intros Hne pb [Hb Hd]%Hin. simpl in *.
      destruct (decide (pb < px order)) as [|Hge]; [done|]. exfalso. apply Hd.
      eapply cross_levels_exhausts; [done..| |].
      * by apply keys_reverse.
      * apply Z.leb_le. lia.
Qed.

Lemma fillOrder_order order ob o f ob' :
  _fillOrder order ob = (o, f, ob') → o = set_qty order (qty o).
Proof.
  unfold _fillOrder, _fillBid, _fillAsk. intros Hfill.
  destruct (side order);
    destruct (cross_levels _ _ order [] []) as [[[o1 ls] f1] d] eqn:Hloop;
    injection Hfill as <- <- <-; by eapply cross_levels_order.
Qed.

Lemma placeOrderExistingSymbol_no_cross order ob o f ob' :
  _placeOrderExistingSymbol order ob = (o, f, ob') →
  no_cross ob → no_cross ob'.
Proof.
  unfold _placeOrderExistingSymbol. intros Hplace Hob.
  destruct (_fillOrder order ob) as [[o1 f1] ob1] eqn:Hfill.
  apply fillOrder_spec in Hfill as (Ho1 & sides' & -> & Hsides' & Hun); [|done].
  assert (no_cross (StdMap.assign (symbol order) sides' ob)) as Hob1
    by by apply Forall_assign.
  destruct (qty o1 =? 0) eqn:E.
  { by injection Hplace as <- <- <-. }
  apply Z.eqb_neq in E. specialize (Hun E).
  injection Hplace as <- <- <-.
  assert (symbol o1 = symbol order ∧ side o1 = side order ∧ px o1 = px order)
    as (Hsym & Hside & Hpx) by (by rewrite Ho1).
  rewrite Hsym, Hside, Hpx.
  unfold StdMap.at_default. rewrite find_assign. simpl.
  apply Forall_assign; [done|].
  set (lv := match StdMap.find _ _ with Some _ => _ | None => _ end).
  assert (∀ p, p ∈ StdMap.keys lv →
               p = px order ∨ p ∈ StdMap.keys (levels_of (side order) sides'))
    as Hlv.
  { intros p. subst lv. destruct (StdMap.find _ _).
    - apply keys_assign_levels.
    - apply keys_insert_levels. }
  clearbody lv. unfold unmarketable in Hun.
  destruct (side order); simpl in *; intros pb pa Hb Ha.
  - apply Hlv in Hb as [->|Hb]; [by apply Hun | by apply Hsides'].
  - apply Hlv in Ha as [->|Ha]; [by apply Hun | by apply Hsides'].
Qed.

Lemma placeOrderNewSymbol_no_cross order ob :
  no_cross ob → no_cross (_placeOrderNewSymbol order ob).
Proof.
  intros Hob. unfold _placeOrderNewSymbol. apply Forall_insert; [done|].
  destruct (side order); intros pb pa Hb Ha; simpl in *;
    [by apply elem_of_nil in Ha | by apply elem_of_nil in Hb].
Qed.

Lemma placeOrder_no_cross order sc f sc' :
  _placeOrder order sc = Returns (f, sc') →
  no_cross (orderBook sc) → no_cross (orderBook sc').
Proof.
  unfold _placeOrder. intros Hplace Hob.
  destruct (_validateOrderId _ _); simpl in Hplace; try done.
  destruct (StdMap.find (symbol order) (orderBook sc)).
  - destruct (_placeOrderExistingSymbol order (orderBook sc))
      as [[o1 f1] ob1] eqn:E.
    injection Hplace as <- <-. simpl.
    by eapply placeOrderExistingSymbol_no_cross.
  - injection Hplace as <- <-. simpl. by apply placeOrderNewSymbol_no_cross.
Qed.

Lemma cancelOrder_no_cross o sc b sc' :
  _cancelOrder o sc = Returns (b, sc') →
  no_cross (orderBook sc) → no_cross (orderBook sc').
Proof.
  unfold _cancelOrder. intros Hcancel Hob.
  destruct (orderCache sc !! o) as [order|]; [|by injection Hcancel as <- <-].
  pose proof (at_default_values no_cross_sides (symbol order) empty_Sides _
                Hob no_cross_empty_Sides) as Hsides.
  set (sides := StdMap.at_default (symbol order) _ _) in *.
  destruct (erase_oid o _) as [q|] eqn:Hq; [|done].
  injection Hcancel as <- <-. simpl.
  apply Forall_assign; [done|].
  set (lv := match q with [] => _ | _ => _ end).
  assert (∀ p, p ∈ StdMap.keys lv →
               p ∈ StdMap.keys (levels_of (side order) sides)) as Hlv.
  { intros p. subst lv. destruct q.
    - apply keys_erase_one.
    - intros [->|?]%keys_assign_levels; [|done].
      unfold StdMap.at_default in Hq.
      destruct (StdMap.find _ _) as [q0|] eqn:Hfind; [|done].
      apply find_elem_of in Hfind.
      apply list_elem_of_fmap. by exists (px order, q0). }
  clearbody lv.
  destruct (side order); simpl in *; intros pb pa Hb Ha; apply Hsides; auto.
Qed.

Lemma bind_Returns {A B} (m : outcome A) (f : A → outcome B) b :
  m ≫= f = Returns b → ∃ a, m = Returns a ∧ f a = Returns b.
Proof. destruct m as [a| | |]; simpl; [by exists a | done..]. Qed.

(** Reads a chain of binds that returned, from its first call to its last. *)
Ltac bind_inv H :=
  repeat
    (let a := fresh "a" in
     let Ha := fresh "H" a in
     apply bind_Returns in H as (a & Ha & H)).

(** What a call of [action] that returns has done: placed an order,
    cancelled one, or left the engine alone; and it returns no line. *)
Lemma action_inv line sc d :
  action line sc = Returns d →
  returned d = [] ∧
  ((∃ order fills,
      placed_order line = Some order ∧
      _placeOrder order sc = Returns (fills, state d) ∧
      printed d = _printFills fills) ∨
   (placed_order line = None ∧
    ((∃ o cancelled,
        _cancelOrder o sc = Returns (cancelled, state d) ∧
        printed d = _printCancel o cancelled) ∨
     state d = sc))).
Proof.
  unfold action, placed_order. intros Hact.
  apply bind_Returns in Hact as (i0 & -> & Hact). simpl.
  apply bind_Returns in Hact as (act & -> & Hact).
  destruct (Ascii.eqb act "O").
  { apply bind_Returns in Hact as (order & -> & Hact).
    apply bind_Returns in Hact as ([fills sc'] & Hplace & Hact).
    injection Hact as <-. split; [done|]. left. by exists order, fills. }
  destruct (Ascii.eqb act "X").
  { bind_inv Hact.
    match goal with
    | H : _cancelOrder ?o sc = Returns ?r |- _ =>
        destruct r as [cancelled sc']; injection Hact as <-;
        split; [done|]; right; split; [done|]; left; by exists o, cancelled
    end. }
  destruct (Ascii.eqb act "P"); injection Hact as <-; split; auto.
Qed.

Lemma action_no_cross line sc d :
  action line sc = Returns d →
  no_cross (orderBook sc) → no_cross (orderBook (state d)).
Proof.
  intros (_ & [(order & fills & _ & Hplace & _)
              |(_ & [(o & c & Hcancel & _)| ->])])%action_inv Hob.
  - by eapply placeOrder_no_cross.
  - by eapply cancelOrder_no_cross.
  - done.
Qed.

Lemma run_no_cross lines sc out out' sc' :
  run lines sc out = Returns (out', sc') →
  no_cross (orderBook sc) → no_cross (orderBook sc').
Proof.
  revert sc out. induction lines as [|line lines IH]; simpl; intros sc out.
  - by intros [= _ <-].
  - intros (d & Hd & Hrun)%bind_Returns Hob.
    eapply IH; [done|]. by eapply action_no_cross.
Qed.

(** [max_price] and [min_price] are prices of levels, and bound the
    prices of all levels. *)
Lemma max_price_elem_of (levels : PriceLevels) b :
  max_price levels = Some b → b ∈ StdMap.keys levels.
Proof.
  unfold max_price. revert b.
  induction (StdMap.keys levels) as [|p ps IH]; simpl; intros b; [done|].
  destruct (foldr _ None ps) as [m|]; simpl; intros [= <-].
  - destruct (Z.max_spec p m) as [[_ ->]|[_ ->]]; [right; by apply IH | left].
  - left.
Qed.

Lemma min_price_elem_of (levels : PriceLevels) a :
  min_price levels = Some a → a ∈ StdMap.keys levels.
Proof.
  unfold min_price. revert a.
  induction (StdMap.keys levels) as [|p ps IH]; simpl; intros a; [done|].
  destruct (foldr _ None ps) as [m|]; simpl; intros [= <-].
  - destruct (Z.min_spec p m) as [[_ ->]|[_ ->]]; [left | right; by apply IH].
  - left.
Qed.

Lemma max_price_upper (levels : PriceLevels) b p :
  max_price levels = Some b → p ∈ StdMap.keys levels → p ≤ b.
Proof.
  unfold max_price. revert b.
  induction (StdMap.keys levels) as [|p' ps IH]; simpl; intros b Hb Hp.
  - by apply elem_of_nil in Hp.
  - destruct (foldr _ None ps) as [m|] eqn:E; simpl in Hb; injection Hb as <-.
    + apply elem_of_cons in Hp as [->|Hp]; [lia|].
      specialize (IH m eq_refl Hp). lia.
    + apply elem_of_cons in Hp as [->|Hp]; [lia|].
      destruct ps; [by apply elem_of_nil in Hp | done].
Qed.

Lemma min_price_lower (levels : PriceLevels) a p :
  min_price levels = Some a → p ∈ StdMap.keys levels → a ≤ p.
Proof.
  unfold min_price. revert a.
  induction (StdMap.keys levels) as [|p' ps IH]; simpl; intros a Ha Hp.
  - by apply elem_of_nil in Hp.
  - destruct (foldr _ None ps) as [m|] eqn:E; simpl in Ha; injection Ha as <-.
    + apply elem_of_cons in Hp as [->|Hp]; [lia|].
      specialize (IH m eq_refl Hp). lia.
    + apply elem_of_cons in Hp as [->|Hp]; [lia|].
      destruct ps; [by apply elem_of_nil in Hp | done].
Qed.

(** ** Maps stay sorted *)

Section sorted_facts.
Context {K V : Type} `{StrictLess K}.
Implicit Types (k : K) (v : V) (m : list (K * V)).

Lemma sorted_map_cons k v m :
  sorted_map ((k, v) :: m) ↔
  sorted_map m ∧ Forall (λ k', less k k' = true) (StdMap.keys m).
Proof.
  unfold sorted_map, StdMap.keys. simpl. rewrite StronglySorted_cons. tauto.
Qed.

Lemma Forall_keys (P : K → Prop) m :
  Forall P (StdMap.keys m) ↔ ∀ e, e ∈ m → P e.1.
Proof. unfold StdMap.keys. rewrite Forall_fmap, Forall_forall. done. Qed.

Lemma sorted_insert k v m : sorted_map m → sorted_map (StdMap.insert k v m).
Proof.
  induction m as [|[k' v'] m IH]; simpl.
  - intros _. apply sorted_map_cons. split; [constructor | constructor].
  - intros Hm. pose proof Hm as [Hm' Hk']%sorted_map_cons.
    destruct (less k k') eqn:E1.
    + apply sorted_map_cons. split; [done|].
      apply Forall_keys. intros e [->|He]%elem_of_cons; [done|].
      rewrite Forall_keys in Hk'. eapply less_trans; [done|]. by apply Hk'.
    + destruct (less k' k) eqn:E2; [|done].
      apply sorted_map_cons. split; [by apply IH|].
      apply Forall_keys. intros e [->|He]%elem_of_insert; [done|].
      rewrite Forall_keys in Hk'. by apply Hk'.
Qed.

Lemma sorted_assign k v m : sorted_map m → sorted_map (StdMap.assign k v m).
Proof.
  induction m as [|[k' v'] m IH]; simpl.
  - intros _. apply sorted_map_cons. split; [constructor | constructor].
  - intros Hm. pose proof Hm as [Hm' Hk']%sorted_map_cons.
    destruct (less k k') eqn:E1.
    + apply sorted_map_cons. split; [done|].
      apply Forall_keys. intros e [->|He]%elem_of_cons; [done|].
      rewrite Forall_keys in Hk'. eapply less_trans; [done|]. by apply Hk'.
    + destruct (less k' k) eqn:E2.
      * apply sorted_map_cons. split; [by apply IH|].
        apply Forall_keys. intros e [->|He]%elem_of_assign; [done|].
        rewrite Forall_keys in Hk'. by apply Hk'.
      * by apply sorted_map_cons.
Qed.

Lemma sorted_erase k m : sorted_map m → sorted_map (StdMap.erase k m).
Proof.
  induction m as [|[k' v'] m IH]; simpl; [done|].
  intros [Hm' Hk']%sorted_map_cons.
  destruct (StdMap.same_key k k'); [by apply IH|].
  apply sorted_map_cons. split; [by apply IH|].
  apply Forall_keys. intros e [He _]%elem_of_erase.
  rewrite Forall_keys in Hk'. by apply Hk'.
Qed.

Lemma sorted_NoDup m : sorted_map m → NoDup (StdMap.keys m).
Proof.
  induction m as [|[k v] m IH].
  - intros _. constructor.
  - intros [Hm Hk]%sorted_map_cons. unfold StdMap.keys. simpl.
    constructor; [|by apply IH].
    intros Hin. rewrite Forall_forall in Hk. specialize (Hk _ Hin).
    by rewrite less_irrefl in Hk.
Qed.

End sorted_facts.

Lemma sorted_erase_levels (drop : list Price) (levels : PriceLevels) :
  sorted_map levels → sorted_map (erase_levels drop levels).
Proof.
  unfold erase_levels. revert levels.
  induction drop as [|p drop IH]; simpl; intros levels Hs; [done|].
  by apply IH, sorted_erase.
Qed.

(** The levels that [_fillAsk] writes back keep the prices of the book. *)
Lemma sorted_cross_levels mk (levels : PriceLevels) order fills d o ls f d' :
  cross_levels mk (reverse levels) order fills d = (o, ls, f, d') →
  sorted_map levels → sorted_map (reverse ls).
Proof.
  intros Hk%cross_levels_keys. unfold sorted_map, StdMap.keys in *.
  by rewrite fmap_reverse, Hk, fmap_reverse, reverse_involutive.
Qed.

Lemma sorted_empty_Sides : sorted_sides empty_Sides.
Proof. split; constructor. Qed.

Lemma sorted_book_assign sym sides (ob : OrderBook) :
  sorted_book ob → sorted_sides sides →
  sorted_book (StdMap.assign sym sides ob).
Proof.
  intros [Hkeys Hvals] Hsides. split; [by apply sorted_assign|].
  by apply Forall_assign.
Qed.

Lemma sorted_book_at sym (ob : OrderBook) :
  sorted_book ob → sorted_sides (StdMap.at_default sym empty_Sides ob).
Proof.
  intros [_ Hvals]. apply at_default_values; [done | apply sorted_empty_Sides].
Qed.

Lemma fillOrder_sorted order ob o f ob' :
  _fillOrder order ob = (o, f, ob') →
  sorted_book ob → sorted_book ob'.
Proof.
  intros Hfill Hob. pose proof (sorted_book_at (symbol order) ob Hob) as [Hb Ha].
  unfold _fillOrder, _fillBid, _fillAsk in Hfill.
  destruct (side order);
    destruct (cross_levels _ _ order [] []) as [[[o1 ls] f1] d] eqn:Hloop;
    injection Hfill as <- <- <-;
    (apply sorted_book_assign; [done|]); split; try done;
    apply sorted_erase_levels; [done|].
  by eapply sorted_cross_levels.
Qed.

Lemma placeOrderExistingSymbol_sorted order ob o f ob' :
  _placeOrderExistingSymbol order ob = (o, f, ob') →
  sorted_book ob → sorted_book ob'.
Proof.
  unfold _placeOrderExistingSymbol. intros Hplace Hob.
  destruct (_fillOrder order ob) as [[o1 f1] ob1] eqn:Hfill.
  apply fillOrder_sorted in Hfill as Hob1; [|done].
  destruct (qty o1 =? 0); injection Hplace as <- <- <-; [done|].
  pose proof (sorted_book_at (symbol o1) ob1 Hob1) as [Hb Ha].
  apply sorted_book_assign; [done|].
  set (lv := match StdMap.find _ _ with Some _ => _ | None => _ end).
  assert (sorted_map lv) as Hlv.
  { subst lv.
    destruct (StdMap.find _ _); [apply sorted_assign | apply sorted_insert];
      by destruct (side o1). }
  by destruct (side o1); split.
Qed.

Lemma placeOrderNewSymbol_sorted order ob :
  sorted_book ob → sorted_book (_placeOrderNewSymbol order ob).
Proof.
  intros [Hkeys Hvals]. unfold _placeOrderNewSymbol.
  split; [by apply sorted_insert|]. apply Forall_insert; [done|].
  destruct (side order); split; simpl;
    first [by constructor | apply sorted_map_cons; split; constructor].
Qed.

Lemma placeOrder_sorted order sc f sc' :
  _placeOrder order sc = Returns (f, sc') →
  sorted_book (orderBook sc) → sorted_book (orderBook sc').
Proof.
  unfold _placeOrder. intros Hplace Hob.
  destruct (_validateOrderId _ _); simpl in Hplace; try done.
  destruct (StdMap.find (symbol order) (orderBook sc)).
  - destruct (_placeOrderExistingSymbol order (orderBook sc))
      as [[o1 f1] ob1] eqn:E.
    injection Hplace as <- <-. simpl.
    by eapply placeOrderExistingSymbol_sorted.
  - injection Hplace as <- <-. simpl. by apply placeOrderNewSymbol_sorted.
Qed.

Lemma cancelOrder_sorted o sc b sc' :
  _cancelOrder o sc = Returns (b, sc') →
  sorted_book (orderBook sc) → sorted_book (orderBook sc').
Proof.
  unfold _cancelOrder. intros Hcancel Hob.
  destruct (orderCache sc !! o) as [order|]; [|by injection Hcancel as <- <-].
  pose proof (sorted_book_at (symbol order) _ Hob) as [Hb Ha].
  set (sides := StdMap.at_default (symbol order) _ _) in *.
  destruct (erase_oid o _) as [q|] eqn:Hq; [|done].
  injection Hcancel as <- <-. simpl.
  apply sorted_book_assign; [done|].
  set (lv := match q with [] => _ | _ => _ end).
  assert (sorted_map lv) as Hlv.
  { subst lv. destruct q; [apply sorted_erase | apply sorted_assign];
      by destruct (side order). }
  by destruct (side order); split.
Qed.

Lemma action_sorted line sc d :
  action line sc = Returns d →
  sorted_book (orderBook sc) → sorted_book (orderBook (state d)).
Proof.
  intros (_ & [(order & fills & _ & Hplace & _)
              |(_ & [(o & c & Hcancel & _)| ->])])%action_inv Hob.
  - by eapply placeOrder_sorted.
  - by eapply cancelOrder_sorted.
  - done.
Qed.

Lemma run_sorted lines sc out out' sc' :
  run lines sc out = Returns (out', sc') →
  sorted_book (orderBook sc) → sorted_book (orderBook sc').
Proof.
  revert sc out. induction lines as [|line lines IH]; simpl; intros sc out.
  - by intros [= _ <-].
  - intros (d & Hd & Hrun)%bind_Returns Hob.
    eapply IH; [done|]. by eapply action_sorted.
Qed.

(** ** The order of the listing *)

Lemma filter_Forall {A} (P : A → Prop) `{∀ x, Decision (P x)} (l : list A) :
  Forall P l → filter P l = l.
Proof.
  induction 1 as [|x l Hx _ IH]; [done|]. by rewrite filter_cons_True, IH.
Qed.

Lemma filter_Forall_not {A} (P : A → Prop) `{∀ x, Decision (P x)} (l : list A) :
  Forall (λ x, ¬ P x) l → filter P l = [].
Proof.
  induction 1 as [|x l Hx _ IH]; [done|]. by rewrite filter_cons_False.
Qed.

(** The lines of one level. *)
Lemma level_lines_Forall sym s p (q : OrderQueue) :
  Forall (λ l, l_symbol l = sym ∧ l_side l = s ∧ l_price l = p)
         (mkListed sym s p <$> q).
Proof. apply Forall_fmap, Forall_true. done. Qed.

Lemma side_listing_cons sym s p q (levels : PriceLevels) :
  side_listing sym s (levels ++ [(p, q)])
  = (mkListed sym s p <$> q) ++ side_listing sym s levels.
Proof. unfold side_listing. by rewrite reverse_snoc, bind_cons. Qed.

(** Induction over the levels from the highest price down, as the loop
    visits them. *)
Lemma side_listing_Forall sym s (levels : PriceLevels) :
  Forall (λ l, l_symbol l = sym ∧ l_side l = s
               ∧ l_price l ∈ StdMap.keys levels)
         (side_listing sym s levels).
Proof.
  induction levels as [|[p q] levels IH] using rev_ind; [constructor|].
  rewrite side_listing_cons. apply Forall_app. split.
  - eapply Forall_impl; [apply level_lines_Forall|]. simpl.
    intros l (-> & -> & ->). split_and!; [done..|].
    unfold StdMap.keys. rewrite fmap_app. apply elem_of_app. right. left.
  - eapply Forall_impl; [apply IH|]. simpl. intros l (-> & -> & Hp).
    split_and!; [done..|].
    unfold StdMap.keys. rewrite fmap_app. apply elem_of_app. by left.
Qed.

Lemma sorted_map_snoc (levels : PriceLevels) p q :
  sorted_map (levels ++ [(p, q)]) →
  sorted_map levels ∧ ∀ p', p' ∈ StdMap.keys levels → p' < p.
Proof.
  unfold sorted_map, StdMap.keys. rewrite fmap_app. simpl.
  intros (Hlt & Hl & _)%StronglySorted_app. split; [done|].
  intros p' Hp'. specialize (Hlt p' p Hp'). unfold less, Z_less in Hlt.
  apply Z.ltb_lt, Hlt. left.
Qed.

Lemma side_listing_sorted sym s (levels : PriceLevels) :
  sorted_map levels → StronglySorted price_desc (side_listing sym s levels).
Proof.
  induction levels as [|[p q] levels IH] using rev_ind; [constructor|].
  intros [Hs Hlt]%sorted_map_snoc. rewrite side_listing_cons.
  apply StronglySorted_app. split_and!.
  - intros l1 l2 Hl1 Hl2.
    pose proof (level_lines_Forall sym s p q) as H1.
    pose proof (side_listing_Forall sym s levels) as H2.
    rewrite Forall_forall in H1, H2.
    destruct (H1 _ Hl1) as (_ & _ & Hp1). destruct (H2 _ Hl2) as (_ & _ & Hp2).
    unfold price_desc. rewrite Hp1. apply Hlt in Hp2. lia.
  - clear. induction q as [|o q IH]; simpl; constructor; [done|].
    apply Forall_fmap, Forall_true. intros o'. unfold price_desc. simpl. lia.
  - by apply IH.
Qed.

(** The lines at the price of a level are the queue of that level, from
    its front. *)
Lemma side_listing_level sym s (levels : PriceLevels) p q :
  sorted_map levels → (p, q) ∈ levels →
  filter (λ l, l_price l = p) (side_listing sym s levels)
  = mkListed sym s p <$> q.
Proof.
  induction levels as [|[p' q'] levels IH] using rev_ind.
  { by intros _ ?%elem_of_nil. }
  intros [Hs Hlt]%sorted_map_snoc Hin. rewrite side_listing_cons, filter_app.
  apply elem_of_app in Hin as [Hin|Hin%list_elem_of_singleton].
  - assert (p < p') as Hpp'.
    { apply Hlt, list_elem_of_fmap. by exists (p, q). }
    rewrite filter_Forall_not, IH by
      (first [done | eapply Forall_impl; [apply level_lines_Forall|];
                     simpl; intros l (_ & _ & ->); lia]).
    done.
  - injection Hin as <- <-.
    rewrite filter_Forall, (filter_Forall_not _ (side_listing _ _ _)).
    + by rewrite app_nil_r.
    + eapply Forall_impl; [apply side_listing_Forall|]. simpl.
      intros l (_ & _ & Hl%Hlt). lia.
    + eapply Forall_impl; [apply level_lines_Forall|]. simpl. by intros l (_ & _ & ->).
Qed.

Lemma l_order_level sym s p (q : OrderQueue) :
  l_order <$> (mkListed sym s p <$> q) = q.
Proof. rewrite <- list_fmap_compose. apply list_fmap_id. Qed.

Lemma listing_symbols (ob : OrderBook) :
  Forall (λ l, l_symbol l ∈ StdMap.keys ob) (listing ob).
Proof.
  unfold listing. induction ob as [|[sym sides] ob IH]; [constructor|].
  rewrite bind_cons. unfold StdMap.keys. simpl. apply Forall_app. split.
  - apply Forall_app. split;
      (eapply Forall_impl; [apply side_listing_Forall|]; simpl;
       intros l (-> & _ & _); left).
  - eapply Forall_impl; [apply IH|]. simpl. intros l ?. by right.
Qed.

(** The lines of a symbol are those of its asks, then those of its bids. *)
Lemma listing_symbol (ob : OrderBook) sym sides :
  sorted_map ob → (sym, sides) ∈ ob →
  filter (λ l, l_symbol l = sym) (listing ob)
  = side_listing sym SELL (asks sides) ++ side_listing sym BUY (bids sides).
Proof.
  induction ob as [|[sym' sides'] ob IH]; [by intros _ ?%elem_of_nil|].
  intros Hs Hin. pose proof (sorted_NoDup _ Hs) as Hnd.
  apply sorted_map_cons in Hs as [Hs _].
  unfold StdMap.keys in Hnd. simpl in Hnd. apply NoDup_cons in Hnd as [Hnotin _].
  unfold listing. rewrite bind_cons, filter_app. fold (listing ob).
  assert (Forall (λ l, l_symbol l = sym')
            (side_listing sym' SELL (asks sides')
             ++ side_listing sym' BUY (bids sides'))) as Hblock.
  { apply Forall_app; split;
      (eapply Forall_impl; [apply side_listing_Forall|]; by intros l (-> & _)). }
  apply elem_of_cons in Hin as [Hin|Hin].
  - injection Hin as <- <-.
    rewrite filter_Forall by done.
    rewrite (filter_Forall_not _ (listing ob)); [by rewrite app_nil_r|].
    eapply Forall_impl; [apply listing_symbols|]. simpl.
    intros l Hl Heq. by rewrite Heq in Hl.
  - assert (sym ≠ sym') as Hne.
    { intros ->. apply Hnotin, list_elem_of_fmap. by exists (sym', sides). }
    rewrite filter_Forall_not, IH by
      (first [done | eapply Forall_impl; [apply Hblock|]; simpl; congruence]).
    done.
Qed.

(** ** Bid queues keep the order of arrival *)

Lemma cross_queue_as_placed order queue fills n o q f n' :
  cross_queue order queue fills n = (o, q, f, n') →
  as_placed <$> q = as_placed <$> queue.
Proof.
  revert order fills n o q f n'.
  induction queue as [|r queue IH]; simpl; intros order fills n o q f n'.
  - by intros [= _ <- _ _].
  - destruct (uint16 (qty order - _) =? 0) eqn:E.
    + by intros [= _ <- _ _].
    + destruct (cross_queue _ queue _ _) as [[[o1 q1] f1] n1] eqn:Hrec.
      intros [= _ <- _ _]. rewrite !fmap_cons. f_equal. by eapply IH.
Qed.

Lemma levels_shrink_refl levels : levels_shrink levels levels.
Proof. intros p q Hin. by exists q. Qed.

Lemma levels_shrink_trans l1 l2 l3 :
  levels_shrink l1 l2 → levels_shrink l2 l3 → levels_shrink l1 l3.
Proof.
  intros H12 H23 p q3 (q2 & (q1 & ? & ?)%H12 & ?)%H23.
  exists q1. split; [done|]. by etrans.
Qed.

Lemma levels_shrink_reverse l1 l2 :
  levels_shrink l1 l2 → levels_shrink (reverse l1) (reverse l2).
Proof.
  intros H12 p q2 (q1 & ? & ?)%elem_of_reverse%H12.
  exists q1. by rewrite elem_of_reverse.
Qed.

Lemma levels_shrink_erase_levels drop levels :
  levels_shrink levels (erase_levels drop levels).
Proof. intros p q [Hin _]%elem_of_erase_levels. by exists q. Qed.

Lemma cross_levels_shrink mk levels order fills d o ls f d' :
  cross_levels mk levels order fills d = (o, ls, f, d') →
  levels_shrink levels ls.
Proof.
  revert order fills d o ls f d'.
  induction levels as [|[p q] levels IH]; simpl; intros order fills d o ls f d'.
  { intros [= _ <- _ _]. apply levels_shrink_refl. }
  destruct (if mk p then _ else _) as [[o1 q1] f1] eqn:Hlevel.
  assert ((as_placed <$> q1) `sublist_of` (as_placed <$> q)) as Hq1.
  { destruct (mk p).
    - destruct (cross_queue order q fills 0) as [[[o2 q2] f2] n2] eqn:Hq.
      injection Hlevel as <- <- <-.
      rewrite <- (cross_queue_as_placed _ _ _ _ _ _ _ _ Hq), pop_back_n_take.
      rewrite fmap_take. apply sublist_take.
    - by injection Hlevel as <- <- <-. }
  destruct (qty o1 =? 0).
  - intros [= _ <- _ _] p' q' [[= -> ->]|Hin]%elem_of_cons.
    + exists q. split; [left | done].
    + exists q'. split; [by right | done].
  - destruct (cross_levels mk levels o1 _ _) as [[[o2 l2] f2] d2] eqn:Hrec.
    intros [= _ <- _ _] p' q' [[= -> ->]|Hin]%elem_of_cons.
    + exists q. split; [left | done].
    + destruct (IH _ _ _ _ _ _ _ Hrec p' q' Hin) as (q0 & ? & ?).
      exists q0. split; [by right | done].
Qed.

Lemma bids_at_app sym p h1 h2 :
  bids_at sym p (h1 ++ h2) = bids_at sym p h1 ++ bids_at sym p h2.
Proof. apply filter_app. Qed.

Lemma bids_in_order_grow history more sym sides :
  bids_in_order history sym sides → bids_in_order (history ++ more) sym sides.
Proof.
  intros Hs p q Hin. rewrite bids_at_app, fmap_app.
  by apply sublist_inserts_r, Hs.
Qed.

Lemma arrival_ordered_grow history more ob :
  arrival_ordered history ob → arrival_ordered (history ++ more) ob.
Proof. intros Hob sym sides Hin. by apply bids_in_order_grow, Hob. Qed.

Lemma bids_in_order_shrink history sym sides sides' :
  bids_in_order history sym sides →
  levels_shrink (bids sides) (bids sides') →
  bids_in_order history sym sides'.
Proof.
  intros Hs Hshrink p q' (q & Hin & Hsub)%Hshrink. etrans; [done|]. by apply Hs.
Qed.

Lemma bids_in_order_empty history sym : bids_in_order history sym empty_Sides.
Proof. intros p q []%elem_of_nil. Qed.

Lemma arrival_ordered_at history ob sym :
  arrival_ordered history ob →
  bids_in_order history sym (StdMap.at_default sym empty_Sides ob).
Proof.
  intros Hob. unfold StdMap.at_default.
  destruct (StdMap.find sym ob) as [sides|] eqn:E; simpl.
  - apply Hob. by apply find_elem_of.
  - apply bids_in_order_empty.
Qed.

Lemma arrival_ordered_assign history ob sym sides :
  arrival_ordered history ob → bids_in_order history sym sides →
  arrival_ordered history (StdMap.assign sym sides ob).
Proof.
  intros Hob Hs sym' sides' [[= -> ->]|Hin]%elem_of_assign; [done|].
  by apply Hob.
Qed.

Lemma fillOrder_arrival history order ob o f ob' :
  _fillOrder order ob = (o, f, ob') →
  arrival_ordered history ob → arrival_ordered history ob'.
Proof.
  intros Hfill Hob.
  pose proof (arrival_ordered_at _ _ (symbol order) Hob) as Hsides.
  unfold _fillOrder, _fillBid, _fillAsk in Hfill.
  destruct (side order);
    destruct (cross_levels _ _ order [] []) as [[[o1 ls] f1] d] eqn:Hloop;
    injection Hfill as <- <- <-;
    (apply arrival_ordered_assign; [done|]);
    (eapply bids_in_order_shrink; [done|]); simpl.
  - apply levels_shrink_refl.
  - eapply levels_shrink_trans; [|apply levels_shrink_erase_levels].
    apply cross_levels_shrink, levels_shrink_reverse in Hloop.
    by rewrite reverse_involutive in Hloop.
Qed.

(** The queue that a buy order joins holds it last. *)
Lemma bids_in_order_join history order sym sides levels :
  side order = BUY → symbol order = sym →
  bids_in_order history sym sides →
  (∀ p q, (p, q) ∈ levels →
     (p, q) ∈ bids sides ∨
     ∃ q0 left, p = px order ∧ q = q0 ++ [set_qty order left] ∧
                (q0 = [] ∨ (p, q0) ∈ bids sides)) →
  bids_in_order (history ++ [order]) sym (mkSides levels (asks sides)).
Proof.
  intros Hbuy Hsym Hs Hlevels p q [Hin|(q0 & left & -> & -> & Hq0)]%Hlevels.
  - by apply (bids_in_order_grow _ _ _ _ Hs).
  - rewrite bids_at_app, !fmap_app. apply sublist_app.
    + destruct Hq0 as [->|Hq0]; [apply sublist_nil_l | by apply Hs].
    + unfold bids_at. rewrite filter_cons_True by done. done.
Qed.

Lemma placeOrderExistingSymbol_arrival history order ob o f ob' :
  _placeOrderExistingSymbol order ob = (o, f, ob') →
  arrival_ordered history ob →
  arrival_ordered (history ++ [order]) ob'.
Proof.
  unfold _placeOrderExistingSymbol. intros Hplace Hob.
  destruct (_fillOrder order ob) as [[o1 f1] ob1] eqn:Hfill.
  pose proof (fillOrder_order _ _ _ _ _ Hfill) as Ho1.
  apply (fillOrder_arrival history) in Hfill; [|done].
  assert (symbol o1 = symbol order ∧ side o1 = side order ∧ px o1 = px order)
    as (Hsym & Hside & Hpx) by (by rewrite Ho1).
  destruct (qty o1 =? 0).
  { injection Hplace as <- <- <-. by apply arrival_ordered_grow. }
  injection Hplace as <- <- <-. rewrite Hsym, Hside, Hpx.
  pose proof (arrival_ordered_at _ _ (symbol order) Hfill) as Hsides.
  set (sides := StdMap.at_default (symbol order) empty_Sides ob1) in *.
  apply arrival_ordered_assign; [by apply arrival_ordered_grow|].
  destruct (side order) eqn:Hbuy; simpl.
  - apply bids_in_order_join; [done..|].
    intros p q. destruct (StdMap.find (px order) (bids sides)) as [q0|] eqn:Hfind.
    + intros [[= -> ->]|Hin]%elem_of_assign; [|by left].
      right. exists q0, (qty o1). rewrite <- Ho1.
      split_and!; [done..|]. right. by apply find_elem_of.
    + intros [[= -> ->]|Hin]%elem_of_insert; [|by left].
      right. exists [], (qty o1). rewrite <- Ho1. split_and!; [done..|]. by left.
  - by apply bids_in_order_grow.
Qed.

Lemma placeOrderNewSymbol_arrival history order ob :
  arrival_ordered history ob →
  arrival_ordered (history ++ [order]) (_placeOrderNewSymbol order ob).
Proof.
  intros Hob sym sides [[= -> ->]|Hin]%elem_of_insert.
  - destruct (side order) eqn:Hbuy.
    + apply (bids_in_order_join history order _ empty_Sides); [done..| |].
      * apply bids_in_order_empty.
      * intros p q [= -> ->]%list_elem_of_singleton.
        right. exists [], (qty order). split_and!; [done| |by left].
        by destruct order.
    + apply bids_in_order_empty.
  - by apply bids_in_order_grow, Hob.
Qed.

Lemma placeOrder_arrival history order sc f sc' :
  _placeOrder order sc = Returns (f, sc') →
  arrival_ordered history (orderBook sc) →
  arrival_ordered (history ++ [order]) (orderBook sc').
Proof.
  unfold _placeOrder. intros Hplace Hob.
  destruct (_validateOrderId _ _); simpl in Hplace; try done.
  destruct (StdMap.find (symbol order) (orderBook sc)).
  - destruct (_placeOrderExistingSymbol order (orderBook sc))
      as [[o1 f1] ob1] eqn:E.
    injection Hplace as <- <-. simpl.
    by eapply placeOrderExistingSymbol_arrival.
  - injection Hplace as <- <-. simpl. by apply placeOrderNewSymbol_arrival.
Qed.

Lemma erase_oid_sublist o queue queue' :
  erase_oid o queue = Some queue' → queue' `sublist_of` queue.
Proof.
  revert queue'. induction queue as [|order queue IH]; simpl; intros queue'.
  - done.
  - destruct (oid order =? o).
    + intros [= <-]. by apply sublist_cons.
    + destruct (erase_oid o queue) as [q|]; simpl; intros [= <-].
      by apply sublist_skip, IH.
Qed.

Lemma cancelOrder_arrival history o sc b sc' :
  _cancelOrder o sc = Returns (b, sc') →
  arrival_ordered history (orderBook sc) →
  arrival_ordered history (orderBook sc').
Proof.
  unfold _cancelOrder. intros Hcancel Hob.
  destruct (orderCache sc !! o) as [order|]; [|by injection Hcancel as <- <-].
  pose proof (arrival_ordered_at _ _ (symbol order) Hob) as Hsides.
  set (sides := StdMap.at_default (symbol order) _ _) in *.
  destruct (erase_oid o _) as [q|] eqn:Hq; [|done].
  injection Hcancel as <- <-. simpl.
  apply arrival_ordered_assign; [done|].
  eapply bids_in_order_shrink; [done|].
  destruct (side order); simpl; [|apply levels_shrink_refl].
  unfold StdMap.at_default in Hq. simpl in Hq.
  destruct (StdMap.find (px order) (bids sides)) as [q0|] eqn:Hfind; [|done].
  simpl in Hq. apply find_elem_of in Hfind. apply erase_oid_sublist in Hq.
  intros p q' Hin. destruct q.
  - apply elem_of_erase in Hin as [Hin _]. by exists q'.
  - apply elem_of_assign in Hin as [[= -> ->]|Hin]; [|by exists q'].
    exists q0. split; [done|]. by apply fmap_sublist.
Qed.

Lemma placed_cons line lines :
  placed (line :: lines)
  = match placed_order line with Some o => [o] | None => [] end ++ placed lines.
Proof. unfold placed. simpl. by destruct (placed_order line). Qed.

Lemma run_arrival lines sc out out' sc' history :
  run lines sc out = Returns (out', sc') →
  arrival_ordered history (orderBook sc) →
  arrival_ordered (history ++ placed lines) (orderBook sc').
Proof.
  revert sc out history.
  induction lines as [|line lines IH]; intros sc out history.
  - intros [= _ <-] Hob. by rewrite app_nil_r.
  - intros (d & Hd & Hrun)%bind_Returns Hob.
    rewrite placed_cons, app_assoc. eapply IH; [done|].
    apply action_inv in Hd
      as (_ & [(order & fills & -> & Hplace & _)
              |(-> & [(o & c & Hcancel & _)| ->])]).
    + by eapply placeOrder_arrival.
    + rewrite app_nil_r. by eapply cancelOrder_arrival.
    + by rewrite app_nil_r.
Qed.

(** * The claims *)

(** ** The dispatcher and the snapshot *)

Lemma append_nil_r (s : string) : s +:+ "" = s.
Proof.
  induction s as [|c s IH]; [done|].
  change (String c s +:+ "") with (String c (s +:+ "")). by rewrite IH.
Qed.

Lemma append_assoc (s t u : string) : (s +:+ t) +:+ u = s +:+ (t +:+ u).
Proof.
  induction s as [|c s IH]; [done|].
  change (String c (s +:+ t) +:+ u = String c (s +:+ (t +:+ u))).
  change (String c ((s +:+ t) +:+ u) = String c (s +:+ (t +:+ u))).
  by rewrite IH.
Qed.

Lemma splitLine_from_head line item :
  ∃ tail items, splitLine_from line item = (item +:+ tail) :: items.
Proof.
  revert item. induction line as [|c rest IH]; simpl; intros item.
  - exists "", []. by rewrite append_nil_r.
  - destruct (Ascii.eqb c " ").
    + exists "". eexists. by rewrite append_nil_r.
    + destruct (IH (item +:+ char_string c)) as (tail & items & ->).
      exists (char_string c +:+ tail), items.
      by rewrite append_assoc.
Qed.

(** The first token of a line that starts with a character other than a
    space starts with that character. *)
Lemma splitLine_first c rest :
  Ascii.eqb c " " = false →
  ∃ tail items, _splitLine (String c rest) = String c tail :: items.
Proof.
  intros Hc. unfold _splitLine. simpl. rewrite Hc.
  change ("" +:+ char_string c) with (char_string c).
  destruct (splitLine_from_head rest (char_string c)) as (tail & items & ->).
  by exists tail, items.
Qed.

(** [action] returns the empty list on every line it returns from. *)
Lemma action_returned_nil line sc d :
  action line sc = Returns d → returned d = [].
Proof. by intros [? _]%action_inv. Qed.

(** A place whose identifier is in the cache throws, whatever the cached
    order has become since. *)
Lemma placeOrder_duplicate order sc cached :
  orderCache sc !! oid order = Some cached →
  _placeOrder order sc = Throws (invalid_argument "Invalid Order ID").
Proof. intros Hc. unfold _placeOrder, _validateOrderId. by rewrite Hc. Qed.

(** A cancel never prunes the cache. *)
Lemma cancelOrder_cache o sc b sc' :
  _cancelOrder o sc = Returns (b, sc') → orderCache sc' = orderCache sc.
Proof.
  unfold _cancelOrder. intros Hc.
  destruct (orderCache sc !! o); [|by injection Hc as <- <-].
  destruct (erase_oid o _); [|done]. by injection Hc as <- <-.
Qed.

(** C10. A snapshot line never modifies the engine: on every state, the
    line ["P"] (and any line whose first character is [P]) returns, prints
    the listing of the book, and leaves the order book and the order cache
    exactly as they were. *)
Theorem snapshot_leaves_state (rest : string) (sc : SimpleCross) :
  ∃ d, action (String "P" rest) sc = Returns d ∧
       printed d = _printSortedBook (orderBook sc) ∧
       orderBook (state d) = orderBook sc ∧
       orderCache (state d) = orderCache sc.
Proof.
  destruct (splitLine_first "P" rest eq_refl) as (tail & items & Hsplit).
  unfold action. rewrite Hsplit. simpl. by eexists.
Qed.

(** ** Where the program departs from its documented behaviour *)

(** C1. The results of an action are written to standard output while
    [action] runs, and the list [action] returns is empty, on every line
    and in every state.  In the documented session the fourth line answers
    with an empty list and prints its fill, and so does the cancel that
    follows. *)
Theorem returned_sequence_is_empty :
  (∀ line sc, match action line sc with
              | Returns d => returned d = []
              | _ => True
              end) ∧
  answer (take 3 session) "O 10003 IBM S 5 100.00000"
    = Returns ([], ["F 10000 IBM 5 100.000000"]) ∧
  answer (take 5 session) "X 10002" = Returns ([], ["X 10002"]).
Proof.
  split; [|split; vm_compute; reflexivity].
  intros line sc. destruct (action line sc) as [d| | |] eqn:Hact; [|done..].
  by eapply action_returned_nil.
Qed.

(** C2. [action] is not total.  In every state, a non-numeric identifier
    or quantity makes [std::stoi] throw, a side other than [B] and [S]
    makes the constructor of [Order] throw, and nothing catches either; an
    empty line indexes an empty vector; a line with too few fields indexes
    past the end; an unrecognised action letter returns without any [E]
    line. *)
Theorem action_is_not_total (sc : SimpleCross) :
  action "O abc IBM B 10 100.00000" sc = Throws (invalid_argument "stoi") ∧
  action "O 1 IBM B ten 100.00000" sc = Throws (invalid_argument "stoi") ∧
  action "O 1 IBM Q 10 100.00000" sc
    = Throws (invalid_argument "Invalid Order Side") ∧
  action "" sc = Undefined ∧
  action "X" sc = Undefined ∧
  action "Z 1" sc = Returns (mkDone [] [] sc).
Proof. split_and!; vm_compute; reflexivity. Qed.

(** C3. A match emits one fill record, that of the resting order; no
    record carries the identifier of the incoming order.  In the documented
    session, order 10010 sweeps two ask levels and two lines are printed
    where the header comment lists four. *)
Theorem one_fill_record_per_match :
  answer (take 3 session) "O 10003 IBM S 5 100.00000"
    = Returns ([], ["F 10000 IBM 5 100.000000"]) ∧
  answer (session ++ ["O 10009 IBM S 10 102.00000"]) "O 10010 IBM B 13 102.00000"
    = Returns ([], ["F 10007 IBM 10 101.000000"; "F 10008 IBM 3 102.000000"]).
Proof. split; vm_compute; reflexivity. Qed.

(** C5. Filled orders are counted at the front of the queue and popped
    from its back.  Two bids rest at one price; a sell fills the first of
    them entirely; the queue that is left holds the filled order, with no
    shares, and has lost the untouched second one. *)
Theorem filled_order_stays_in_queue :
  transcript ["O 1 IBM B 5 100.00000"; "O 2 IBM B 10 100.00000";
              "O 3 IBM S 5 100.00000"]
    = Returns (["F 1 IBM 5 100.000000"],
               [("IBM", mkSides [(10000000, [mkOrder 1 "IBM" BUY 0 10000000])] [])]).
Proof. vm_compute; reflexivity. Qed.

(** C6. A duplicate identifier makes [_validateOrderId] throw, whatever
    the book holds, and nothing catches the exception: no [E] line is
    printed and the process ends.  An identifier whose order was filled
    entirely on arrival never entered the cache and is accepted again. *)
Theorem duplicate_identifier_throws :
  (∀ order cached ob (cache : OrderCache),
     _placeOrder order (mkSimpleCross ob (<[oid order := cached]> cache))
     = Throws (invalid_argument "Invalid Order ID")) ∧
  answer session "O 10008 IBM S 10 102.00000"
    = Throws (invalid_argument "Invalid Order ID") ∧
  answer ["O 1 IBM S 5 100.00000"; "O 2 IBM B 5 100.00000"]
         "O 2 IBM B 5 101.00000" = Returns ([], []).
Proof.
  split; [|split; vm_compute; reflexivity].
  intros order cached ob cache.
  apply (placeOrder_duplicate _ _ cached). simpl. apply lookup_insert_eq.
Qed.

(** C7. A cancel of an identifier that was never accepted prints the error
    line, and a cancel of a resting order prints its confirmation.  But the
    cache entry of an order is never removed: a second cancel of the same
    identifier, or the cancel of an order that was filled while resting,
    finds the entry, searches a queue that no longer holds the order, and
    erases at [end()]. *)
Theorem second_cancel_is_undefined :
  answer [] "X 99999" = Returns ([], ["E 99999 Order ID not on book"]) ∧
  answer ["O 1 IBM B 10 100.00000"] "X 1" = Returns ([], ["X 1"]) ∧
  answer ["O 1 IBM B 10 100.00000"; "X 1"] "X 1" = Undefined ∧
  answer ["O 1 IBM B 10 100.00000"; "O 2 IBM S 10 100.00000"] "X 1" = Undefined.
Proof. repeat split; vm_compute; reflexivity. Qed.

(** C4. The book can hold a crossable pair.  [std::stod] reads the price
    field [nan] as a NaN and [action] places the order, where the
    documented behaviour for malformed input is an error line.  The first
    line opens the bid level of key NaN; the second, a buy at 100, finds
    that level under its own price and joins it; the third, a sell at 90,
    sees no bid level that it could trade with, and rests.  A buy at 100
    and a sell at 90 then rest side by side, the bid level is not priced
    below the ask level, and the snapshot lists them. *)
Theorem nan_price_leaves_a_crossable_pair :
  let lines := ["O 1 IBM B 10 nan"; "O 2 IBM B 10 100.00000";
                "O 3 IBM S 10 90.00000"] in
  let bid1 := NaNPrice.mkOrder 1 "IBM" BUY 10 (NaNPrice.NaN false) in
  let bid2 := NaNPrice.mkOrder 2 "IBM" BUY 10 (NaNPrice.Finite 10000000) in
  let ask3 := NaNPrice.mkOrder 3 "IBM" SELL 10 (NaNPrice.Finite 9000000) in
  let st := NaNPrice.mkSimpleCross
              [("IBM", NaNPrice.mkSides
                         [(NaNPrice.NaN false, [bid1; bid2])]
                         [(NaNPrice.Finite 9000000, [ask3])])]
              (<[3 := ask3]> (<[2 := bid2]> (<[1 := bid1]> ∅))) in
  NaNPrice.run lines NaNPrice.initial [] = Returns ([], st) ∧
  NaNPrice.double_le (NaNPrice.px ask3) (NaNPrice.px bid2) = true ∧
  NaNPrice.double_lt (NaNPrice.NaN false) (NaNPrice.Finite 9000000) = false ∧
  NaNPrice.action "P" st
  = Returns (NaNPrice.mkDone []
               ["P 3 IBM S 10 90.000000"; "P 1 IBM B 10 nan";
                "P 2 IBM B 10 nan"] st).
Proof. vm_compute. split_and!; reflexivity. Qed.

(** C9. Quantities are not conserved.  [_fillBid] works on copies of the
    ask levels: order 1 is printed as filled for 5 shares and still rests
    with its 10 shares; and order 2, the incoming one, is filled for 5
    shares without any fill record of its own. *)
Theorem quantity_is_not_conserved :
  transcript ["O 1 IBM S 10 100.00000"; "O 2 IBM B 5 100.00000"]
    = Returns (["F 1 IBM 5 100.000000"],
               [("IBM", mkSides [] [(10000000, [mkOrder 1 "IBM" SELL 10 10000000])])]).
Proof. vm_compute; reflexivity. Qed.

(** C8, as amended.  Whatever lines the program has processed, the
    snapshot lists, for each symbol of the book, all its asks first, in
    descending price order, then all its bids, in descending price order;
    the asks listed at the price of a level are the orders of that level;
    and within each bid price level the orders appear in arrival order,
    earliest accepted first: the lines at the price of a bid level are the
    level's queue from its front, and the orders of that queue, whatever
    quantity each has left, follow one another as the input lines that
    placed them do. *)
Theorem snapshot_order (lines out : list string) (st : SimpleCross) :
  run lines initial [] = Returns (out, st) →
  ∀ sym sides, (sym, sides) ∈ orderBook st →
    action "P" st
      = Returns (mkDone [] (book_line <$> listing (orderBook st)) st) ∧
    ∃ ask_lines bid_lines,
      filter (λ l, l_symbol l = sym) (listing (orderBook st))
        = ask_lines ++ bid_lines ∧
      Forall (λ l, l_side l = SELL ∧ l_price l ∈ StdMap.keys (asks sides))
             ask_lines ∧
      Forall (λ l, l_side l = BUY ∧ l_price l ∈ StdMap.keys (bids sides))
             bid_lines ∧
      StronglySorted price_desc ask_lines ∧
      StronglySorted price_desc bid_lines ∧
      (∀ p q, (p, q) ∈ asks sides →
              l_order <$> filter (λ l, l_price l = p) ask_lines ≡ₚ q) ∧
      (∀ p q, (p, q) ∈ bids sides →
              l_order <$> filter (λ l, l_price l = p) bid_lines = q ∧
              (as_placed <$> q)
                `sublist_of` (as_placed <$> bids_at sym p (placed lines))).
Proof.
  intros Hrun.
  assert (sorted_book (orderBook st)) as [Hkeys Hvals].
  { eapply run_sorted; [done|]. split; constructor. }
  assert (arrival_ordered (placed lines) (orderBook st)) as Harrival.
  { apply (run_arrival _ _ _ _ _ [] Hrun). by intros sym sides ?%elem_of_nil. }
  intros sym sides Hin. split.
  { unfold action. simpl. unfold _printSortedBook.
    destruct (orderBook st); [by apply elem_of_nil in Hin | done]. }
  rewrite Forall_forall in Hvals. destruct (Hvals _ Hin) as [Hb Ha]. simpl in *.
  exists (side_listing sym SELL (asks sides)),
         (side_listing sym BUY (bids sides)).
  split_and!.
  - by apply listing_symbol.
  - eapply Forall_impl; [apply side_listing_Forall|]. by intros l (_ & ? & ?).
  - eapply Forall_impl; [apply side_listing_Forall|]. by intros l (_ & ? & ?).
  - by apply side_listing_sorted.
  - by apply side_listing_sorted.
  - intros p q Hpq.
    by rewrite (side_listing_level _ _ _ p q), l_order_level.
  - intros p q Hpq. split.
    + by rewrite (side_listing_level _ _ _ p q), l_order_level.
    + by apply (Harrival sym sides Hin).
Qed.

(** Three bids, two of them at one price, and an ask above them. *)
Lemma snapshot_order_witness :
  let lines := ["O 10001 IBM B 10 99.00000"; "O 10005 IBM B 10 99.00000";
                "O 10006 IBM B 10 100.00000"; "O 10007 IBM S 10 101.00000"] in
  let o1 := mkOrder 10001 "IBM" BUY 10 9900000 in
  let o5 := mkOrder 10005 "IBM" BUY 10 9900000 in
  let o6 := mkOrder 10006 "IBM" BUY 10 10000000 in
  let o7 := mkOrder 10007 "IBM" SELL 10 10100000 in
  let sides := mkSides [(9900000, [o1; o5]); (10000000, [o6])]
                       [(10100000, [o7])] in
  let st := mkSimpleCross [("IBM", sides)]
              (<[10007 := o7]> (<[10006 := o6]> (<[10005 := o5]>
                 (<[10001 := o1]> ∅)))) in
  run lines initial [] = Returns ([], st) ∧
  action "P" st
    = Returns (mkDone [] ["P 10007 IBM S 10 101.000000";
                          "P 10006 IBM B 10 100.000000";
                          "P 10001 IBM B 10 99.000000";
                          "P 10005 IBM B 10 99.000000"] st).
Proof.
  intros lines o1 o5 o6 o7 sides st.
  assert (run lines initial [] = Returns ([], st)) as Hrun
    by (vm_compute; reflexivity).
  split; [exact Hrun|].
  destruct (snapshot_order lines [] st Hrun "IBM" sides) as [HP _]; [left|].
  exact HP.
Defined.

(** C8, as the specification words it, fails: two buy orders rest at one
    price, and the snapshot lists the earlier one first, where the
    specification wants the most recently accepted order first. *)
Lemma snapshot_not_in_reverse_arrival_order :
  let o1 := mkOrder 10001 "IBM" BUY 10 9900000 in
  let o5 := mkOrder 10005 "IBM" BUY 10 9900000 in
  let ob := [("IBM", mkSides [(9900000, [o1; o5])] [])] in
  transcript ["O 10001 IBM B 10 99.00000"; "O 10005 IBM B 10 99.00000"]
    = Returns ([], ob) ∧
  answer ["O 10001 IBM B 10 99.00000"; "O 10005 IBM B 10 99.00000"] "P"
    = Returns ([], ["P 10001 IBM B 10 99.000000";
                    "P 10005 IBM B 10 99.000000"]) ∧
  listing ob = [mkListed "IBM" BUY 9900000 o1; mkListed "IBM" BUY 9900000 o5] ∧
  listing_as_specified ob
    = [mkListed "IBM" BUY 9900000 o5; mkListed "IBM" BUY 9900000 o1] ∧
  listing ob ≠ listing_as_specified ob.
Proof.
  intros o1 o5 ob. split_and!; try (vm_compute; reflexivity).
  vm_compute. discriminate.
Qed.

(** * Further properties *)

(** ** Lookups after updates *)

Section lookup_facts.
Context {K V : Type} `{StrictLess K}.
Implicit Types (k : K) (v : V) (m : list (K * V)).

Lemma same_key_ne k k' : k ≠ k' → StdMap.same_key k k' = false.
Proof.
  intros Hne. destruct (StdMap.same_key k k') eqn:E; [|done].
  by apply same_key_eq in E.
Qed.

Lemma find_assign_ne k k' v m :
  k ≠ k' → StdMap.find k' (StdMap.assign k v m) = StdMap.find k' m.
Proof.
  intros Hne. induction m as [|[k0 v0] m IH]; simpl.
  - by rewrite same_key_ne.
  - destruct (less k k0) eqn:E1; simpl.
    + by rewrite (same_key_ne k' k).
    + destruct (less k0 k) eqn:E2; simpl.
      * by rewrite IH.
      * assert (k = k0) as <- by by apply less_total.
        by rewrite (same_key_ne k' k).
Qed.

Lemma find_insert_ne k k' v m :
  k ≠ k' → StdMap.find k' (StdMap.insert k v m) = StdMap.find k' m.
Proof.
  intros Hne. induction m as [|[k0 v0] m IH]; simpl.
  - by rewrite same_key_ne.
  - destruct (less k k0) eqn:E1; simpl.
    + by rewrite (same_key_ne k' k).
    + destruct (less k0 k) eqn:E2; simpl; [by rewrite IH | done].
Qed.

Lemma find_insert_absent k v m :
  StdMap.find k m = None → StdMap.find k (StdMap.insert k v m) = Some v.
Proof.
  induction m as [|[k' v'] m IH]; simpl.
  - by rewrite same_key_refl.
  - destruct (StdMap.same_key k k') eqn:Es; [done|]. intros Hf.
    destruct (less k k') eqn:E1; simpl.
    + by rewrite same_key_refl.
    + destruct (less k' k) eqn:E2; simpl.
      * rewrite Es. by apply IH.
      * unfold StdMap.same_key in Es. by rewrite E1, E2 in Es.
Qed.

Lemma find_erase k m : StdMap.find k (StdMap.erase k m) = None.
Proof.
  induction m as [|[k' v'] m IH]; simpl; [done|].
  destruct (StdMap.same_key k k') eqn:E; simpl; [done|]. by rewrite E.
Qed.

Lemma find_erase_ne k k' m :
  k ≠ k' → StdMap.find k' (StdMap.erase k m) = StdMap.find k' m.
Proof.
  intros Hne. induction m as [|[k0 v0] m IH]; simpl; [done|].
  destruct (StdMap.same_key k k0) eqn:E; simpl.
  - apply same_key_eq in E as <-. by rewrite (same_key_ne k' k).
  - by rewrite IH.
Qed.

Lemma find_None_keys k m : StdMap.find k m = None ↔ k ∉ StdMap.keys m.
Proof.
  unfold StdMap.keys. induction m as [|[k' v'] m IH]; simpl.
  - split; [intros _; apply not_elem_of_nil | done].
  - destruct (StdMap.same_key k k') eqn:E.
    + apply same_key_eq in E as <-. split; [done|]. intros []. left.
    + rewrite IH. rewrite not_elem_of_cons. split; [|tauto].
      intros ?. split; [|done]. intros ->. by rewrite same_key_refl in E.
Qed.

Lemma keys_find k m : k ∈ StdMap.keys m ↔ is_Some (StdMap.find k m).
Proof.
  rewrite <- not_eq_None_Some, find_None_keys.
  destruct (StdMap.find k m) eqn:E.
  - split; [intros _ Hn | intros _].
    + apply find_None_keys in Hn. congruence.
    + apply find_elem_of in E. apply list_elem_of_fmap. by eexists (_, _).
  - apply find_None_keys in E. tauto.
Qed.

Lemma keys_assign_mono k v m k' :
  k' ∈ StdMap.keys m → k' ∈ StdMap.keys (StdMap.assign k v m).
Proof.
  rewrite !keys_find. intros Hin.
  destruct (StdMap.same_key k k') eqn:E.
  - apply same_key_eq in E as <-. by rewrite find_assign.
  - rewrite find_assign_ne; [done|]. intros ->. by rewrite same_key_refl in E.
Qed.

Lemma keys_assign_self k v m : k ∈ StdMap.keys (StdMap.assign k v m).
Proof. rewrite keys_find, find_assign. done. Qed.

Lemma keys_insert_mono k v m k' :
  k' ∈ StdMap.keys m → k' ∈ StdMap.keys (StdMap.insert k v m).
Proof.
  rewrite !keys_find. intros Hin.
  destruct (StdMap.same_key k k') eqn:E.
  - apply same_key_eq in E as <-.
    destruct (StdMap.find k m) eqn:Hf; [|by destruct Hin].
    clear Hin. induction m as [|[k0 w0] m IH]; simpl in *; [done|].
    destruct (StdMap.same_key k k0) eqn:Es.
    + unfold StdMap.same_key in Es. apply andb_prop in Es as [E1 E2].
      apply negb_true_iff in E1, E2. rewrite E1, E2. simpl.
      unfold StdMap.same_key. by rewrite E1, E2.
    + destruct (less k k0) eqn:E1; simpl; [by rewrite same_key_refl|].
      destruct (less k0 k) eqn:E2; simpl; [rewrite Es; by apply IH|].
      unfold StdMap.same_key in Es. by rewrite E1, E2 in Es.
  - rewrite find_insert_ne; [done|]. intros ->. by rewrite same_key_refl in E.
Qed.

Lemma keys_insert_self k v m : k ∈ StdMap.keys (StdMap.insert k v m).
Proof.
  destruct (StdMap.find k m) eqn:E.
  - apply keys_insert_mono, keys_find. by rewrite E.
  - rewrite keys_find, find_insert_absent; done.
Qed.

End lookup_facts.

(** ** The fills of the crossing loops *)

Lemma total_filled_app a b :
  total_filled (a ++ b) = total_filled a + total_filled b.
Proof. unfold total_filled. induction a as [|x a IH]; simpl; lia. Qed.

Lemma uint16_range z : 0 ≤ uint16 z < 65536.
Proof. unfold uint16. apply Z.mod_pos_bound. lia. Qed.

Lemma uint16_small z : 0 ≤ z < 65536 → uint16 z = z.
Proof. unfold uint16. apply Z.mod_small. Qed.

(** The fills that one queue adds name resting orders of the queue, in
    queue order, each for at least one share; and they add up to what the
    incoming order loses. *)
Lemma cross_queue_fills order q fills n o q1 f k :
  cross_queue order q fills n = (o, q1, f, k) →
  ∃ new,
    f = fills ++ new ∧
    (fill_key <$> new) `sublist_of` (order_key <$> q) ∧
    Forall (λ x, 0 < fill_qty x) new ∧
    (in_range order → Forall in_range q →
     total_filled new = qty order - qty o ∧ in_range o).
Proof.
  revert order fills n o q1 f k.
  induction q as [|r q IH]; intros order fills n o q1 f k.
  { simpl. intros [= <- _ <- _]. exists []. rewrite app_nil_r.
    split_and!; [done | done | constructor |]. intros ? _. split; [simpl; lia | done]. }
  cbn [cross_queue]. cbv zeta.
  set (shares := Z.min (qty r) (qty order)).
  set (order1 := set_qty order (uint16 (qty order - shares))).
  set (r1 := set_qty r (uint16 (qty r - shares))).
  set (F := mkFill (oid r1) (symbol r1) shares (px r1)).
  assert (∀ rest, (fill_key <$> rest) `sublist_of` (order_key <$> q) →
            (fill_key <$> (if 0 <? shares then [F] else []) ++ rest)
              `sublist_of` (order_key <$> r :: q)) as Hsub.
  { intros rest Hrest. rewrite fmap_app, fmap_cons.
    destruct (0 <? shares); simpl.
    - by apply sublist_skip.
    - by apply sublist_cons. }
  assert (∀ rest, Forall (λ x, 0 < fill_qty x) rest →
            Forall (λ x, 0 < fill_qty x)
                   ((if 0 <? shares then [F] else []) ++ rest)) as Hpos.
  { intros rest Hrest. apply Forall_app. split; [|done].
    destruct (0 <? shares) eqn:E; constructor; [|constructor].
    simpl. by apply Z.ltb_lt. }
  assert (in_range order → in_range r →
            in_range order1 ∧
            total_filled (if 0 <? shares then [F] else [])
            = qty order - qty order1) as Hqty.
  { unfold in_range. intros Ho Hr. simpl.
    assert (0 ≤ shares ≤ qty order) by (subst shares; lia).
    rewrite uint16_small by lia. split; [lia|].
    destruct (0 <? shares) eqn:E; simpl; [lia|].
    apply Z.ltb_ge in E. lia. }
  assert ((if 0 <? shares then fills ++ [F] else fills)
          = fills ++ (if 0 <? shares then [F] else [])) as ->.
  { destruct (0 <? shares); [done | by rewrite app_nil_r]. }
  destruct (qty order1 =? 0) eqn:E.
  - intros [= <- _ <- _]. exists (if 0 <? shares then [F] else []).
    split_and!.
    + done.
    + specialize (Hsub [] (sublist_nil_l _)). by rewrite app_nil_r in Hsub.
    + specialize (Hpos [] (Forall_nil_2 _)). by rewrite app_nil_r in Hpos.
    + intros Ho [Hr _]%Forall_cons. destruct (Hqty Ho Hr) as [? ?]. done.
  - destruct (cross_queue order1 q _ _) as [[[o2 q2] f2] k2] eqn:Hrec.
    intros [= <- _ <- _].
    apply IH in Hrec as (new & -> & Hnew & Hnewpos & Hnewqty).
    exists ((if 0 <? shares then [F] else []) ++ new).
    split_and!.
    + by rewrite app_assoc.
    + by apply Hsub.
    + by apply Hpos.
    + intros Ho [Hr Hq]%Forall_cons. destruct (Hqty Ho Hr) as [Ho1 Htot].
      destruct (Hnewqty Ho1 Hq) as [Htot' ?]. split; [|done].
      rewrite total_filled_app. lia.
Qed.

Lemma visited_cons mk p q levels :
  visited mk ((p, q) :: levels)
  = (if mk p then q else []) ++ visited mk levels.
Proof.
  unfold visited. destruct (mk p) eqn:E.
  - by rewrite filter_cons_True.
  - rewrite filter_cons_False; [done|]. simpl. by rewrite E.
Qed.

Lemma cross_levels_fills mk levels order fills d o ls f d' :
  cross_levels mk levels order fills d = (o, ls, f, d') →
  ∃ new,
    f = fills ++ new ∧
    (fill_key <$> new) `sublist_of` (order_key <$> visited mk levels) ∧
    Forall (λ x, 0 < fill_qty x) new ∧
    (in_range order → (∀ p q, (p, q) ∈ levels → Forall in_range q) →
     total_filled new = qty order - qty o ∧ in_range o).
Proof.
  revert order fills d o ls f d'.
  induction levels as [|[p q] levels IH]; intros order fills d o ls f d'.
  { simpl. intros [= <- _ <- _]. exists []. rewrite app_nil_r.
    split_and!; [done | done | constructor |]. intros ? _. split; [simpl; lia | done]. }
  cbn [cross_levels]. cbv zeta. rewrite visited_cons.
  destruct (if mk p then _ else _) as [[o1 q1] f1] eqn:Hlevel.
  assert (∃ new1, f1 = fills ++ new1 ∧
            (fill_key <$> new1) `sublist_of` (order_key <$> if mk p then q else []) ∧
            Forall (λ x, 0 < fill_qty x) new1 ∧
            (in_range order → Forall in_range q →
             total_filled new1 = qty order - qty o1 ∧ in_range o1))
    as (new1 & -> & Hsub1 & Hpos1 & Hqty1).
  { destruct (mk p).
    - destruct (cross_queue order q fills 0) as [[[o2 q2] f2] k2] eqn:Hq.
      injection Hlevel as <- <- <-. by eapply cross_queue_fills.
    - injection Hlevel as <- <- <-. exists []. rewrite app_nil_r.
      split_and!; [done | done | constructor |].
      intros ? _. split; [simpl; lia | done]. }
  destruct (qty o1 =? 0).
  - intros [= <- _ <- _]. exists new1. split_and!; [done | | done |].
    + rewrite fmap_app. by apply sublist_inserts_r.
    + intros Ho Hlv. apply Hqty1; [done|]. apply (Hlv p q). left.
  - destruct (cross_levels mk levels o1 _ _) as [[[o2 l2] f2] d2] eqn:Hrec.
    intros [= <- _ <- _].
    apply IH in Hrec as (new & -> & Hsub & Hpos & Hqty).
    exists (new1 ++ new). split_and!.
    + by rewrite app_assoc.
    + rewrite !fmap_app. by apply sublist_app.
    + by apply Forall_app.
    + intros Ho Hlv.
      destruct (Hqty1 Ho) as [Htot1 Ho1]; [apply (Hlv p q); left|].
      destruct (Hqty Ho1) as [Htot ?].
      { intros p' q' Hin. apply (Hlv p' q'). by right. }
      split; [|done]. rewrite total_filled_app. lia.
Qed.

Lemma fillOrder_fills order ob o f ob' :
  _fillOrder order ob = (o, f, ob') →
  (fill_key <$> f)
    `sublist_of` (order_key <$> in_reach order
                    (StdMap.at_default (symbol order) empty_Sides ob)) ∧
  Forall (λ x, 0 < fill_qty x) f ∧
  (in_range order →
   (∀ s p q,
      (p, q) ∈ levels_of s (StdMap.at_default (symbol order) empty_Sides ob) →
      Forall in_range q) →
   total_filled f = qty order - qty o ∧ in_range o).
Proof.
  unfold _fillOrder, _fillBid, _fillAsk, in_reach. intros Hfill.
  set (sides := StdMap.at_default (symbol order) empty_Sides ob) in *.
  destruct (side order);
    destruct (cross_levels _ _ order [] []) as [[[o1 ls] f1] d] eqn:Hloop;
    injection Hfill as <- <- <-;
    apply cross_levels_fills in Hloop as (new & -> & Hsub & Hpos & Hqty);
    (split_and!; [done | done |]); intros Ho Hlv; apply Hqty; try done.
  - intros p q Hin. by apply (Hlv SELL p q).
  - intros p q Hin. rewrite elem_of_reverse in Hin. by apply (Hlv BUY p q).
Qed.

(** ** The invariant of the engine *)

Lemma orders_at_app sym s p h1 h2 :
  orders_at sym s p (h1 ++ h2) = orders_at sym s p h1 ++ orders_at sym s p h2.
Proof. apply filter_app. Qed.

Lemma queue_ok_grow history more sym s p q :
  queue_ok history sym s p q → queue_ok (history ++ more) sym s p q.
Proof.
  intros (Hne & Hsub & Hq). split_and!; [done| |done].
  rewrite orders_at_app, fmap_app. by apply sublist_inserts_r.
Qed.

Lemma sides_ok_grow history more sym sides :
  sides_ok history sym sides → sides_ok (history ++ more) sym sides.
Proof. intros Hs s p q Hin. by apply queue_ok_grow, (Hs s). Qed.

Lemma book_ok_grow history more ob :
  book_ok history ob → book_ok (history ++ more) ob.
Proof. intros Hob sym sides Hin. by apply sides_ok_grow, Hob. Qed.

Lemma sides_ok_empty history sym : sides_ok history sym empty_Sides.
Proof. intros [] p q []%elem_of_nil. Qed.

Lemma book_ok_at history ob sym :
  book_ok history ob →
  sides_ok history sym (StdMap.at_default sym empty_Sides ob).
Proof.
  intros Hob. unfold StdMap.at_default.
  destruct (StdMap.find sym ob) as [sides|] eqn:E; simpl.
  - apply Hob. by apply find_elem_of.
  - apply sides_ok_empty.
Qed.

Lemma book_ok_assign history ob sym sides :
  book_ok history ob → sides_ok history sym sides →
  book_ok history (StdMap.assign sym sides ob).
Proof.
  intros Hob Hs sym' sides' [[= -> ->]|Hin]%elem_of_assign; [done|].
  by apply Hob.
Qed.

Lemma levels_of_with_levels s lv sides :
  levels_of s (with_levels s lv sides) = lv.
Proof. by destruct s. Qed.

Lemma levels_of_with_levels_ne s s' lv sides :
  s ≠ s' → levels_of s (with_levels s' lv sides) = levels_of s sides.
Proof. by destruct s, s'. Qed.

Lemma Forall_of_sublist {A} (P : A → Prop) (l1 l2 : list A) :
  l1 `sublist_of` l2 → Forall P l2 → Forall P l1.
Proof.
  rewrite !Forall_forall. intros Hsub Hl2 x Hx. apply Hl2.
  by eapply elem_of_sublist.
Qed.

Lemma cross_queue_in_range order queue fills n o q f n' :
  cross_queue order queue fills n = (o, q, f, n') →
  Forall in_range queue → Forall in_range q.
Proof.
  revert order fills n o q f n'.
  induction queue as [|r queue IH]; simpl; intros order fills n o q f n'.
  - by intros [= _ <- _ _].
  - intros Hq [Hr Hqueue]%Forall_cons.
    assert (in_range (set_qty r (uint16 (qty r - Z.min (qty r) (qty order)))))
      as Hr1 by apply uint16_range.
    destruct (uint16 (qty order - _) =? 0) eqn:E.
    + injection Hq as _ <- _ _. by constructor.
    + destruct (cross_queue _ queue _ _) as [[[o1 q1] f1] n1] eqn:Hrec.
      injection Hq as _ <- _ _. constructor; [done|]. by eapply IH.
Qed.

(** The queues that the loop over the levels leaves hold 16-bit
    quantities, and the price of every queue it has emptied is noted for
    removal. *)
Lemma cross_levels_ok mk levels order fills d o ls f d' :
  cross_levels mk levels order fills d = (o, ls, f, d') →
  (∀ p q, (p, q) ∈ levels → q ≠ [] ∧ Forall in_range q) →
  ∀ p q, (p, q) ∈ ls → Forall in_range q ∧ (q = [] → p ∈ d').
Proof.
  revert order fills d o ls f d'.
  induction levels as [|[p q] levels IH]; simpl; intros order fills d o ls f d'.
  { intros [= _ <- _ _] _ p q []%elem_of_nil. }
  destruct (if mk p then _ else _) as [[o1 q1] f1] eqn:Hlevel.
  intros Hloop Hlv.
  assert (Forall in_range q1) as Hq1.
  { destruct (Hlv p q) as [_ Hq]; [left|].
    destruct (mk p).
    - destruct (cross_queue order q fills 0) as [[[o2 q2] f2] n2] eqn:Hcross.
      injection Hlevel as <- <- <-. rewrite pop_back_n_take. apply Forall_take.
      by eapply cross_queue_in_range.
    - by injection Hlevel as <- <- <-. }
  assert (q1 = [] → p ∈ match q1 with [] => d ++ [p] | _ => d end) as Hd1.
  { intros ->. apply elem_of_app. right. left. }
  assert (∀ p' q', (p', q') ∈ levels → q' ≠ [] ∧ Forall in_range q') as Hlv'.
  { intros p' q' Hin. apply (Hlv p' q'). by right. }
  destruct (qty o1 =? 0).
  - injection Hloop as _ <- _ <-. intros p' q' [[= -> ->]|Hin]%elem_of_cons.
    + done.
    + destruct (Hlv' p' q' Hin) as [? ?]. done.
  - destruct (cross_levels mk levels o1 _ _) as [[[o2 l2] f2] d2] eqn:Hrec.
    injection Hloop as _ <- _ <-. intros p' q' [[= -> ->]|Hin]%elem_of_cons.
    + split; [done|]. intros Hnil.
      eapply cross_levels_drop_mono; [done|]. by apply Hd1.
    + by eapply IH.
Qed.

Lemma fillOrder_ok history order ob o f ob' :
  _fillOrder order ob = (o, f, ob') →
  book_ok history ob → book_ok history ob'.
Proof.
  intros Hfill Hob.
  pose proof (book_ok_at _ _ (symbol order) Hob) as Hsides.
  unfold _fillOrder, _fillBid, _fillAsk in Hfill.
  set (sides := StdMap.at_default (symbol order) empty_Sides ob) in *.
  destruct (side order);
    destruct (cross_levels _ _ order [] []) as [[[o1 ls] f1] d] eqn:Hloop;
    injection Hfill as <- <- <-;
    (apply book_ok_assign; [done|]); intros [] p q Hin; simpl in Hin.
  - by apply (Hsides BUY).
  - apply elem_of_erase_levels in Hin as [Hin _]. by apply (Hsides SELL).
  - apply elem_of_erase_levels in Hin as [Hin Hd].
    rewrite elem_of_reverse in Hin. simpl in Hd.
    destruct (cross_levels_shrink _ _ _ _ _ _ _ _ _ Hloop p q Hin)
      as (q0 & Hq0 & Hsub).
    rewrite elem_of_reverse in Hq0.
    destruct (Hsides BUY p q0 Hq0) as (_ & Hsub0 & _).
    destruct (cross_levels_ok _ _ _ _ _ _ _ _ _ Hloop) with (p := p) (q := q)
      as [Hrange Hempty]; [|done|].
    { intros p' q' Hin'. rewrite elem_of_reverse in Hin'.
      by destruct (Hsides BUY p' q' Hin') as (? & _ & ?). }
    split_and!; [intros ->; by apply Hd, Hempty | by etrans | done].
  - by apply (Hsides SELL).
Qed.

(** The queue that an order joins holds it last. *)
Lemma queue_ok_join history order q0 o1 :
  o1 = set_qty order (qty o1) → in_range o1 →
  q0 = [] ∨ queue_ok history (symbol order) (side order) (px order) q0 →
  queue_ok (history ++ [order]) (symbol order) (side order) (px order)
           (q0 ++ [o1]).
Proof.
  intros Ho1 Hrange Hq0. split_and!.
  - by destruct q0.
  - rewrite orders_at_app, !fmap_app. apply sublist_app.
    + destruct Hq0 as [->|(_ & ? & _)]; [apply sublist_nil_l | done].
    + unfold orders_at. rewrite filter_cons_True by done. by rewrite Ho1.
  - apply Forall_app. split; [|by apply Forall_singleton].
    destruct Hq0 as [->|(_ & _ & ?)]; [apply Forall_nil_2 | done].
Qed.

Lemma placeOrderExistingSymbol_ok history order ob o f ob' :
  _placeOrderExistingSymbol order ob = (o, f, ob') →
  in_range order → book_ok history ob →
  book_ok (history ++ [order]) ob'.
Proof.
  unfold _placeOrderExistingSymbol. intros Hplace Horder Hob.
  destruct (_fillOrder order ob) as [[o1 f1] ob1] eqn:Hfill.
  pose proof (fillOrder_order _ _ _ _ _ Hfill) as Ho1.
  pose proof (fillOrder_fills _ _ _ _ _ Hfill) as (_ & _ & Hqty).
  destruct Hqty as [_ Hrange]; [done| |].
  { intros s p q Hin.
    by destruct (book_ok_at _ _ (symbol order) Hob s p q Hin) as (_ & _ & ?). }
  apply (fillOrder_ok history) in Hfill; [|done].
  assert (symbol o1 = symbol order ∧ side o1 = side order ∧ px o1 = px order)
    as (Hsym & Hside & Hpx) by (by rewrite Ho1).
  destruct (qty o1 =? 0).
  { injection Hplace as <- <- <-. by apply book_ok_grow. }
  injection Hplace as <- <- <-. rewrite Hsym, Hside, Hpx.
  pose proof (book_ok_at _ _ (symbol order) Hfill) as Hsides.
  set (sides := StdMap.at_default (symbol order) empty_Sides ob1) in *.
  apply book_ok_assign; [by apply book_ok_grow|].
  intros s p q Hin.
  destruct (decide (s = side order)) as [->|Hne].
  - rewrite levels_of_with_levels in Hin.
    destruct (StdMap.find (px order) (levels_of (side order) sides))
      as [q0|] eqn:Hfind.
    + apply elem_of_assign in Hin as [[= -> ->]|Hin];
        [|by apply queue_ok_grow, (Hsides (side order))].
      apply queue_ok_join; [done..|]. right.
      apply (Hsides (side order)). by apply find_elem_of.
    + apply elem_of_insert in Hin as [[= -> ->]|Hin];
        [|by apply queue_ok_grow, (Hsides (side order))].
      apply (queue_ok_join history order [] o1); auto.
  - rewrite levels_of_with_levels_ne in Hin by done.
    by apply queue_ok_grow, (Hsides s).
Qed.

Lemma placeOrderNewSymbol_ok history order ob :
  in_range order → book_ok history ob →
  book_ok (history ++ [order]) (_placeOrderNewSymbol order ob).
Proof.
  intros Horder Hob sym sides [[= -> ->]|Hin]%elem_of_insert.
  - assert (queue_ok (history ++ [order]) (symbol order) (side order)
                     (px order) [order]) as Hq.
    { apply (queue_ok_join history order [] order);
        [by destruct order | done | by left]. }
    intros s p q Hin. destruct (side order) eqn:Hside, s; simpl in Hin;
      try (by apply elem_of_nil in Hin);
      apply list_elem_of_singleton in Hin as [= -> ->]; done.
  - by apply sides_ok_grow, Hob.
Qed.

Lemma placeOrder_book_ok history order sc f sc' :
  _placeOrder order sc = Returns (f, sc') →
  in_range order → book_ok history (orderBook sc) →
  book_ok (history ++ [order]) (orderBook sc').
Proof.
  unfold _placeOrder. intros Hplace Horder Hob.
  destruct (_validateOrderId _ _); simpl in Hplace; try done.
  destruct (StdMap.find (symbol order) (orderBook sc)).
  - destruct (_placeOrderExistingSymbol order (orderBook sc))
      as [[o1 f1] ob1] eqn:E.
    injection Hplace as <- <-. simpl.
    by eapply placeOrderExistingSymbol_ok.
  - injection Hplace as <- <-. simpl. by apply placeOrderNewSymbol_ok.
Qed.

(** ** What a place and a cancel do to the book and the cache *)

Lemma queue_at_assign sym sides s p (ob : OrderBook) :
  queue_at sym s p (StdMap.assign sym sides ob)
  = StdMap.at_default p [] (levels_of s sides).
Proof. unfold queue_at, StdMap.at_default. by rewrite find_assign. Qed.

Lemma queue_at_assign_ne sym sym' sides s p (ob : OrderBook) :
  sym ≠ sym' →
  queue_at sym' s p (StdMap.assign sym sides ob) = queue_at sym' s p ob.
Proof.
  intros Hne. unfold queue_at, StdMap.at_default. by rewrite find_assign_ne.
Qed.

Lemma fillOrder_book order ob o f ob' :
  _fillOrder order ob = (o, f, ob') →
  ∃ sides',
    ob' = StdMap.assign (symbol order) sides' ob ∧
    levels_of (side order) sides'
    = levels_of (side order) (StdMap.at_default (symbol order) empty_Sides ob).
Proof.
  unfold _fillOrder, _fillBid, _fillAsk. intros Hfill.
  destruct (side order);
    destruct (cross_levels _ _ order [] []) as [[[o1 ls] f1] d];
    injection Hfill as <- <- <-; by eexists.
Qed.

(** What a call of [_placeOrder] that returns has done, in terms of the
    order [o1] as the matching left it: the cache has [o1] when it has
    shares left; the fills name resting orders within reach, in the order
    the loops reach them, and add up to what the order lost; the entries
    of the other symbols are as they were; and on the order's own side
    the only change is that [o1] stands last in the queue of its price,
    when it has shares left or its symbol is new. *)
Lemma placeOrder_inv order sc f sc' :
  _placeOrder order sc = Returns (f, sc') →
  ∃ o1,
    o1 = set_qty order (qty o1) ∧
    orderCache sc !! oid order = None ∧
    orderCache sc'
    = (if qty o1 =? 0 then orderCache sc
       else <[oid order := o1]> (orderCache sc)) ∧
    (fill_key <$> f)
      `sublist_of` (order_key <$> in_reach order
                      (StdMap.at_default (symbol order) empty_Sides
                         (orderBook sc))) ∧
    Forall (λ x, 0 < fill_qty x) f ∧
    (in_range order →
     (∀ s p q,
        (p, q) ∈ levels_of s (StdMap.at_default (symbol order) empty_Sides
                                (orderBook sc)) →
        Forall in_range q) →
     total_filled f = qty order - qty o1 ∧ in_range o1) ∧
    is_Some (StdMap.find (symbol order) (orderBook sc')) ∧
    (∀ sym, sym ≠ symbol order →
       StdMap.find sym (orderBook sc') = StdMap.find sym (orderBook sc)) ∧
    (∀ p,
       queue_at (symbol order) (side order) p (orderBook sc')
       = queue_at (symbol order) (side order) p (orderBook sc)
         ++ (if bool_decide (p = px order)
                && negb ((qty o1 =? 0)
                         && bool_decide (symbol order
                                         ∈ StdMap.keys (orderBook sc)))
             then [o1] else [])).
Proof.
  unfold _placeOrder, _validateOrderId. intros Hplace.
  destruct (orderCache sc !! oid order) eqn:Hcache; [done|]. simpl in Hplace.
  assert (∀ o1 : Order, o1 = set_qty order (qty o1) →
            (if qty o1 =? 0 then orderCache sc
             else cache_insert o1 (orderCache sc))
            = (if qty o1 =? 0 then orderCache sc
               else <[oid order := o1]> (orderCache sc))) as Hins.
  { intros o1 Ho1. destruct (qty o1 =? 0); [done|]. unfold cache_insert.
    assert (oid o1 = oid order) as -> by (by rewrite Ho1).
    by rewrite Hcache. }
  destruct (StdMap.find (symbol order) (orderBook sc)) as [sides0|] eqn:Hfind.
  - assert (symbol order ∈ StdMap.keys (orderBook sc)) as Hknown
      by (apply keys_find; by rewrite Hfind).
    unfold _placeOrderExistingSymbol in Hplace.
    destruct (_fillOrder order (orderBook sc)) as [[o1 f1] ob1] eqn:Hfill.
    pose proof (fillOrder_order _ _ _ _ _ Hfill) as Ho1.
    pose proof (fillOrder_book _ _ _ _ _ Hfill) as (sides1 & -> & Hown).
    apply fillOrder_fills in Hfill as (Hsub & Hpos & Hqty).
    pose proof (Hins o1 Ho1) as Hcache'. exists o1.
    assert (symbol o1 = symbol order ∧ side o1 = side order ∧ px o1 = px order)
      as (Hsym & Hside & Hpx) by (by rewrite Ho1).
    rewrite (bool_decide_eq_true_2 _ Hknown), andb_true_r.
    destruct (qty o1 =? 0) eqn:E; injection Hplace as <- <-; simpl;
      rewrite ?E, ?Hsym, ?Hside, ?Hpx; (split_and!; [done..| | |]).
    + by rewrite find_assign.
    + intros sym Hne. by rewrite find_assign_ne.
    + intros p. rewrite andb_false_r, app_nil_r, queue_at_assign, Hown. done.
    + by rewrite find_assign.
    + intros sym Hne. by rewrite !find_assign_ne.
    + intros p. rewrite queue_at_assign, levels_of_with_levels.
      assert (StdMap.at_default (symbol order) empty_Sides
                (StdMap.assign (symbol order) sides1 (orderBook sc)) = sides1)
        as -> by (unfold StdMap.at_default; by rewrite find_assign).
      rewrite Hown. unfold queue_at.
      set (L := levels_of (side order)
                  (StdMap.at_default (symbol order) empty_Sides (orderBook sc))).
      rewrite andb_true_r. unfold StdMap.at_default.
      destruct (decide (p = px order)) as [->|Hne].
      * rewrite bool_decide_eq_true_2 by done.
        destruct (StdMap.find (px order) L) as [q0|] eqn:HL; simpl.
        -- by rewrite find_assign.
        -- by rewrite find_insert_absent.
      * rewrite bool_decide_eq_false_2, app_nil_r by done.
        destruct (StdMap.find (px order) L) as [q0|] eqn:HL; simpl.
        -- by rewrite find_assign_ne.
        -- by rewrite find_insert_ne.
  - assert (symbol order ∉ StdMap.keys (orderBook sc)) as Hnew
      by (by apply find_None_keys).
    injection Hplace as <- <-. simpl. exists order.
    assert (order = set_qty order (qty order)) as Ho by (by destruct order).
    rewrite <- (Hins order Ho).
    rewrite (bool_decide_eq_false_2 _ Hnew), andb_false_r. cbn [negb].
    unfold _placeOrderNewSymbol.
    split_and!; [done | done | done | apply sublist_nil_l | constructor | | | |].
    + intros ? _. split; [simpl; lia | done].
    + by rewrite find_insert_absent.
    + intros sym Hne. by rewrite find_insert_ne.
    + intros p. unfold queue_at, StdMap.at_default.
      rewrite find_insert_absent, Hfind by done. simpl.
      destruct (decide (p = px order)) as [->|Hne].
      * rewrite bool_decide_eq_true_2 by done.
        destruct (side order); simpl; by rewrite same_key_refl.
      * rewrite bool_decide_eq_false_2 by done.
        destruct (side order); simpl; by rewrite same_key_ne.
Qed.


Lemma erase_oid_None o queue :
  erase_oid o queue = None ↔ Forall (λ x, oid x ≠ o) queue.
Proof.
  induction queue as [|order queue IH]; simpl.
  - split; [constructor | done].
  - destruct (oid order =? o) eqn:E.
    + apply Z.eqb_eq in E. split; [done|]. by intros [? _]%Forall_cons.
    + apply Z.eqb_neq in E. rewrite Forall_cons, <- IH.
      destruct (erase_oid o queue); simpl; split; try done. by intros [_ ?].
Qed.

(** What a call of [_cancelOrder] that returns has done: nothing, for an
    identifier that the cache does not have; otherwise the queue under the
    cached symbol, side and price has lost one order, and every other
    queue and every entry of the cache are as they were. *)
Lemma cancelOrder_inv o sc b sc' :
  _cancelOrder o sc = Returns (b, sc') →
  (orderCache sc !! o = None ∧ b = false ∧ sc' = sc) ∨
  ∃ order queue',
    orderCache sc !! o = Some order ∧ b = true ∧
    orderCache sc' = orderCache sc ∧
    erase_oid o (queue_at (symbol order) (side order) (px order) (orderBook sc))
    = Some queue' ∧
    queue_at (symbol order) (side order) (px order) (orderBook sc') = queue' ∧
    is_Some (StdMap.find (symbol order) (orderBook sc')) ∧
    (∀ sym, sym ≠ symbol order →
       StdMap.find sym (orderBook sc') = StdMap.find sym (orderBook sc)) ∧
    (∀ sym s p, (sym, s, p) ≠ (symbol order, side order, px order) →
       queue_at sym s p (orderBook sc') = queue_at sym s p (orderBook sc)).
Proof.
  unfold _cancelOrder. intros Hcancel.
  destruct (orderCache sc !! o) as [order|];
    [right | left; by injection Hcancel as <- <-].
  fold (queue_at (symbol order) (side order) (px order) (orderBook sc))
    in Hcancel.
  destruct (erase_oid o _) as [q|] eqn:Hq; [|done].
  injection Hcancel as <- <-. simpl. exists order, q.
  set (sides := StdMap.at_default (symbol order) empty_Sides (orderBook sc)).
  set (lv := match q with [] => _ | _ => _ end).
  assert (StdMap.at_default (px order) [] lv = q) as Hlv.
  { subst lv. unfold StdMap.at_default. destruct q.
    - by rewrite find_erase.
    - by rewrite find_assign. }
  assert (∀ p, p ≠ px order →
            StdMap.at_default p [] lv
            = StdMap.at_default p [] (levels_of (side order) sides)) as Hlv'.
  { intros p Hne. subst lv. unfold StdMap.at_default. destruct q.
    - by rewrite find_erase_ne.
    - by rewrite find_assign_ne. }
  split_and!; [done..| | | |].
  - by rewrite queue_at_assign, levels_of_with_levels.
  - by rewrite find_assign.
  - intros sym Hne. by rewrite find_assign_ne.
  - intros sym s p Hne.
    destruct (decide (sym = symbol order)) as [->|Hsym];
      [|by rewrite queue_at_assign_ne].
    rewrite queue_at_assign. unfold queue_at. fold sides.
    destruct (decide (s = side order)) as [->|Hside];
      [|by rewrite levels_of_with_levels_ne].
    rewrite levels_of_with_levels. apply Hlv'. congruence.
Qed.

Lemma placeOrder_cache_ok history order sc f sc' :
  _placeOrder order sc = Returns (f, sc') →
  in_range order → book_ok history (orderBook sc) →
  cache_ok history (orderCache sc) →
  cache_ok (history ++ [order]) (orderCache sc').
Proof.
  intros (o1 & Ho1 & Hnone & -> & _ & _ & Hqty & _)%placeOrder_inv
         Horder Hob Hcache.
  destruct Hqty as [_ Hrange]; [done| |].
  { intros s p q Hin.
    by destruct (book_ok_at _ _ (symbol order) Hob s p q Hin) as (_ & _ & ?). }
  assert (cache_ok (history ++ [order]) (orderCache sc)) as Hgrow.
  { intros k o (? & ? & ? & Hin)%Hcache. split_and!; [done..|].
    rewrite fmap_app. apply elem_of_app. by left. }
  destruct (qty o1 =? 0) eqn:E; [done|]. apply Z.eqb_neq in E.
  intros k o. destruct (decide (k = oid order)) as [->|Hne].
  - rewrite lookup_insert_eq. intros [= <-].
    split_and!; [by rewrite Ho1 | done | done |].
    rewrite fmap_app. apply elem_of_app. right.
    apply list_elem_of_singleton. by rewrite Ho1.
  - rewrite lookup_insert_ne by done. apply Hgrow.
Qed.

Lemma cancelOrder_book_ok history o sc b sc' :
  _cancelOrder o sc = Returns (b, sc') →
  book_ok history (orderBook sc) → book_ok history (orderBook sc').
Proof.
  unfold _cancelOrder. intros Hcancel Hob.
  destruct (orderCache sc !! o) as [order|]; [|by injection Hcancel as <- <-].
  pose proof (book_ok_at _ _ (symbol order) Hob) as Hsides.
  set (sides := StdMap.at_default (symbol order) _ _) in *.
  destruct (erase_oid o _) as [q|] eqn:Hq; [|done].
  injection Hcancel as <- <-. simpl.
  apply book_ok_assign; [done|].
  intros s p' q' Hin.
  destruct (decide (s = side order)) as [->|Hne];
    [|rewrite levels_of_with_levels_ne in Hin by done; by apply (Hsides s)].
  rewrite levels_of_with_levels in Hin.
  unfold StdMap.at_default in Hq.
  destruct (StdMap.find (px order) (levels_of (side order) sides))
    as [q0|] eqn:Hfind; [|done].
  simpl in Hq. apply find_elem_of in Hfind. apply erase_oid_sublist in Hq.
  destruct q as [|r q].
  - apply elem_of_erase in Hin as [Hin _]. by apply (Hsides (side order)).
  - apply elem_of_assign in Hin as [[= -> ->]|Hin];
      [|by apply (Hsides (side order))].
    destruct (Hsides (side order) _ _ Hfind) as (_ & Hsub & Hrange).
    split_and!; [done | | by eapply Forall_of_sublist].
    etrans; [|done]. by apply fmap_sublist.
Qed.

Lemma placeOrder_ok history order sc f sc' :
  _placeOrder order sc = Returns (f, sc') →
  in_range order → engine_ok history sc →
  engine_ok (history ++ [order]) sc'.
Proof.
  intros Hplace Horder (Hsorted & Hbook & Hcache & Hsyms & _). split_and!.
  - by eapply placeOrder_sorted.
  - by eapply placeOrder_book_ok.
  - by eapply placeOrder_cache_ok.
  - apply placeOrder_inv in Hplace
      as (o1 & _ & _ & _ & _ & _ & _ & Hsome & Hframe & _).
    intros o' [Hin| ->%list_elem_of_singleton]%elem_of_app; apply keys_find.
    + destruct (decide (symbol o' = symbol order)) as [->|Hne]; [done|].
      rewrite Hframe by done. by apply keys_find, Hsyms.
    + done.
  - intros Hnil. by destruct history.
Qed.

Lemma cancelOrder_ok history o sc b sc' :
  _cancelOrder o sc = Returns (b, sc') →
  engine_ok history sc → engine_ok history sc'.
Proof.
  intros Hcancel (Hsorted & Hbook & Hcache & Hsyms & Hinit). split_and!.
  - by eapply cancelOrder_sorted.
  - by eapply cancelOrder_book_ok.
  - apply cancelOrder_inv in Hcancel
      as [(_ & _ & ->)|(order & q & _ & _ & -> & _)]; done.
  - apply cancelOrder_inv in Hcancel
      as [(_ & _ & ->)|(order & q & _ & _ & _ & _ & _ & Hsome & Hframe & _)];
      [done|].
    intros o' Hin. apply keys_find.
    destruct (decide (symbol o' = symbol order)) as [->|Hne]; [done|].
    rewrite Hframe by done. by apply keys_find, Hsyms.
  - intros Hnil. specialize (Hinit Hnil). subst sc.
    apply cancelOrder_inv in Hcancel
      as [(_ & _ & ->)|(order & q & Hsome & _)]; [done|].
    change (orderCache initial) with (∅ : gmap Z Order) in Hsome.
    by rewrite lookup_empty in Hsome.
Qed.

(** The casts of [action] bring the identifier into 32 bits and the
    quantity into 16. *)
Lemma make_order_well_formed instructions order :
  make_order instructions = Returns order → well_formed order.
Proof.
  unfold make_order. intros Hmake. bind_inv Hmake.
  unfold Order_ctor in Hmake.
  repeat (destruct (Ascii.eqb _ _);
          [injection Hmake as <-;
           split; [simpl; unfold uint32; apply Z.mod_pos_bound; lia
                  |apply uint16_range] |]).
  done.
Qed.

Lemma placed_order_well_formed line order :
  placed_order line = Some order → well_formed order.
Proof.
  unfold placed_order.
  destruct (_ ≫= _) as [act| | |]; try done.
  destruct (Ascii.eqb act "O"); [|done].
  destruct (make_order _) as [o| | |] eqn:Hmake; try done.
  intros [= <-]. by eapply make_order_well_formed.
Qed.

Lemma engine_ok_initial : engine_ok [] initial.
Proof.
  split_and!.
  - split; constructor.
  - intros sym sides []%elem_of_nil.
  - intros k o. change (orderCache initial) with (∅ : gmap Z Order).
    by rewrite lookup_empty.
  - intros o []%elem_of_nil.
  - done.
Qed.

Lemma action_ok history line sc d :
  action line sc = Returns d →
  engine_ok history sc →
  engine_ok (history ++ placed [line]) (state d).
Proof.
  rewrite placed_cons.
  intros (_ & [(order & fills & Hline & Hplace & _)
              |(-> & [(o & c & Hcancel & _)| ->])])%action_inv Hsc.
  - rewrite Hline. apply placed_order_well_formed in Hline as [_ Horder].
    by eapply placeOrder_ok.
  - rewrite !app_nil_r. by eapply cancelOrder_ok.
  - by rewrite !app_nil_r.
Qed.

Lemma run_ok lines sc out out' sc' history :
  run lines sc out = Returns (out', sc') →
  engine_ok history sc →
  engine_ok (history ++ placed lines) sc'.
Proof.
  revert sc out history.
  induction lines as [|line lines IH]; intros sc out history.
  - intros [= _ <-] Hob. by rewrite app_nil_r.
  - intros (d & Hd & Hrun)%bind_Returns Hsc.
    rewrite placed_cons, app_assoc. eapply IH; [done|].
    apply (action_ok history) in Hd; [|done].
    by rewrite placed_cons, app_nil_r in Hd.
Qed.

Lemma reachable_ok lines out sc :
  run lines initial [] = Returns (out, sc) → engine_ok (placed lines) sc.
Proof.
  intros Hrun. apply (run_ok _ _ _ _ _ []) in Hrun; [done|].
  apply engine_ok_initial.
Qed.

(** ** Splitting a line *)

Lemma append_cons c (s t : string) : String c s +:+ t = String c (s +:+ t).
Proof. done. Qed.

Lemma append_snoc (s : string) c (t : string) :
  (s +:+ char_string c) +:+ t = s +:+ String c t.
Proof. by rewrite append_assoc. Qed.

Lemma has_space_append (s t : string) :
  has_space (s +:+ t) = has_space s || has_space t.
Proof.
  induction s as [|c s IH]; [done|].
  rewrite append_cons. simpl. by rewrite IH, orb_assoc.
Qed.

Lemma splitLine_from_no_space line item :
  has_space item = false →
  Forall (λ t, has_space t = false) (splitLine_from line item).
Proof.
  revert item. induction line as [|c rest IH]; intros item Hitem; simpl.
  - by apply Forall_singleton.
  - destruct (Ascii.eqb c " ") eqn:E.
    + constructor; [done|]. destruct rest; [constructor | by apply IH].
    + apply IH. rewrite has_space_append, Hitem. simpl. by rewrite E.
Qed.

Lemma splitLine_from_nonempty line item : splitLine_from line item ≠ [].
Proof.
  revert item. induction line as [|c rest IH]; intros item; simpl; [done|].
  destruct (Ascii.eqb c " "); [done | apply IH].
Qed.

Lemma concat_cons sep (x : string) (xs : list string) :
  xs ≠ [] → String.concat sep (x :: xs) = x +:+ sep +:+ String.concat sep xs.
Proof. by destruct xs. Qed.

Lemma splitLine_from_join line item :
  String.concat " " (splitLine_from line item)
  +:+ (if ends_with_space line then " " else "")
  = item +:+ line.
Proof.
  revert item. induction line as [|c rest IH]; intros item.
  - simpl. by rewrite !append_nil_r.
  - cbn [splitLine_from]. destruct (Ascii.eqb c " ") eqn:E.
    + apply Ascii.eqb_eq in E as ->. destruct rest as [|c' rest'].
      * done.
      * rewrite concat_cons by apply splitLine_from_nonempty.
        rewrite !append_assoc, IH. done.
    + rewrite <- append_snoc, <- IH. f_equal.
      destruct rest; simpl; by rewrite ?E.
Qed.

Lemma splitLine_from_token t item rest :
  has_space t = false →
  splitLine_from (t +:+ rest) item = splitLine_from rest (item +:+ t).
Proof.
  revert item. induction t as [|c t IH]; intros item.
  - intros _. by rewrite append_nil_r.
  - simpl. intros [E Ht]%orb_false_elim.
    rewrite E, IH by done. by rewrite append_snoc.
Qed.

Lemma concat_not_empty (t : string) (ts : list string) :
  last (t :: ts) ≠ Some "" → String.concat " " (t :: ts) ≠ "".
Proof.
  destruct ts as [|t' ts].
  - simpl. congruence.
  - intros _. rewrite concat_cons by done. by destruct t.
Qed.

Lemma splitLine_from_joined ts t item :
  Forall (λ t, has_space t = false) (t :: ts) →
  last (t :: ts) ≠ Some "" →
  splitLine_from (String.concat " " (t :: ts)) item = (item +:+ t) :: ts.
Proof.
  revert t item. induction ts as [|t' ts IH]; intros t item.
  - intros [Ht _]%Forall_cons _. simpl.
    rewrite <- (append_nil_r t) at 1. by rewrite splitLine_from_token.
  - intros [Ht Hts]%Forall_cons Hlast. rewrite concat_cons by done.
    rewrite splitLine_from_token by done.
    change (" " +:+ String.concat " " (t' :: ts))
      with (String " " (String.concat " " (t' :: ts))).
    cbn [splitLine_from]. simpl Ascii.eqb. cbv iota.
    pose proof (concat_not_empty t' ts Hlast) as Hne.
    pose proof (IH t' "" Hts Hlast) as Hrest.
    destruct (String.concat " " (t' :: ts)); [done|]. by rewrite Hrest.
Qed.

(** ** Orders within reach, and what the cache keeps *)



Lemma as_placed_eq (a b : Order) :
  as_placed a = as_placed b ↔ a = set_qty b (qty a).
Proof.
  destruct a, b. unfold as_placed, set_qty. simpl.
  split; intros [= -> -> -> ->]; done.
Qed.


Lemma action_cache_mono line sc d k o :
  action line sc = Returns d →
  orderCache sc !! k = Some o → orderCache (state d) !! k = Some o.
Proof.
  intros (_ & [(order & fills & _ & Hplace & _)
              |(_ & [(o' & c & Hcancel & _)| ->])])%action_inv Hk.
  - apply placeOrder_inv in Hplace as (o1 & _ & Hnone & -> & _).
    destruct (qty o1 =? 0); [done|].
    rewrite lookup_insert_ne; [done|]. intros <-. congruence.
  - by rewrite (cancelOrder_cache _ _ _ _ Hcancel).
  - done.
Qed.

Lemma run_cache_mono lines sc out out' sc' k o :
  run lines sc out = Returns (out', sc') →
  orderCache sc !! k = Some o → orderCache sc' !! k = Some o.
Proof.
  revert sc out. induction lines as [|line lines IH]; intros sc out.
  - by intros [= _ <-].
  - intros (d & Hd & Hrun)%bind_Returns Hk.
    eapply IH; [done|]. by eapply action_cache_mono.
Qed.

(** ** Tokens *)

(** X1. No token that [_splitLine] returns has a space in it: the line is
    cut at every space. *)
Theorem splitLine_tokens_have_no_space (line : string) :
  Forall (λ token, has_space token = false) (_splitLine line).
Proof.
  destruct line as [|c rest]; [constructor|].
  by apply splitLine_from_no_space.
Qed.

(** X2. Joining the tokens of a line with single spaces gives the line
    back, but for one space at the very end of the line, which
    [_splitLine] drops without opening a last, empty token. *)
Theorem splitLine_join (line : string) :
  String.concat " " (_splitLine line)
  +:+ (if ends_with_space line then " " else "")
  = line.
Proof.
  destruct line as [|c rest]; [done|].
  unfold _splitLine. by rewrite splitLine_from_join.
Qed.

(** X3. A line written as tokens joined by single spaces is split into
    these tokens, provided that no token has a space in it and the last
    one is not empty. *)
Theorem splitLine_of_joined_tokens (tokens : list string) :
  Forall (λ token, has_space token = false) tokens →
  last tokens ≠ Some "" →
  _splitLine (String.concat " " tokens) = tokens.
Proof.
  destruct tokens as [|t ts]; [done|]. intros Htokens Hlast.
  pose proof (concat_not_empty t ts Hlast) as Hne.
  pose proof (splitLine_from_joined ts t "" Htokens Hlast) as Hsplit.
  unfold _splitLine. by destruct (String.concat " " (t :: ts)).
Qed.

Lemma splitLine_of_joined_tokens_witness :
  let tokens := ["O"; "10000"; "IBM"; "B"; "10"; "100.00000"] in
  Forall (λ token, has_space token = false) tokens ∧
  last tokens ≠ Some "" ∧
  _splitLine "O 10000 IBM B 10 100.00000" = tokens.
Proof.
  intros tokens.
  assert (Forall (λ token, has_space token = false) tokens) as Htokens
    by (repeat constructor).
  assert (last tokens ≠ Some "") as Hlast by (simpl; discriminate).
  split_and!; [exact Htokens | exact Hlast |].
  exact (splitLine_of_joined_tokens tokens Htokens Hlast).
Defined.

(** ** What is printed *)

(** X4. Every line that a call of [action] prints is a fill, a cancel
    confirmation, an error or a book line, that is, it starts with [F],
    [X], [E] or [P] and a space; the one exception is the line
    [Book empty!] that a snapshot of an empty book prints. *)
Theorem printed_lines_are_result_lines (line : string) (sc : SimpleCross)
    (d : Done) :
  action line sc = Returns d →
  Forall (λ l, l = "Book empty!" ∨ result_tag l ∈ ["F "; "X "; "E "; "P "])
         (printed d).
Proof.
  unfold action. intros Hact.
  apply bind_Returns in Hact as (i0 & _ & Hact).
  apply bind_Returns in Hact as (act & _ & Hact).
  destruct (Ascii.eqb act "O").
  { apply bind_Returns in Hact as (order & _ & Hact).
    apply bind_Returns in Hact as ([fills sc'] & _ & Hact).
    injection Hact as <-. simpl. unfold _printFills.
    apply Forall_fmap, Forall_forall. intros f _. right. left. }
  destruct (Ascii.eqb act "X").
  { bind_inv Hact.
    match goal with
    | H : _cancelOrder ?o sc = Returns ?r |- _ => destruct r as [cancelled sc']
    end.
    injection Hact as <-. simpl. destruct cancelled; apply Forall_singleton;
      right; [right; left | right; right; left]. }
  destruct (Ascii.eqb act "P"); injection Hact as <-; simpl; [|constructor].
  unfold _printSortedBook. destruct (orderBook sc).
  - apply Forall_singleton. by left.
  - apply Forall_fmap, Forall_forall. intros listed _. right.
    do 3 right. left.
Qed.

Lemma printed_lines_are_result_lines_witness :
  let d := mkDone [] ["E 7 Order ID not on book"] initial in
  action "X 7" initial = Returns d ∧
  Forall (λ l, l = "Book empty!" ∨ result_tag l ∈ ["F "; "X "; "E "; "P "])
         (printed d).
Proof.
  intros d.
  assert (action "X 7" initial = Returns d) as Hact by (vm_compute; reflexivity).
  split; [exact Hact|].
  exact (printed_lines_are_result_lines "X 7" initial d Hact).
Defined.

(** ** The book and the cache after any run *)



(** X6. Whatever lines the program has processed, every entry of the
    cache sits under its own identifier and is an order that was placed,
    with a quantity between 1 and 65535: the shares it had left when it
    came to rest. *)
Theorem cache_entries_after_any_run (lines out : list string)
    (st : SimpleCross) :
  run lines initial [] = Returns (out, st) →
  ∀ k o, orderCache st !! k = Some o →
    oid o = k ∧ 0 < qty o < 65536 ∧
    ∃ order, order ∈ placed lines ∧ o = set_qty order (qty o).
Proof.
  intros (_ & _ & Hcache & _)%reachable_ok k o
         (Hk & Hne & Hrange & Hin)%Hcache.
  split; [done|]. split; [unfold in_range in Hrange; lia|].
  apply list_elem_of_fmap in Hin as (order & Heq & Hin).
  exists order. split; [done|]. by apply (proj1 (as_placed_eq o order)).
Qed.

Lemma cache_entries_after_any_run_witness :
  run sample_lines initial [] = Returns ([], sample_state) ∧
  orderCache sample_state !! 3 = Some sample_bid3 ∧
  oid sample_bid3 = 3 ∧ 0 < qty sample_bid3 < 65536 ∧
  ∃ order, order ∈ placed sample_lines ∧
           sample_bid3 = set_qty order (qty sample_bid3).
Proof.
  assert (run sample_lines initial [] = Returns ([], sample_state)) as Hrun
    by (vm_compute; reflexivity).
  assert (orderCache sample_state !! 3 = Some sample_bid3) as Hcache
    by (vm_compute; reflexivity).
  split; [exact Hrun|]. split; [exact Hcache|].
  exact (cache_entries_after_any_run sample_lines [] sample_state Hrun
           3 sample_bid3 Hcache).
Defined.

(** X7. The cache only grows: an entry is never changed and never
    removed, neither by a cancel nor by a fill; so an identifier that the
    cache holds is refused by [_placeOrder] whatever lines have been
    processed since. *)
Theorem cached_identifier_is_refused_for_ever (lines out out' : list string)
    (sc sc' : SimpleCross) (k : OrderId) (o : Order) :
  run lines sc out = Returns (out', sc') →
  orderCache sc !! k = Some o →
  orderCache sc' !! k = Some o ∧
  ∀ order, oid order = k →
    _placeOrder order sc' = Throws (invalid_argument "Invalid Order ID").
Proof.
  intros Hrun Hk.
  pose proof (run_cache_mono _ _ _ _ _ _ _ Hrun Hk) as Hk'.
  split; [done|]. intros order <-. by eapply placeOrder_duplicate.
Qed.

Lemma cached_identifier_is_refused_for_ever_witness :
  let sc' := mkSimpleCross
               [("IBM", mkSides [(9900000, [sample_bid3]);
                                 (10000000, [sample_bid2])] [])]
               sample_cache in
  run ["X 1"; "P"] sample_state []
  = Returns (["X 1"; "P 2 IBM B 5 100.000000"; "P 3 IBM B 7 99.000000"], sc') ∧
  orderCache sample_state !! 1 = Some sample_bid1 ∧
  orderCache sc' !! 1 = Some sample_bid1 ∧
  ∀ order, oid order = 1 →
    _placeOrder order sc' = Throws (invalid_argument "Invalid Order ID").
Proof.
  intros sc'.
  assert (run ["X 1"; "P"] sample_state []
          = Returns (["X 1"; "P 2 IBM B 5 100.000000";
                      "P 3 IBM B 7 99.000000"], sc')) as Hrun
    by (vm_compute; reflexivity).
  assert (orderCache sample_state !! 1 = Some sample_bid1) as Hcache
    by (vm_compute; reflexivity).
  split; [exact Hrun|]. split; [exact Hcache|].
  exact (cached_identifier_is_refused_for_ever _ _ _ _ _ _ _ Hrun Hcache).
Defined.

(** X8. Cancelling an identifier that no placed order carries changes
    nothing and is answered as not on the book, whatever lines the
    program has processed. *)
Theorem cancel_of_unplaced_identifier (lines out : list string)
    (st : SimpleCross) (o : OrderId) :
  run lines initial [] = Returns (out, st) →
  (∀ order, order ∈ placed lines → oid order ≠ o) →
  _cancelOrder o st = Returns (false, st).
Proof.
  intros (_ & _ & Hcache & _)%reachable_ok Hfresh. unfold _cancelOrder.
  destruct (orderCache st !! o) as [cached|] eqn:Ho; [|done].
  apply Hcache in Ho as (Hoid & _ & _ & Hin).
  apply list_elem_of_fmap in Hin as (order & Heq & Hin).
  apply (proj1 (as_placed_eq cached order)) in Heq.
  exfalso. apply (Hfresh order Hin). by rewrite <- Hoid, Heq.
Qed.

Lemma cancel_of_unplaced_identifier_witness :
  run sample_lines initial [] = Returns ([], sample_state) ∧
  (∀ order, order ∈ placed sample_lines → oid order ≠ 9) ∧
  _cancelOrder 9 sample_state = Returns (false, sample_state).
Proof.
  assert (run sample_lines initial [] = Returns ([], sample_state)) as Hrun
    by (vm_compute; reflexivity).
  assert (∀ order, order ∈ placed sample_lines → oid order ≠ 9) as Hfresh.
  { assert (placed sample_lines = [sample_bid1; sample_bid2; sample_bid3])
      as -> by (vm_compute; reflexivity).
    intros order Hin.
    repeat (apply elem_of_cons in Hin as [->|Hin]; [simpl; lia|]).
    by apply elem_of_nil in Hin. }
  split; [exact Hrun|]. split; [exact Hfresh|].
  exact (cancel_of_unplaced_identifier sample_lines [] sample_state 9
           Hrun Hfresh).
Defined.

(** X9. A snapshot prints [Book empty!] exactly as long as no order has
    been placed: a symbol that has entered the book stays in it, also
    when all its orders are gone, and the snapshot then prints the
    orders left, possibly none. *)
Theorem book_empty_iff_nothing_placed (lines out : list string)
    (st : SimpleCross) :
  run lines initial [] = Returns (out, st) →
  _printSortedBook (orderBook st) = ["Book empty!"] ↔ placed lines = [].
Proof.
  intros (_ & _ & _ & Hsyms & Hinit)%reachable_ok. split.
  - unfold _printSortedBook. destruct (orderBook st) as [|e ob] eqn:Hob.
    + intros _. destruct (placed lines) as [|o h]; [done|].
      exfalso. apply (elem_of_nil (symbol o)). apply Hsyms. left.
    + intros Hprint. exfalso.
      destruct (listing (e :: ob)) as [|listed ls]; [done|].
      injection Hprint as Hline _. unfold book_line in Hline.
      discriminate Hline.
  - intros Hnil. by rewrite (Hinit Hnil).
Qed.

Lemma book_empty_iff_nothing_placed_witness :
  run ["X 1"; "P"] initial []
  = Returns (["E 1 Order ID not on book"; "Book empty!"], initial) ∧
  (_printSortedBook (orderBook initial) = ["Book empty!"]
   ↔ placed ["X 1"; "P"] = []).
Proof.
  assert (run ["X 1"; "P"] initial []
          = Returns (["E 1 Order ID not on book"; "Book empty!"], initial))
    as Hrun by (vm_compute; reflexivity).
  split; [exact Hrun|].
  exact (book_empty_iff_nothing_placed _ _ _ Hrun).
Defined.

(** ** The fills of an incoming order *)

(** X10. The fills of an incoming order follow price and time: they name
    resting orders of the opposite side priced within the order's limit,
    each at most once, best price first (asks from the lowest, bids from
    the highest) and within a price level from the front of the queue. *)
Theorem fills_in_price_time_order (order : Order) (sc : SimpleCross)
    (fills : list Fill) (sc' : SimpleCross) :
  _placeOrder order sc = Returns (fills, sc') →
  (fill_key <$> fills)
    `sublist_of`
    (order_key <$> in_reach order
       (StdMap.at_default (symbol order) empty_Sides (orderBook sc))).
Proof. by intros (o1 & _ & _ & _ & Hsub & _)%placeOrder_inv. Qed.

Lemma fills_in_price_time_order_witness :
  _placeOrder sample_sell sample_state
  = Returns (sample_fills, sample_state_sold) ∧
  (fill_key <$> sample_fills)
    `sublist_of`
    (order_key <$> in_reach sample_sell
       (StdMap.at_default "IBM" empty_Sides (orderBook sample_state))).
Proof.
  assert (_placeOrder sample_sell sample_state
          = Returns (sample_fills, sample_state_sold)) as Hplace
    by (vm_compute; reflexivity).
  split; [exact Hplace|].
  exact (fills_in_price_time_order _ _ _ _ Hplace).
Defined.

(** X11. On a book that the program has built, every fill of an incoming
    order is for at least one share, and the fills add up to the shares
    the order has lost: its quantity less what the cache records as left
    of it (nothing, when the order was filled entirely). *)
Theorem fills_add_up (lines out : list string) (st : SimpleCross)
    (order : Order) (fills : list Fill) (st' : SimpleCross) :
  run lines initial [] = Returns (out, st) →
  0 ≤ qty order < 65536 →
  _placeOrder order st = Returns (fills, st') →
  Forall (λ f, 0 < fill_qty f) fills ∧
  total_filled fills
  = qty order - from_option qty 0 (orderCache st' !! oid order).
Proof.
  intros (_ & Hbook & _)%reachable_ok Horder
         (o1 & Ho1 & Hnone & Hcache & _ & Hpos & Hqty & _)%placeOrder_inv.
  split; [done|].
  destruct Hqty as [-> _]; [done| |].
  { intros s p q Hin.
    by destruct (book_ok_at _ _ (symbol order) Hbook s p q Hin)
      as (_ & _ & ?). }
  rewrite Hcache. destruct (qty o1 =? 0) eqn:E.
  - apply Z.eqb_eq in E. rewrite Hnone. simpl. lia.
  - by rewrite lookup_insert_eq.
Qed.

Lemma fills_add_up_witness :
  run sample_lines initial [] = Returns ([], sample_state) ∧
  0 ≤ qty sample_sell < 65536 ∧
  _placeOrder sample_sell sample_state
  = Returns (sample_fills, sample_state_sold) ∧
  Forall (λ f, 0 < fill_qty f) sample_fills ∧
  total_filled sample_fills
  = qty sample_sell
    - from_option qty 0 (orderCache sample_state_sold !! oid sample_sell).
Proof.
  assert (run sample_lines initial [] = Returns ([], sample_state)) as Hrun
    by (vm_compute; reflexivity).
  assert (0 ≤ qty sample_sell < 65536) as Hqty by (simpl; lia).
  assert (_placeOrder sample_sell sample_state
          = Returns (sample_fills, sample_state_sold)) as Hplace
    by (vm_compute; reflexivity).
  split; [exact Hrun|]. split; [exact Hqty|]. split; [exact Hplace|].
  exact (fills_add_up _ _ _ _ _ _ Hrun Hqty Hplace).
Defined.



Lemma at_default_assign sym sides (ob : OrderBook) :
  StdMap.at_default sym empty_Sides (StdMap.assign sym sides ob) = sides.
Proof. unfold StdMap.at_default. by rewrite find_assign. Qed.

(** X13. The loop of [_fillBid] works on copies of the price levels: a
    buy order leaves the bids of its symbol alone, and every ask queue
    that is still in the book after it is a queue of the book before it,
    with the same orders and the same quantities. *)
Theorem buy_leaves_resting_asks_as_they_were (order : Order) (ob : OrderBook)
    (o : Order) (fills : list Fill) (ob' : OrderBook) :
  _fillBid order ob = (o, fills, ob') →
  let before := StdMap.at_default (symbol order) empty_Sides ob in
  let after := StdMap.at_default (symbol order) empty_Sides ob' in
  bids after = bids before ∧
  ∀ p q, (p, q) ∈ asks after → (p, q) ∈ asks before.
Proof.
  unfold _fillBid. intros Hfill.
  destruct (cross_levels _ _ order [] []) as [[[o1 ls] f1] d].
  injection Hfill as <- <- <-. rewrite at_default_assign.
  split; [done|]. by intros p q [Hin _]%elem_of_erase_levels.
Qed.

Lemma buy_leaves_resting_asks_as_they_were_witness :
  let ask := mkOrder 1 "IBM" SELL 10 10000000 in
  let buy := mkOrder 2 "IBM" BUY 5 10000000 in
  let ob := [("IBM", mkSides [] [(10000000, [ask])])] in
  _fillBid buy ob = (set_qty buy 0, [mkFill 1 "IBM" 5 10000000], ob) ∧
  bids (StdMap.at_default "IBM" empty_Sides ob)
  = bids (StdMap.at_default "IBM" empty_Sides ob) ∧
  ∀ p q, (p, q) ∈ asks (StdMap.at_default "IBM" empty_Sides ob) →
         (p, q) ∈ asks (StdMap.at_default "IBM" empty_Sides ob).
Proof.
  intros ask buy ob.
  assert (_fillBid buy ob
          = (set_qty buy 0, [mkFill 1 "IBM" 5 10000000], ob)) as Hfill
    by (vm_compute; reflexivity).
  split; [exact Hfill|].
  exact (buy_leaves_resting_asks_as_they_were _ _ _ _ _ Hfill).
Defined.

(** ** What a place and a cancel change *)

(** X14. Placing an order changes nothing under any other symbol. *)
Theorem place_leaves_other_symbols (order : Order) (sc : SimpleCross)
    (fills : list Fill) (sc' : SimpleCross) :
  _placeOrder order sc = Returns (fills, sc') →
  ∀ sym, sym ≠ symbol order →
    StdMap.find sym (orderBook sc') = StdMap.find sym (orderBook sc).
Proof.
  by intros (o1 & _ & _ & _ & _ & _ & _ & _ & Hframe & _)%placeOrder_inv.
Qed.

Lemma place_leaves_other_symbols_witness :
  let order := mkOrder 5 "MSFT" SELL 3 5000000 in
  let sc' := mkSimpleCross
               [("IBM", mkSides [(9900000, [sample_bid3]);
                                 (10000000, [sample_bid1; sample_bid2])] []);
                ("MSFT", mkSides [] [(5000000, [order])])]
               (<[5 := order]> sample_cache) in
  _placeOrder order sample_state = Returns ([], sc') ∧
  "IBM" ≠ symbol order ∧
  StdMap.find "IBM" (orderBook sc')
  = StdMap.find "IBM" (orderBook sample_state).
Proof.
  intros order sc'.
  assert (_placeOrder order sample_state = Returns ([], sc')) as Hplace
    by (vm_compute; reflexivity).
  assert ("IBM" ≠ symbol order) as Hne by (simpl; discriminate).
  split; [exact Hplace|]. split; [exact Hne|].
  exact (place_leaves_other_symbols _ _ _ _ Hplace "IBM" Hne).
Defined.

(** X15. On its own side an order changes one queue at most.  With
    [left] the shares that matching has left of it: the order, holding
    [left] shares, is appended to the queue of its price when [left] is
    not zero, and also when its symbol is new to the book, even with no
    share at all; every other queue of its side stays as it was.  The
    cache records the order exactly when [left] is not zero. *)
Theorem order_joins_the_back_of_its_queue (order : Order) (sc : SimpleCross)
    (fills : list Fill) (sc' : SimpleCross) :
  _placeOrder order sc = Returns (fills, sc') →
  ∃ left : Quantity,
    orderCache sc' !! oid order
    = (if left =? 0 then None else Some (set_qty order left)) ∧
    ∀ p,
      queue_at (symbol order) (side order) p (orderBook sc')
      = queue_at (symbol order) (side order) p (orderBook sc)
        ++ (if bool_decide (p = px order)
               && negb ((left =? 0)
                        && bool_decide (symbol order
                                        ∈ StdMap.keys (orderBook sc)))
            then [set_qty order left] else []).
Proof.
  intros (o1 & Ho1 & Hnone & Hcache & _ & _ & _ & _ & _ & Hown)%placeOrder_inv.
  exists (qty o1). rewrite <- Ho1. split; [|done].
  rewrite Hcache. destruct (qty o1 =? 0); [done|]. by rewrite lookup_insert_eq.
Qed.

Lemma order_joins_the_back_of_its_queue_witness :
  let order := mkOrder 5 "IBM" BUY 3 10000000 in
  let sc' := mkSimpleCross
               [("IBM", mkSides [(9900000, [sample_bid3]);
                                 (10000000, [sample_bid1; sample_bid2; order])]
                                [])]
               (<[5 := order]> sample_cache) in
  _placeOrder order sample_state = Returns ([], sc') ∧
  ∃ left : Quantity,
    orderCache sc' !! 5
    = (if left =? 0 then None else Some (set_qty order left)) ∧
    ∀ p,
      queue_at "IBM" BUY p (orderBook sc')
      = queue_at "IBM" BUY p (orderBook sample_state)
        ++ (if bool_decide (p = 10000000)
               && negb ((left =? 0)
                        && bool_decide ("IBM"
                                        ∈ StdMap.keys (orderBook sample_state)))
            then [set_qty order left] else []).
Proof.
  intros order sc'.
  assert (_placeOrder order sample_state = Returns ([], sc')) as Hplace
    by (vm_compute; reflexivity).
  split; [exact Hplace|].
  exact (order_joins_the_back_of_its_queue _ _ _ _ Hplace).
Defined.

(** X16. An order that the cache has recorded can be cancelled at once:
    the cancel finds it in the queue that the cached symbol, side and
    price name, and returns. *)
Theorem resting_order_can_be_cancelled (order : Order) (sc : SimpleCross)
    (fills : list Fill) (sc' : SimpleCross) :
  _placeOrder order sc = Returns (fills, sc') →
  is_Some (orderCache sc' !! oid order) →
  ∃ sc'', _cancelOrder (oid order) sc' = Returns (true, sc'').
Proof.
  intros (o1 & Ho1 & Hnone & Hcache & _ & _ & _ & _ & _ & Hown)%placeOrder_inv
         Hsome.
  rewrite Hcache in Hsome. destruct (qty o1 =? 0) eqn:E.
  { rewrite Hnone in Hsome. by destruct Hsome. }
  assert (orderCache sc' !! oid order = Some o1) as Ho
    by (by rewrite Hcache, lookup_insert_eq).
  assert (symbol o1 = symbol order ∧ side o1 = side order ∧ px o1 = px order)
    as (Hsym & Hside & Hpx) by (by rewrite Ho1).
  specialize (Hown (px order)).
  rewrite bool_decide_eq_true_2 in Hown by done. simpl in Hown.
  unfold _cancelOrder. rewrite Ho.
  fold (queue_at (symbol o1) (side o1) (px o1) (orderBook sc')).
  rewrite Hsym, Hside, Hpx, Hown.
  destruct (erase_oid _ _) as [q|] eqn:Hq; [by eexists|].
  apply (proj1 (erase_oid_None _ _)) in Hq.
  rewrite Forall_app, Forall_singleton in Hq. destruct Hq as [_ Hq].
  exfalso. apply Hq. by rewrite Ho1.
Qed.

Lemma resting_order_can_be_cancelled_witness :
  let order := mkOrder 5 "IBM" BUY 3 10000000 in
  let sc' := mkSimpleCross
               [("IBM", mkSides [(9900000, [sample_bid3]);
                                 (10000000, [sample_bid1; sample_bid2; order])]
                                [])]
               (<[5 := order]> sample_cache) in
  _placeOrder order sample_state = Returns ([], sc') ∧
  is_Some (orderCache sc' !! 5) ∧
  ∃ sc'', _cancelOrder 5 sc' = Returns (true, sc'').
Proof.
  intros order sc'.
  assert (_placeOrder order sample_state = Returns ([], sc')) as Hplace
    by (vm_compute; reflexivity).
  assert (is_Some (orderCache sc' !! oid order)) as Hsome
    by (exists order; vm_compute; reflexivity).
  split; [exact Hplace|]. split; [exact Hsome|].
  exact (resting_order_can_be_cancelled _ _ _ _ Hplace Hsome).
Defined.



(** ** The loop over one queue *)

Lemma cross_queue_shares order queue fills n o q f n' :
  cross_queue order queue fills n = (o, q, f, n') →
  in_range order → Forall in_range queue →
  open_shares queue - open_shares q = qty order - qty o.
Proof.
  revert order fills n o q f n'.
  induction queue as [|r queue IH]; intros order fills n o q f n'.
  { simpl. intros [= <- <- _ _] _ _. simpl. lia. }
  cbn [cross_queue]. cbv zeta.
  set (shares := Z.min (qty r) (qty order)).
  set (order1 := set_qty order (uint16 (qty order - shares))).
  set (r1 := set_qty r (uint16 (qty r - shares))).
  unfold in_range. intros Hcross Horder [Hr Hqueue]%Forall_cons.
  assert (0 ≤ shares ≤ qty order ∧ shares ≤ qty r) as Hshares
    by (subst shares; lia).
  assert (qty order1 = qty order - shares) as Horder1
    by (simpl; apply uint16_small; lia).
  assert (qty r1 = qty r - shares) as Hr1
    by (simpl; apply uint16_small; lia).
  destruct (qty order1 =? 0).
  - injection Hcross as <- <- _ _.
    change (open_shares (r :: queue)) with (qty r + open_shares queue).
    change (open_shares (r1 :: queue)) with (qty r1 + open_shares queue).
    lia.
  - destruct (cross_queue order1 queue _ _) as [[[o2 q2] f2] k2] eqn:Hrec.
    injection Hcross as <- <- _ _.
    apply IH in Hrec; [|unfold in_range; lia | done].
    change (open_shares (r :: queue)) with (qty r + open_shares queue).
    change (open_shares (r1 :: q2)) with (qty r1 + open_shares q2).
    lia.
Qed.

(** X18. The loop over a queue moves shares and loses none: what the
    incoming order has lost when the loop ends is what the resting orders
    of the queue have lost together, and it is the total of the fills
    that the loop has added.  No order leaves the queue inside the loop. *)
Theorem crossing_moves_shares (order : Order) (queue : OrderQueue)
    (fills : list Fill) (ordersToPop : nat)
    (o : Order) (queue' : OrderQueue) (fills' : list Fill) (n : nat) :
  cross_queue order queue fills ordersToPop = (o, queue', fills', n) →
  0 ≤ qty order < 65536 →
  Forall (λ r, 0 ≤ qty r < 65536) queue →
  length queue' = length queue ∧
  open_shares queue - open_shares queue' = qty order - qty o ∧
  total_filled fills' - total_filled fills = qty order - qty o.
Proof.
  intros Hcross Horder Hqueue. split_and!.
  - by rewrite <- (length_fmap as_placed queue'),
         (cross_queue_as_placed _ _ _ _ _ _ _ _ Hcross), length_fmap.
  - by eapply cross_queue_shares.
  - apply cross_queue_fills in Hcross as (new & -> & _ & _ & Hqty).
    destruct (Hqty Horder Hqueue) as [Htotal _].
    rewrite total_filled_app. lia.
Qed.

Lemma crossing_moves_shares_witness :
  let queue := [sample_bid1; sample_bid2] in
  let queue' := [set_qty sample_bid1 0; set_qty sample_bid2 0] in
  let fills' := [mkFill 1 "IBM" 10 10000000; mkFill 2 "IBM" 5 10000000] in
  cross_queue sample_sell queue [] 0
  = (set_qty sample_sell 5, queue', fills', 2%nat) ∧
  0 ≤ qty sample_sell < 65536 ∧
  Forall (λ r, 0 ≤ qty r < 65536) queue ∧
  length queue' = length queue ∧
  open_shares queue - open_shares queue'
  = qty sample_sell - qty (set_qty sample_sell 5) ∧
  total_filled fills' - total_filled []
  = qty sample_sell - qty (set_qty sample_sell 5).
Proof.
  intros queue queue' fills'.
  assert (cross_queue sample_sell queue [] 0
          = (set_qty sample_sell 5, queue', fills', 2%nat)) as Hcross
    by (vm_compute; reflexivity).
  assert (0 ≤ qty sample_sell < 65536) as Horder by (simpl; lia).
  assert (Forall (λ r, 0 ≤ qty r < 65536) queue) as Hqueue
    by (repeat constructor; simpl; lia).
  split; [exact Hcross|]. split; [exact Horder|]. split; [exact Hqueue|].
  exact (crossing_moves_shares _ _ _ _ _ _ _ _ Hcross Horder Hqueue).
Defined.

(** ** The two embeddings agree on decimal prices *)

Section map_agreement.
Context {K K' V V' : Type} `{Less K} `{Less K'} (f : K → K') (g : V → V').
Context (Hless : ∀ a b, less (f a) (f b) = less a b).
Implicit Types (k : K) (v : V) (m : list (K * V)).

Lemma same_key_map k k' :
  StdMap.same_key (f k) (f k') = StdMap.same_key k k'.
Proof. unfold StdMap.same_key. by rewrite !Hless. Qed.

Lemma find_map k m :
  StdMap.find (f k) (prod_map f g <$> m) = g <$> StdMap.find k m.
Proof.
  induction m as [|[k' v'] m IH]; simpl; [done|].
  rewrite same_key_map. by destruct (StdMap.same_key k k').
Qed.

Lemma insert_map k v m :
  StdMap.insert (f k) (g v) (prod_map f g <$> m)
  = prod_map f g <$> StdMap.insert k v m.
Proof.
  induction m as [|[k' v'] m IH]; simpl; [done|]. rewrite !Hless.
  destruct (less k k'); [done|]. destruct (less k' k); [|done].
  simpl. f_equal. apply IH.
Qed.

Lemma assign_map k v m :
  StdMap.assign (f k) (g v) (prod_map f g <$> m)
  = prod_map f g <$> StdMap.assign k v m.
Proof.
  induction m as [|[k' v'] m IH]; simpl; [done|]. rewrite !Hless.
  destruct (less k k'); [done|]. destruct (less k' k); [|done].
  simpl. f_equal. apply IH.
Qed.

Lemma erase_map k m :
  StdMap.erase (f k) (prod_map f g <$> m) = prod_map f g <$> StdMap.erase k m.
Proof.
  induction m as [|[k' v'] m IH]; simpl; [done|]. rewrite same_key_map.
  destruct (StdMap.same_key k k'); [done|]. simpl. f_equal. apply IH.
Qed.

Lemma at_default_map k d m :
  StdMap.at_default (f k) (g d) (prod_map f g <$> m)
  = g (StdMap.at_default k d m).
Proof.
  unfold StdMap.at_default. rewrite find_map. by destruct (StdMap.find k m).
Qed.
End map_agreement.

Lemma widen_fills_step (c : bool) (fills : list Fill) (fill : Fill) :
  (if c then (widen_fill <$> fills) ++ [widen_fill fill]
   else widen_fill <$> fills)
  = widen_fill <$> (if c then fills ++ [fill] else fills).
Proof. destruct c; [by rewrite fmap_app | done]. Qed.

Lemma cross_queue_widen order queue fills n :
  NaNPrice.cross_queue (widen_order order) (widen_order <$> queue)
                       (widen_fill <$> fills) n
  = let '(o, q, f, n') := cross_queue order queue fills n in
    (widen_order o, widen_order <$> q, widen_fill <$> f, n').
Proof.
  revert order fills n.
  induction queue as [|r queue IH]; intros order fills n; [done|].
  rewrite fmap_cons. cbn [NaNPrice.cross_queue cross_queue]. cbv zeta.
  change (NaNPrice.qty (widen_order r)) with (qty r).
  change (NaNPrice.qty (widen_order order)) with (qty order).
  set (shares := Z.min (qty r) (qty order)).
  change (NaNPrice.set_qty (widen_order order) (uint16 (qty order - shares)))
    with (widen_order (set_qty order (uint16 (qty order - shares)))).
  change (NaNPrice.set_qty (widen_order r) (uint16 (qty r - shares)))
    with (widen_order (set_qty r (uint16 (qty r - shares)))).
  set (order1 := set_qty order (uint16 (qty order - shares))).
  set (r1 := set_qty r (uint16 (qty r - shares))).
  change (NaNPrice.qty (widen_order order1)) with (qty order1).
  change (NaNPrice.qty (widen_order r1)) with (qty r1).
  change (NaNPrice.mkFill (NaNPrice.oid (widen_order r1))
            (NaNPrice.symbol (widen_order r1)) shares
            (NaNPrice.px (widen_order r1)))
    with (widen_fill (mkFill (oid r1) (symbol r1) shares (px r1))).
  rewrite widen_fills_step.
  destruct (qty order1 =? 0); [done|].
  rewrite IH. by destruct (cross_queue order1 queue _ _) as [[[o q] f] n'].
Qed.

Lemma pop_back_n_widen n (queue : OrderQueue) :
  NaNPrice.pop_back_n n (widen_order <$> queue)
  = widen_order <$> pop_back_n n queue.
Proof.
  unfold NaNPrice.pop_back_n, pop_back_n.
  induction n as [|n IH]; simpl; [done|]. rewrite IH.
  unfold NaNPrice.pop_back, pop_back. by rewrite length_fmap, fmap_take.
Qed.

Lemma widen_levels_cons p q (levels : PriceLevels) :
  widen_levels ((p, q) :: levels)
  = (NaNPrice.Finite p, widen_order <$> q) :: widen_levels levels.
Proof. done. Qed.

Lemma cross_levels_widen mk mk' (levels : PriceLevels) order fills d :
  (∀ p, mk' (NaNPrice.Finite p) = mk p) →
  NaNPrice.cross_levels mk' (widen_levels levels) (widen_order order)
                        (widen_fill <$> fills) (NaNPrice.Finite <$> d)
  = let '(o, ls, f, d') := cross_levels mk levels order fills d in
    (widen_order o, widen_levels ls, widen_fill <$> f, NaNPrice.Finite <$> d').
Proof.
  intros Hmk. revert order fills d.
  induction levels as [|[p q] levels IH]; intros order fills d; [done|].
  rewrite widen_levels_cons. cbn [NaNPrice.cross_levels cross_levels].
  rewrite Hmk.
  assert ((if mk p
           then
             let '(o, q0, f, ordersToPop) :=
               NaNPrice.cross_queue (widen_order order) (widen_order <$> q)
                                    (widen_fill <$> fills) 0 in
             (o, NaNPrice.pop_back_n ordersToPop q0, f)
           else (widen_order order, widen_order <$> q, widen_fill <$> fills))
          = let '(o, q0, f) :=
              (if mk p
               then
                 let '(o, q0, f, ordersToPop) := cross_queue order q fills 0 in
                 (o, pop_back_n ordersToPop q0, f)
               else (order, q, fills)) in
            (widen_order o, widen_order <$> q0, widen_fill <$> f)) as ->.
  { destruct (mk p); [|done]. rewrite cross_queue_widen.
    destruct (cross_queue order q fills 0) as [[[o q0] f] k].
    by rewrite pop_back_n_widen. }
  destruct (if mk p then _ else _) as [[o1 q1] f1].
  assert (match widen_order <$> q1 with
          | [] => (NaNPrice.Finite <$> d) ++ [NaNPrice.Finite p]
          | _ :: _ => NaNPrice.Finite <$> d
          end
          = NaNPrice.Finite <$> match q1 with
                                | [] => d ++ [p]
                                | _ :: _ => d
                                end) as ->.
  { destruct q1; [by rewrite fmap_app | done]. }
  change (NaNPrice.qty (widen_order o1)) with (qty o1).
  destruct (qty o1 =? 0); [done|].
  rewrite IH. by destruct (cross_levels mk levels o1 f1 _) as [[[o ls] f] d'].
Qed.

Lemma erase_levels_widen d (levels : PriceLevels) :
  NaNPrice.erase_levels (NaNPrice.Finite <$> d) (widen_levels levels)
  = widen_levels (erase_levels d levels).
Proof.
  unfold NaNPrice.erase_levels, erase_levels. revert levels.
  induction d as [|p d IH]; intros levels; simpl; [done|].
  unfold widen_levels at 1. rewrite erase_map by done. apply IH.
Qed.

Lemma widen_levels_reverse (levels : PriceLevels) :
  reverse (widen_levels levels) = widen_levels (reverse levels).
Proof. unfold widen_levels. by rewrite fmap_reverse. Qed.

Lemma at_default_widen_book sym (ob : OrderBook) :
  StdMap.at_default sym NaNPrice.empty_Sides (widen_book ob)
  = widen_sides (StdMap.at_default sym empty_Sides ob).
Proof.
  unfold widen_book.
  by rewrite <- (at_default_map id widen_sides) by done.
Qed.

Lemma assign_widen_book sym sides (ob : OrderBook) :
  StdMap.assign sym (widen_sides sides) (widen_book ob)
  = widen_book (StdMap.assign sym sides ob).
Proof.
  unfold widen_book. by rewrite <- (assign_map id widen_sides) by done.
Qed.

Lemma fillOrder_widen order (ob : OrderBook) :
  NaNPrice._fillOrder (widen_order order) (widen_book ob)
  = let '(o, f, ob') := _fillOrder order ob in
    (widen_order o, widen_fill <$> f, widen_book ob').
Proof.
  unfold NaNPrice._fillOrder, _fillOrder.
  change (NaNPrice.side (widen_order order)) with (side order).
  destruct (side order).
  - unfold NaNPrice._fillBid, _fillBid.
    change (NaNPrice.symbol (widen_order order)) with (symbol order).
    rewrite at_default_widen_book.
    set (sides := StdMap.at_default (symbol order) empty_Sides ob).
    change (NaNPrice.asks (widen_sides sides)) with (widen_levels (asks sides)).
    change (NaNPrice.bids (widen_sides sides)) with (widen_levels (bids sides)).
    rewrite (cross_levels_widen (λ askPrice, askPrice <=? px order) _
               (asks sides) order [] []) by done.
    destruct (cross_levels _ (asks sides) order [] []) as [[[o ls] f] d].
    rewrite erase_levels_widen.
    by rewrite <- assign_widen_book.
  - unfold NaNPrice._fillAsk, _fillAsk.
    change (NaNPrice.symbol (widen_order order)) with (symbol order).
    rewrite at_default_widen_book.
    set (sides := StdMap.at_default (symbol order) empty_Sides ob).
    change (NaNPrice.asks (widen_sides sides)) with (widen_levels (asks sides)).
    change (NaNPrice.bids (widen_sides sides)) with (widen_levels (bids sides)).
    rewrite widen_levels_reverse.
    rewrite (cross_levels_widen (λ bidPrice, px order <=? bidPrice) _
               (reverse (bids sides)) order [] []) by done.
    destruct (cross_levels _ (reverse (bids sides)) order [] [])
      as [[[o ls] f] d].
    rewrite widen_levels_reverse, erase_levels_widen.
    by rewrite <- assign_widen_book.
Qed.

Lemma levels_of_widen s sides :
  NaNPrice.levels_of s (widen_sides sides) = widen_levels (levels_of s sides).
Proof. by destruct s. Qed.

Lemma with_levels_widen s (levels : PriceLevels) sides :
  NaNPrice.with_levels s (widen_levels levels) (widen_sides sides)
  = widen_sides (with_levels s levels sides).
Proof. by destruct s. Qed.

Lemma find_widen_levels p (levels : PriceLevels) :
  StdMap.find (NaNPrice.Finite p) (widen_levels levels)
  = fmap (M := option) (fmap widen_order) (StdMap.find p levels).
Proof. unfold widen_levels. by rewrite find_map. Qed.

Lemma assign_widen_levels p (q : OrderQueue) (levels : PriceLevels) :
  StdMap.assign (NaNPrice.Finite p) (widen_order <$> q) (widen_levels levels)
  = widen_levels (StdMap.assign p q levels).
Proof.
  unfold widen_levels.
  by rewrite <- (assign_map NaNPrice.Finite (fmap widen_order)).
Qed.

Lemma insert_widen_levels p (q : OrderQueue) (levels : PriceLevels) :
  StdMap.insert (NaNPrice.Finite p) (widen_order <$> q) (widen_levels levels)
  = widen_levels (StdMap.insert p q levels).
Proof.
  unfold widen_levels.
  by rewrite <- (insert_map NaNPrice.Finite (fmap widen_order)).
Qed.

Lemma erase_widen_levels p (levels : PriceLevels) :
  StdMap.erase (NaNPrice.Finite p) (widen_levels levels)
  = widen_levels (StdMap.erase p levels).
Proof. unfold widen_levels. by rewrite erase_map. Qed.

Lemma at_default_widen_levels p (levels : PriceLevels) :
  StdMap.at_default (NaNPrice.Finite p) [] (widen_levels levels)
  = widen_order <$> StdMap.at_default p [] levels.
Proof.
  unfold StdMap.at_default. rewrite find_widen_levels.
  by destruct (StdMap.find p levels).
Qed.

Lemma placeOrderNewSymbol_widen order (ob : OrderBook) :
  NaNPrice._placeOrderNewSymbol (widen_order order) (widen_book ob)
  = widen_book (_placeOrderNewSymbol order ob).
Proof.
  unfold NaNPrice._placeOrderNewSymbol, _placeOrderNewSymbol, widen_book.
  rewrite <- (insert_map id widen_sides) by done.
  change (NaNPrice.side (widen_order order)) with (side order).
  by destruct (side order).
Qed.

Lemma placeOrderExistingSymbol_widen order (ob : OrderBook) :
  NaNPrice._placeOrderExistingSymbol (widen_order order) (widen_book ob)
  = let '(o, f, ob') := _placeOrderExistingSymbol order ob in
    (widen_order o, widen_fill <$> f, widen_book ob').
Proof.
  unfold NaNPrice._placeOrderExistingSymbol, _placeOrderExistingSymbol.
  rewrite fillOrder_widen.
  destruct (_fillOrder order ob) as [[o1 f1] ob1].
  change (NaNPrice.qty (widen_order o1)) with (qty o1).
  destruct (qty o1 =? 0); [done|].
  change (NaNPrice.symbol (widen_order o1)) with (symbol o1).
  change (NaNPrice.side (widen_order o1)) with (side o1).
  change (NaNPrice.px (widen_order o1)) with (NaNPrice.Finite (px o1)).
  rewrite at_default_widen_book, levels_of_widen, find_widen_levels.
  f_equal. rewrite <- assign_widen_book, <- with_levels_widen. do 2 f_equal.
  destruct (StdMap.find (px o1) _) as [q0|]; simpl.
  - rewrite <- assign_widen_levels. by rewrite fmap_app.
  - by rewrite <- insert_widen_levels.
Qed.

Lemma cache_insert_widen o (cache : OrderCache) :
  NaNPrice.cache_insert (widen_order o) (widen_order <$> cache)
  = widen_order <$> cache_insert o cache.
Proof.
  unfold NaNPrice.cache_insert, cache_insert.
  change (NaNPrice.oid (widen_order o)) with (oid o).
  rewrite lookup_fmap. destruct (cache !! oid o); simpl; [done|].
  by rewrite fmap_insert.
Qed.

Lemma placeOrder_widen order sc f sc' :
  _placeOrder order sc = Returns (f, sc') →
  NaNPrice._placeOrder (widen_order order) (widen sc)
  = Returns (widen_fill <$> f, widen sc').
Proof.
  unfold NaNPrice._placeOrder, _placeOrder,
         NaNPrice._validateOrderId, _validateOrderId.
  change (NaNPrice.orderCache (widen sc)) with (widen_order <$> orderCache sc).
  change (NaNPrice.orderBook (widen sc)) with (widen_book (orderBook sc)).
  change (NaNPrice.oid (widen_order order)) with (oid order).
  change (NaNPrice.symbol (widen_order order)) with (symbol order).
  rewrite lookup_fmap.
  destruct (orderCache sc !! oid order); [done|]. simpl.
  assert (∀ sym (ob : OrderBook),
            StdMap.find sym (widen_book ob)
            = widen_sides <$> StdMap.find sym ob) as ->.
  { intros sym ob. apply (find_map id widen_sides). done. }
  destruct (StdMap.find (symbol order) (orderBook sc)); simpl.
  - rewrite placeOrderExistingSymbol_widen.
    destruct (_placeOrderExistingSymbol order (orderBook sc))
      as [[o1 f1] ob1].
    change (NaNPrice.qty (widen_order o1)) with (qty o1).
    intros [= <- <-]. rewrite cache_insert_widen.
    by destruct (qty o1 =? 0).
  - rewrite placeOrderNewSymbol_widen.
    change (NaNPrice.qty (widen_order order)) with (qty order).
    intros [= <- <-]. rewrite cache_insert_widen.
    by destruct (qty order =? 0).
Qed.

Lemma erase_oid_widen o (queue : OrderQueue) :
  NaNPrice.erase_oid o (widen_order <$> queue)
  = fmap (M := option) (fmap widen_order) (erase_oid o queue).
Proof.
  induction queue as [|order queue IH]; [done|].
  rewrite fmap_cons. cbn [NaNPrice.erase_oid erase_oid].
  change (NaNPrice.oid (widen_order order)) with (oid order).
  destruct (oid order =? o); [done|]. rewrite IH.
  by destruct (erase_oid o queue).
Qed.

Lemma cancelOrder_widen o sc b sc' :
  _cancelOrder o sc = Returns (b, sc') →
  NaNPrice._cancelOrder o (widen sc) = Returns (b, widen sc').
Proof.
  unfold NaNPrice._cancelOrder, _cancelOrder.
  change (NaNPrice.orderCache (widen sc)) with (widen_order <$> orderCache sc).
  change (NaNPrice.orderBook (widen sc)) with (widen_book (orderBook sc)).
  rewrite lookup_fmap.
  destruct (orderCache sc !! o) as [order|]; simpl; [|by intros [= <- <-]].
  change (NaNPrice.symbol (widen_order order)) with (symbol order).
  change (NaNPrice.side (widen_order order)) with (side order).
  change (NaNPrice.px (widen_order order)) with (NaNPrice.Finite (px order)).
  rewrite at_default_widen_book, levels_of_widen, at_default_widen_levels,
          erase_oid_widen.
  destruct (erase_oid o _) as [q|]; simpl; [|done].
  intros [= <- <-]. do 2 f_equal. unfold widen. simpl. f_equal.
  rewrite <- assign_widen_book, <- with_levels_widen. do 2 f_equal.
  destruct q as [|r q]; simpl.
  - by rewrite erase_widen_levels.
  - by rewrite <- assign_widen_levels.
Qed.

Lemma printFills_widen (fills : list Fill) :
  NaNPrice._printFills (widen_fill <$> fills) = _printFills fills.
Proof.
  unfold NaNPrice._printFills, _printFills. by rewrite <- list_fmap_compose.
Qed.

Lemma side_lines_widen sym s (levels : PriceLevels) :
  NaNPrice.book_line
    <$> ('(price, queue) ← widen_levels levels;
         NaNPrice.mkListed sym s price <$> queue)
  = book_line <$> ('(price, queue) ← levels; mkListed sym s price <$> queue).
Proof.
  induction levels as [|[p q] levels IH]; [done|].
  rewrite widen_levels_cons, !bind_cons, !fmap_app, IH. f_equal.
  by rewrite <- !list_fmap_compose.
Qed.

Lemma printSortedBook_widen (ob : OrderBook) :
  NaNPrice._printSortedBook (widen_book ob) = _printSortedBook ob.
Proof.
  assert (NaNPrice.book_line <$> NaNPrice.listing (widen_book ob)
          = book_line <$> listing ob) as Hlisting; [|by destruct ob].
  unfold NaNPrice.listing, listing.
  induction ob as [|[sym sides] ob IH]; [done|].
  change (widen_book ((sym, sides) :: ob))
    with ((sym, widen_sides sides) :: widen_book ob).
  rewrite !bind_cons, !fmap_app, IH. f_equal.
  unfold NaNPrice.side_listing, side_listing.
  change (NaNPrice.asks (widen_sides sides)) with (widen_levels (asks sides)).
  change (NaNPrice.bids (widen_sides sides)) with (widen_levels (bids sides)).
  by rewrite !widen_levels_reverse, !side_lines_widen.
Qed.

Lemma stod_widen str v :
  stod str = Returns v → NaNPrice.stod str = Returns (NaNPrice.Finite v).
Proof.
  unfold NaNPrice.stod, stod.
  destruct (read_sign _) as [neg s1].
  destruct (read_digits s1 0 0) as [[ip n1] s2].
  destruct (match s2 with String "." s' => _ | _ => _ end) as [[fp n2] s3].
  destruct (n1 + n2)%nat.
  - by destruct (starts_with_any _ s1).
  - destruct (_ || _); [done|]. by intros [= <-].
Qed.

Lemma Order_ctor_widen o sym c q p order :
  Order_ctor o sym c q p = Returns order →
  NaNPrice.Order_ctor o sym c q (NaNPrice.Finite p)
  = Returns (widen_order order).
Proof.
  unfold NaNPrice.Order_ctor, Order_ctor.
  repeat (destruct (Ascii.eqb _ _); [by intros [= <-]|]). done.
Qed.

Lemma make_order_widen instructions order :
  make_order instructions = Returns order →
  NaNPrice.make_order instructions = Returns (widen_order order).
Proof.
  unfold NaNPrice.make_order, make_order. intros Hmake.
  apply bind_Returns in Hmake as (i5 & -> & Hmake). simpl.
  apply bind_Returns in Hmake as (p & Hp%stod_widen & Hmake).
  rewrite Hp. simpl.
  repeat (let a := fresh "a" in
          let Ha := fresh "H" a in
          apply bind_Returns in Hmake as (a & Ha & Hmake);
          rewrite Ha; simpl).
  by apply Order_ctor_widen.
Qed.

Lemma action_widen line sc d :
  action line sc = Returns d →
  NaNPrice.action line (widen sc)
  = Returns (NaNPrice.mkDone (returned d) (printed d) (widen (state d))).
Proof.
  unfold NaNPrice.action, action. intros Hact.
  apply bind_Returns in Hact as (i0 & -> & Hact). simpl.
  apply bind_Returns in Hact as (act & -> & Hact). simpl.
  destruct (Ascii.eqb act "O").
  { apply bind_Returns in Hact as (order & Horder%make_order_widen & Hact).
    apply bind_Returns in Hact as ([fills sc'] & Hplace%placeOrder_widen & Hact).
    injection Hact as <-. rewrite Horder. simpl. rewrite Hplace. simpl.
    by rewrite printFills_widen. }
  destruct (Ascii.eqb act "X").
  { apply bind_Returns in Hact as (i1 & -> & Hact). simpl.
    apply bind_Returns in Hact as (o & -> & Hact). simpl.
    apply bind_Returns in Hact
      as ([cancelled sc'] & Hcancel%cancelOrder_widen & Hact).
    injection Hact as <-. by rewrite Hcancel. }
  destruct (Ascii.eqb act "P"); injection Hact as <-; simpl; [|done].
  change (NaNPrice.orderBook (widen sc)) with (widen_book (orderBook sc)).
  by rewrite printSortedBook_widen.
Qed.

(** Wherever the embedding over decimal prices returns, the embedding
    over [double] returns the same, print for print and order for
    order. *)
Lemma run_widen lines sc out out' sc' :
  run lines sc out = Returns (out', sc') →
  NaNPrice.run lines (widen sc) out = Returns (out', widen sc').
Proof.
  revert sc out. induction lines as [|line lines IH]; intros sc out.
  - by intros [= <- <-].
  - intros (d & Hd%action_widen & Hrun)%bind_Returns.
    cbn [NaNPrice.run]. rewrite Hd. simpl. by apply IH.
Qed.

(** ** No crossable pair, on decimal prices *)

(** X19. On lines whose prices are written in plain decimal notation,
    the 7.5 format among them, the book holds no crossable pair after any
    completed action: for every symbol each bid level is priced strictly
    below each ask level, so that the lowest ask price exceeds the highest
    bid price whenever both sides have levels.  In particular, once an
    order has been placed, a level at its price on its own side (where it
    rests) faces no opposite level it could trade with. *)
Theorem no_cross_after_every_action (lines out : list string) (st : SimpleCross) :
  run lines initial [] = Returns (out, st) →
  (∀ sym sides, (sym, sides) ∈ orderBook st →
     (∀ pb pa, pb ∈ StdMap.keys (bids sides) → pa ∈ StdMap.keys (asks sides) →
               pb < pa) ∧
     (∀ b a, max_price (bids sides) = Some b → min_price (asks sides) = Some a →
             b < a)) ∧
  (∀ order fills st',
     _placeOrder order st = Returns (fills, st') →
     let sides' := StdMap.at_default (symbol order) empty_Sides (orderBook st') in
     px order ∈ StdMap.keys (levels_of (side order) sides') →
     unmarketable order sides').
Proof.
  intros Hrun.
  assert (no_cross (orderBook st)) as Hst.
  { eapply run_no_cross; [done|]. apply Forall_nil_2. }
  split.
  - intros sym sides Hin.
    assert (no_cross_sides sides) as Hsides.
    { unfold no_cross in Hst. rewrite Forall_forall in Hst. by apply (Hst (sym, sides)). }
    split; [done|].
    intros b a Hb%max_price_elem_of Ha%min_price_elem_of. by apply Hsides.
  - intros order fills st' Hplace sides' Hlevel.
    assert (no_cross_sides sides') as Hsides.
    { apply at_default_values; [|apply no_cross_empty_Sides].
      by eapply placeOrder_no_cross. }
    unfold unmarketable. clearbody sides'.
    destruct (side order); simpl in *; intros p Hp; by apply Hsides.
Qed.

(** Four lines: a bid, an ask above it, a buy that takes the whole ask
    level, and a sell that rests above the bid; then a buy that comes to
    rest between the two. *)
Lemma no_cross_after_every_action_witness :
  let lines := ["O 1 IBM B 10 99.00000"; "O 2 IBM S 4 101.00000";
                "O 3 IBM B 4 101.00000"; "O 4 IBM S 12 100.00000"] in
  let o1 := mkOrder 1 "IBM" BUY 10 9900000 in
  let o2 := mkOrder 2 "IBM" SELL 4 10100000 in
  let o4 := mkOrder 4 "IBM" SELL 12 10000000 in
  let o5 := mkOrder 5 "IBM" BUY 3 9950000 in
  let sides := mkSides [(9900000, [o1])] [(10000000, [o4])] in
  let sides' := mkSides [(9900000, [o1]); (9950000, [o5])]
                        [(10000000, [o4])] in
  let cache := <[4 := o4]> (<[2 := o2]> (<[1 := o1]> ∅)) in
  let st := mkSimpleCross [("IBM", sides)] cache in
  let st' := mkSimpleCross [("IBM", sides')] (<[5 := o5]> cache) in
  run lines initial [] = Returns (["F 2 IBM 4 101.000000"], st) ∧
  ((∀ pb pa, pb ∈ StdMap.keys (bids sides) → pa ∈ StdMap.keys (asks sides) →
             pb < pa) ∧
   (∀ b a, max_price (bids sides) = Some b → min_price (asks sides) = Some a →
           b < a)) ∧
  _placeOrder o5 st = Returns ([], st') ∧
  px o5 ∈ StdMap.keys (levels_of (side o5) sides') ∧
  unmarketable o5 sides'.
Proof.
  intros lines o1 o2 o4 o5 sides sides' cache st st'.
  assert (run lines initial [] = Returns (["F 2 IBM 4 101.000000"], st)) as Hrun
    by (vm_compute; reflexivity).
  assert (_placeOrder o5 st = Returns ([], st')) as Hplace
    by (vm_compute; reflexivity).
  assert (px o5 ∈ StdMap.keys (levels_of (side o5) sides')) as Hlevel
    by (right; left).
  destruct (no_cross_after_every_action lines _ st Hrun) as [Hbook Hrest].
  split; [exact Hrun|]. split; [apply (Hbook "IBM" sides); left|].
  split; [exact Hplace|]. split; [exact Hlevel|].
  exact (Hrest o5 [] st' Hplace Hlevel).
Defined.

